(** * Verification of the WatermelonDB native core

    Shallow embedding of the native core of the repository:
    - [SliceDecoder]: the streaming decoder of binary slices
      (src/native/shared/SliceDecoder.cpp);
    - [SyncApply]: the transactional JSON payload applier
      (src/native/shared/SyncApplyEngine.cpp);
    - [Sync]: the sync engine state machine
      (src/native/shared/SyncEngine.cpp);
    - [InsertHelper]: the multi-row SQLite inserts of a batch
      (src/native/shared/SqliteInsertHelper.cpp,
      src/native/shared/SliceImportEngine.h);
    - [SliceImport]: the batch flush of the slice import engine
      (src/native/shared/SliceImportEngine.cpp).

    Bytes are [Z] values in [0, 256), buffer offsets are [nat], 64-bit
    integers are [Z] with their wrap-around written out. *)

From Stdlib Require Import List String Ascii ZArith Lia Bool Arith.
Import ListNotations.
Open Scope list_scope.

(* ------------------------------------------------------------------ *)
(** ** Slice decoder *)
(* ------------------------------------------------------------------ *)

Module SliceDecoder.

Local Open Scope Z_scope.

Inductive ParseStatus := Ok | NeedMoreData | EndOfTable | EndOfStream | Error.

Definition END_OF_TABLE_DELIMITER : Z := 255.
Definition MAX_STRING_LENGTH : Z := 1024 * 1024.
Definition MAX_FIELD_SIZE : Z := 10 * 1024 * 1024.
Definition MAX_COLUMN_NAME_LENGTH : nat := 256.
Definition MAX_TABLE_NAME_LENGTH : nat := 256.
Definition UINT64_MASK : Z := Z.ones 64.

(** [static_cast<int64_t>] of a [uint64_t]. *)
Definition to_int64 (v : Z) : Z := if v <? 2 ^ 63 then v else v - 2 ^ 64.

(** [VarintDecoder::DecodeResult] *)
Record DecodeResult := mkDecodeResult {
  dr_value : Z; dr_bytesRead : nat; dr_success : bool; dr_invalid : bool }.

Definition dr_default : DecodeResult := mkDecodeResult 0 0 false false.

Definition byte_at (buffer : list Z) (i : nat) : Z := nth i buffer 0.

(** The do-while loop of [decodeVarint]; [fuel] bounds the iterations
    (the loop stops at the eleventh byte at the latest). *)
Fixpoint decodeVarint_loop (buffer : list Z) (bufferSize offset : nat)
    (value shift : Z) (bytesRead : nat) (fuel : nat) : DecodeResult :=
  match fuel with
  | O => dr_default
  | S fuel' =>
      if (bufferSize <=? offset + bytesRead)%nat then dr_default
      else
        let byte := byte_at buffer (offset + bytesRead)%nat in
        let value' := Z.land (Z.lor value (Z.shiftl (Z.land byte 127) shift)) UINT64_MASK in
        let bytesRead' := S bytesRead in
        if (10 <? bytesRead')%nat then mkDecodeResult 0 0 false true
        else if negb (Z.land byte 128 =? 0)
             then decodeVarint_loop buffer bufferSize offset value' (shift + 7) bytesRead' fuel'
             else mkDecodeResult value' bytesRead' true false
  end.

Definition decodeVarint (buffer : list Z) (bufferSize offset : nat) : DecodeResult :=
  if (bufferSize <=? offset)%nat then dr_default
  else decodeVarint_loop buffer bufferSize offset 0 0 0 11.

(** [VarintDecoder::StringDecodeResult]; a string is its list of bytes. *)
Record StringDecodeResult := mkStringDecodeResult {
  sr_value : list Z; sr_bytesRead : nat; sr_success : bool; sr_invalid : bool }.

Definition sr_default : StringDecodeResult := mkStringDecodeResult [] 0 false false.

Definition slice (buffer : list Z) (from len : nat) : list Z :=
  firstn len (skipn from buffer).

Definition decodeString (buffer : list Z) (bufferSize offset : nat) : StringDecodeResult :=
  let lengthResult := decodeVarint buffer bufferSize offset in
  if dr_invalid lengthResult then mkStringDecodeResult [] 0 false true
  else if negb (dr_success lengthResult) then sr_default
  else
    let length := dr_value lengthResult in
    if MAX_STRING_LENGTH <? length then mkStringDecodeResult [] 0 false true
    else
      let stringOffset := (offset + dr_bytesRead lengthResult)%nat in
      if (bufferSize <? stringOffset + Z.to_nat length)%nat then sr_default
      else mkStringDecodeResult (slice buffer stringOffset (Z.to_nat length))
             (dr_bytesRead lengthResult + Z.to_nat length)%nat true false.

(** The decoder state.  [decompressedSize_] is always the size of
    [decompressedBuffer_], so it is the length of [buffer]. *)
Record Decoder := mkDecoder {
  buffer : list Z;
  currentOffset : nat;
  streamEnded : bool;
  headerParsed : bool;
  expectingTableHeader : bool;
  expectedTables : Z;
  tablesParsed : Z;
  errorMessage : string }.

Definition decompressedSize (d : Decoder) : nat := List.length (buffer d).
Definition remainingBytes (d : Decoder) : nat := (decompressedSize d - currentOffset d)%nat.

Definition setError (d : Decoder) (e : string) : Decoder :=
  mkDecoder (buffer d) (currentOffset d) (streamEnded d) (headerParsed d)
    (expectingTableHeader d) (expectedTables d) (tablesParsed d) e.

Definition setOffset (d : Decoder) (o : nat) : Decoder :=
  mkDecoder (buffer d) o (streamEnded d) (headerParsed d)
    (expectingTableHeader d) (expectedTables d) (tablesParsed d) (errorMessage d).

Definition setExpecting (d : Decoder) (b : bool) : Decoder :=
  mkDecoder (buffer d) (currentOffset d) (streamEnded d) (headerParsed d)
    b (expectedTables d) (tablesParsed d) (errorMessage d).

(** [feedCompressedData] after decompression: the decompressed bytes are
    appended; [frameEnd] is zstd's end-of-frame signal. *)
Definition feedDecompressed (d : Decoder) (bytes : list Z) (frameEnd : bool) : Decoder :=
  mkDecoder (buffer d ++ bytes) (currentOffset d) (streamEnded d || frameEnd)
    (headerParsed d) (expectingTableHeader d) (expectedTables d) (tablesParsed d)
    (errorMessage d).

Record SliceHeader := mkSliceHeader {
  sliceId : list Z; version : Z; priority : list Z; timestamp : Z; numberOfTables : Z }.

Record TableHeader := mkTableHeader { tableName : list Z; columns : list (list Z) }.

(** Shared shape of the "decode failed" branches: corrupt data is an
    error, missing data is an error only after the end of the frame. *)
Definition truncated (d : Decoder) (msg : string) : ParseStatus * Decoder :=
  if streamEnded d then (Error, setError d msg) else (NeedMoreData, d).

Definition parseSliceHeader (d : Decoder) : (ParseStatus * Decoder) * option SliceHeader :=
  if headerParsed d then ((Error, setError d "Slice header already parsed"), None) else
  let buf := buffer d in
  let size := decompressedSize d in
  let offset := currentOffset d in
  if (remainingBytes d =? 0)%nat then
    (truncated d "Unexpected end of stream while parsing slice header", None) else
  let sliceIdResult := decodeString buf size offset in
  if sr_invalid sliceIdResult then
    ((Error, setError d "Invalid sliceId: string too long or corrupt varint"), None) else
  if negb (sr_success sliceIdResult) then
    (truncated d "Failed to decode sliceId: truncated data", None) else
  let offset := (offset + sr_bytesRead sliceIdResult)%nat in
  let versionResult := decodeVarint buf size offset in
  if dr_invalid versionResult then
    ((Error, setError d "Invalid version: corrupt varint"), None) else
  if negb (dr_success versionResult) then
    (truncated d "Failed to decode version: truncated data", None) else
  let offset := (offset + dr_bytesRead versionResult)%nat in
  let priorityResult := decodeString buf size offset in
  if sr_invalid priorityResult then
    ((Error, setError d "Invalid priority: string too long or corrupt varint"), None) else
  if negb (sr_success priorityResult) then
    (truncated d "Failed to decode priority: truncated data", None) else
  let offset := (offset + sr_bytesRead priorityResult)%nat in
  let timestampResult := decodeVarint buf size offset in
  if dr_invalid timestampResult then
    ((Error, setError d "Invalid timestamp: corrupt varint"), None) else
  if negb (dr_success timestampResult) then
    (truncated d "Failed to decode timestamp: truncated data", None) else
  let offset := (offset + dr_bytesRead timestampResult)%nat in
  let numberOfTablesResult := decodeVarint buf size offset in
  if dr_invalid numberOfTablesResult then
    ((Error, setError d "Invalid numberOfTables: corrupt varint"), None) else
  if negb (dr_success numberOfTablesResult) then
    (truncated d "Failed to decode numberOfTables: truncated data", None) else
  let n := to_int64 (dr_value numberOfTablesResult) in
  let offset := (offset + dr_bytesRead numberOfTablesResult)%nat in
  if (n <? 0) || (10000 <? n) then
    ((Error, setError d "Invalid numberOfTables: out of reasonable range"), None) else
  ((Ok, mkDecoder buf offset (streamEnded d) true true n 0 (errorMessage d)),
   Some (mkSliceHeader (sr_value sliceIdResult) (to_int64 (dr_value versionResult))
           (sr_value priorityResult) (to_int64 (dr_value timestampResult)) n)).

(** The status returned right after an end-of-table delimiter has been
    consumed and no byte is left in the buffer. *)
Definition afterDelimiterAtEnd (d : Decoder) : ParseStatus * Decoder :=
  if streamEnded d then
    if (0 <? expectedTables d) && (tablesParsed d <? expectedTables d)
    then (Error, setError d "Stream ended before all expected tables were parsed")
    else (EndOfStream, d)
  else (NeedMoreData, d).

(** The loop over the column names of a table header. *)
Fixpoint parseColumnNames (d : Decoder) (offset : nat) (n : nat) (acc : list (list Z))
    : (ParseStatus * Decoder) + (nat * list (list Z)) :=
  match n with
  | O => inr (offset, rev acc)
  | S n' =>
      let columnResult := decodeString (buffer d) (decompressedSize d) offset in
      if sr_invalid columnResult then
        inl (Error, setError d "Invalid column name: string too long or corrupt varint")
      else if negb (sr_success columnResult) then
        inl (truncated d "Failed to decode column name: truncated data")
      else if (List.length (sr_value columnResult) =? 0)%nat
              || (MAX_COLUMN_NAME_LENGTH <? List.length (sr_value columnResult))%nat then
        inl (Error, setError d "Invalid column name length")
      else parseColumnNames d (offset + sr_bytesRead columnResult)%nat n'
             (sr_value columnResult :: acc)
  end.

(** The part of [parseTableHeader] after the delimiter handling. *)
Definition parseTableHeaderBody (d : Decoder) : (ParseStatus * Decoder) * option TableHeader :=
  let buf := buffer d in
  let size := decompressedSize d in
  let offset := currentOffset d in
  let tableNameResult := decodeString buf size offset in
  if sr_invalid tableNameResult then
    ((Error, setError d "Invalid table name: string too long or corrupt varint"), None) else
  if negb (sr_success tableNameResult) then
    (truncated d "Failed to decode table name: truncated data", None) else
  if (List.length (sr_value tableNameResult) =? 0)%nat
     || (MAX_TABLE_NAME_LENGTH <? List.length (sr_value tableNameResult))%nat then
    ((Error, setError d "Invalid table name length"), None) else
  let offset := (offset + sr_bytesRead tableNameResult)%nat in
  let columnCountResult := decodeVarint buf size offset in
  if dr_invalid columnCountResult then
    ((Error, setError d "Invalid column count: corrupt varint"), None) else
  if negb (dr_success columnCountResult) then
    (truncated d "Failed to decode column count: truncated data", None) else
  let columnCount := dr_value columnCountResult in
  let offset := (offset + dr_bytesRead columnCountResult)%nat in
  if (200 <? columnCount) || (columnCount <? 1) then
    ((Error, setError d "Invalid column count"), None) else
  match parseColumnNames d offset (Z.to_nat columnCount) [] with
  | inl r => (r, None)
  | inr (offset, cols) =>
      ((Ok, mkDecoder buf offset (streamEnded d) (headerParsed d) false
              (expectedTables d) (tablesParsed d + 1) (errorMessage d)),
       Some (mkTableHeader (sr_value tableNameResult) cols))
  end.

Definition parseTableHeader (d : Decoder) : (ParseStatus * Decoder) * option TableHeader :=
  if (remainingBytes d =? 0)%nat then
    (if streamEnded d then
       if tablesParsed d <? expectedTables d
       then (Error, setError d "Stream ended before all expected tables were parsed")
       else (EndOfStream, d)
     else (NeedMoreData, d), None)
  else if (0 <? expectedTables d) && (expectedTables d <=? tablesParsed d) then
    (if tablesParsed d =? expectedTables d then (EndOfStream, d)
     else (Error, setError d "More tables in stream than declared in header"), None)
  else if negb (expectingTableHeader d) then
    if negb (byte_at (buffer d) (currentOffset d) =? END_OF_TABLE_DELIMITER) then
      ((Error, setError d "Expected end-of-table delimiter"), None)
    else
      let d1 := setOffset d (S (currentOffset d)) in
      if (remainingBytes d1 =? 0)%nat then (afterDelimiterAtEnd d1, None)
      else parseTableHeaderBody (setExpecting d1 true)
  else if byte_at (buffer d) (currentOffset d) =? END_OF_TABLE_DELIMITER then
    let d1 := setOffset d (S (currentOffset d)) in
    if (remainingBytes d1 =? 0)%nat then (afterDelimiterAtEnd d1, None)
    else parseTableHeaderBody d1
  else parseTableHeaderBody d.

(** [FieldValue]; a REAL is kept as its IEEE-754 bit pattern. *)
Inductive FieldValue :=
  | NULL_VALUE | INT_VALUE (v : Z) | REAL_VALUE (bits : Z)
  | TEXT_VALUE (s : list Z) | BLOB_VALUE (b : list Z).

(** [Row = std::map<std::string, FieldValue>]: [row[column] = v]. *)
Fixpoint row_set (row : list (list Z * FieldValue)) (k : list Z) (v : FieldValue)
    : list (list Z * FieldValue) :=
  match row with
  | [] => [(k, v)]
  | (k', v') :: rest =>
      if list_eq_dec Z.eq_dec k k' then (k, v) :: rest else (k', v') :: row_set rest k v
  end.

(** Big-endian unsigned value of a byte list. *)
Definition big_endian (bytes : list Z) : Z :=
  fold_left (fun acc b => Z.lor (Z.shiftl acc 8) b) bytes 0.

Definition decodeFieldValue (typeTag : Z) (fieldSize : nat) (bytes : list Z)
    : string + FieldValue :=
  if typeTag =? 0 then inr NULL_VALUE
  else if typeTag =? 1 then
    if negb (fieldSize =? 8)%nat then inl "Invalid INT field size"%string
    else inr (INT_VALUE (to_int64 (Z.land (big_endian bytes) UINT64_MASK)))
  else if typeTag =? 2 then
    if negb (fieldSize =? 8)%nat then inl "Invalid REAL field size"%string
    else inr (REAL_VALUE (Z.land (big_endian bytes) UINT64_MASK))
  else if typeTag =? 3 then inr (TEXT_VALUE bytes)
  else if typeTag =? 4 then inr (BLOB_VALUE bytes)
  else inl "Unknown type tag"%string.

(** The loop over the fields of a row. *)
Fixpoint parseFields (d : Decoder) (cols : list (list Z)) (offset : nat)
    (row : list (list Z * FieldValue))
    : (ParseStatus * Decoder) + (nat * list (list Z * FieldValue)) :=
  match cols with
  | [] => inr (offset, row)
  | column :: rest =>
      let buf := buffer d in
      let size := decompressedSize d in
      let sizeResult := decodeVarint buf size offset in
      if dr_invalid sizeResult then inl (Error, setError d "Invalid field size: corrupt varint")
      else if negb (dr_success sizeResult) then
        inl (truncated d "Failed to decode field size: truncated data")
      else
        let offset := (offset + dr_bytesRead sizeResult)%nat in
        if MAX_FIELD_SIZE <? dr_value sizeResult then
          inl (Error, setError d "Field size exceeds maximum allowed")
        else
          let fieldSize := Z.to_nat (dr_value sizeResult) in
          if (fieldSize =? 0)%nat then
            if (size <=? offset)%nat then inl (truncated d "Truncated NULL field: missing type tag")
            else parseFields d rest (S offset) (row_set row column NULL_VALUE)
          else if (size <? offset + fieldSize + 1)%nat then
            inl (truncated d "Truncated field: missing value or type tag")
          else
            match decodeFieldValue (byte_at buf (offset + fieldSize)%nat) fieldSize
                    (slice buf offset fieldSize) with
            | inl msg => inl (Error, setError d msg)
            | inr v => parseFields d rest (offset + fieldSize + 1)%nat (row_set row column v)
            end
  end.

Definition parseRow (d : Decoder) (cols : list (list Z))
    : (ParseStatus * Decoder) * option (list (list Z * FieldValue)) :=
  if (remainingBytes d =? 0)%nat then
    (truncated d "Unexpected end of stream while parsing row", None)
  else if byte_at (buffer d) (currentOffset d) =? END_OF_TABLE_DELIMITER then
    ((EndOfTable, setExpecting d true), None)
  else
    match parseFields d cols (currentOffset d) [] with
    | inl r => (r, None)
    | inr (offset, row) => ((Ok, setOffset d offset), Some row)
    end.

(** A freshly constructed decoder. *)
Definition newDecoder : Decoder := mkDecoder [] 0 false false true 0 0 "".

(** A complete slice whose header declares one table, followed by the
    data of a second table: slice id ["s"], version 1, priority ["p"],
    timestamp 0, numberOfTables 1; table ["t"] with column ["id"] and no
    row; delimiter; table ["u"] with column ["id"]; delimiter. *)
Definition extraTableStream : list Z :=
  [1;115; 1; 1;112; 0; 1] ++ [1;116; 1; 2;105;100] ++ [255]
  ++ [1;117; 1; 2;105;100] ++ [255].

(** The decoder after [parseSliceHeader], [parseTableHeader] and one
    [parseRow] call (which reports the end of the first table). *)
Definition afterFirstTable : Decoder :=
  let d0 := feedDecompressed newDecoder extraTableStream true in
  let d1 := snd (fst (parseSliceHeader d0)) in
  let d2 := snd (fst (parseTableHeader d1)) in
  snd (fst (parseRow d2 [[105;100]])).

(** A decoder expecting the next table header whose buffer holds only the
    end-of-table delimiter of the previous table (the chunk boundary falls
    right after it). *)
Definition delimiterOnlyChunk : Decoder := mkDecoder [255] 0 false true true 1 0 "".

(** A decoder positioned on a row of a table without columns. *)
Definition rowWithoutColumns : Decoder := mkDecoder [1; 0] 0 false true false 1 1 "".

(** A slice declaring two tables, cut in two chunks right after the
    delimiter that ends the first table; the second table name has length
    255, so its length varint starts with the byte [0xFF]. *)
Definition twoTablesPart1 : list Z :=
  [1;115; 1; 1;112; 0; 2] ++ [1;116; 1; 2;105;100] ++ [255].
Definition twoTablesPart2 : list Z :=
  [255;1] ++ repeat 97 255 ++ [1; 2;105;100] ++ [255].

(** Parses the slice header, the first table header and the first table's
    end-of-table marker. *)
Definition throughFirstTable (d0 : Decoder) : Decoder :=
  let d1 := snd (fst (parseSliceHeader d0)) in
  let d2 := snd (fst (parseTableHeader d1)) in
  snd (fst (parseRow d2 [[105;100]])).

End SliceDecoder.

(* ------------------------------------------------------------------ *)
(** ** Sync apply engine *)
(* ------------------------------------------------------------------ *)

Module SyncApply.

Local Open Scope string_scope.

(** [JsonValue] as [parseJsonWithSimdjson] and [convertSimdjsonElement]
    produce it.  A number is held as its [numberValue]: the text
    [std::to_string] prints for the [int64_t], [uint64_t] or [double]
    simdjson parsed.  An object is held as the members of its
    [unordered_map]: [emplace] keeps the first occurrence of a key, which
    is the one [assoc] below finds, and the members are listed in the
    order the map iterates them (fixed by the standard library's hashing,
    not by the document), which is the order [toJson] writes them in.
    Nothing else in the engine depends on that order: the columns of a row
    are sorted before they are bound.  In [Sync] the same type stands for
    simdjson's DOM, whose objects list their members in document order,
    duplicates included, and whose numbers are again the [std::to_string]
    text of the parsed value. *)
#[warnings="-register-all"]
Inductive JsonValue :=
  | JNull
  | JBool (b : bool)
  | JNumber (numberValue : string)
  | JString (stringValue : string)
  | JArray (arrayValue : list JsonValue)
  | JObject (objectValue : list (string * JsonValue)).

(** The outcome of [parseJsonWithSimdjson]. *)
Inductive ParseResult :=
  | ParseFailed (errorMessage : string)
  | Parsed (root : JsonValue).

(** Association lists keyed by strings: first binding wins. *)
Fixpoint assoc {A : Type} (k : string) (l : list (string * A)) : option A :=
  match l with
  | [] => None
  | (k', v) :: rest => if String.eqb k' k then Some v else assoc k rest
  end.

(** [m[k] = v] on an association list: the first binding of [k] is
    replaced, or the binding is appended. *)
Fixpoint assoc_set {A : Type} (k : string) (v : A) (l : list (string * A))
    : list (string * A) :=
  match l with
  | [] => [(k, v)]
  | (k', v') :: rest => if String.eqb k' k then (k, v) :: rest else (k', v') :: assoc_set k v rest
  end.

Definition mem (k : string) (l : list string) : bool := existsb (String.eqb k) l.

(** The distinct keys of an object ([objectValue]'s key set). *)
Fixpoint objKeys (fields : list (string * JsonValue)) : list string :=
  match fields with
  | [] => []
  | (k, _) :: rest => let ks := objKeys rest in if mem k ks then ks else k :: ks
  end.

Definition findObjectField (fields : list (string * JsonValue)) (key : string)
    : option JsonValue := assoc key fields.

Definition readStringField (fields : list (string * JsonValue)) (key : string) : option string :=
  match findObjectField fields key with Some (JString s) => Some s | _ => None end.

Definition readBoolField (fields : list (string * JsonValue)) (key : string) : option bool :=
  match findObjectField fields key with Some (JBool b) => Some b | _ => None end.

Definition readStringOrNumberField (fields : list (string * JsonValue)) (key : string)
    : option string :=
  match findObjectField fields key with
  | Some (JString s) => Some s
  | Some (JNumber n) => Some n
  | _ => None
  end.

Definition orElse {A : Type} (a : option A) (b : unit -> option A) : option A :=
  match a with Some x => Some x | None => b tt end.

Definition findRowPayload (fields : list (string * JsonValue)) : option JsonValue :=
  orElse (findObjectField fields "row") (fun _ =>
  orElse (findObjectField fields "record") (fun _ =>
  findObjectField fields "data")).

Definition readSequenceField (fields : list (string * JsonValue)) : option string :=
  orElse (readStringOrNumberField fields "sequenceId") (fun _ =>
  orElse (readStringOrNumberField fields "sequence_id") (fun _ =>
  readStringOrNumberField fields "sequence")).

Definition extractSequenceId (fields : list (string * JsonValue)) : option string :=
  orElse (readSequenceField fields) (fun _ =>
    match findRowPayload fields with
    | Some (JObject row) => readSequenceField row
    | _ => None
    end).

(** [extractDeleteFlag]: [Some b] when it returns true with [isDeleted = b]. *)
Definition extractDeleteFlag (fields : list (string * JsonValue)) : option bool :=
  orElse (readBoolField fields "deleted") (fun _ =>
  orElse (readBoolField fields "isDeleted") (fun _ =>
  orElse (readBoolField fields "is_deleted") (fun _ =>
  match orElse (readStringField fields "type") (fun _ =>
        orElse (readStringField fields "op") (fun _ =>
        readStringField fields "operation")) with
  | Some type =>
      if (type =? "delete") || (type =? "deleted") then Some true
      else if (type =? "upsert") || (type =? "insert") || (type =? "update") then Some false
      else None
  | None => None
  end))).

Definition reservedKey (key : string) : bool :=
  (key =? "table") || (key =? "tableName") || (key =? "deleted") || (key =? "isDeleted")
  || (key =? "is_deleted") || (key =? "type") || (key =? "op") || (key =? "operation").

(** [extractRowFromEntry] on an object entry without a row payload. *)
Definition extractRowFromEntry (fields : list (string * JsonValue)) : JsonValue :=
  JObject (filter (fun kv => negb (reservedKey (fst kv))) fields).

Definition extractDeleteId (fields : list (string * JsonValue)) (row : JsonValue)
    : option JsonValue :=
  orElse (match row with JObject r => findObjectField r "id" | _ => None end) (fun _ =>
    findObjectField fields "id").

(** The double-quote character, as a one-character string. *)
Definition dq : string := String (ascii_of_nat 34) EmptyString.

(** [json_utils::escapeJsonString]. *)
Fixpoint escapeJsonString (s : string) : string :=
  match s with
  | EmptyString => ""
  | String c rest =>
      let e := if Ascii.eqb c (ascii_of_nat 34) then "\" ++ dq
               else if Ascii.eqb c (ascii_of_nat 92) then "\\"
               else if Ascii.eqb c (ascii_of_nat 10) then "\n"
               else if Ascii.eqb c (ascii_of_nat 13) then "\r"
               else if Ascii.eqb c (ascii_of_nat 9) then "\t"
               else String c EmptyString in
      e ++ escapeJsonString rest
  end.

Fixpoint concatSep (sep : string) (l : list string) : string :=
  match l with
  | [] => ""
  | [x] => x
  | x :: rest => x ++ sep ++ concatSep sep rest
  end.

(** [toJson]; the members of an object are written in the order of its
    list, the [unordered_map]'s iteration order (see [JsonValue]), a key
    listed twice once, for its first occurrence, as the map holds it. *)
Fixpoint toJson (v : JsonValue) : string :=
  match v with
  | JNull => "null"
  | JBool b => if b then "true" else "false"
  | JNumber n => n
  | JString s => dq ++ escapeJsonString s ++ dq
  | JArray items => "[" ++ concatSep "," (map toJson items) ++ "]"
  | JObject fields =>
      let member := fix member (seen : list string) (fs : list (string * JsonValue))
          : list string :=
        match fs with
        | [] => []
        | (k, x) :: rest =>
            if mem k seen then member seen rest
            else (dq ++ escapeJsonString k ++ dq ++ ":" ++ toJson x) :: member (k :: seen) rest
        end in
      "{" ++ concatSep "," (member [] fields) ++ "}"
  end.

(** [std::stoll]: leading white space, an optional sign, then the longest
    run of decimal digits; [None] when it throws (no digit, or out of the
    range of [long long]). *)
Definition isSpace (c : ascii) : bool :=
  let n := nat_of_ascii c in (n =? 32)%nat || ((9 <=? n)%nat && (n <=? 13)%nat).

Definition digitValue (c : ascii) : option Z :=
  let n := nat_of_ascii c in
  if (48 <=? n)%nat && (n <=? 57)%nat then Some (Z.of_nat (n - 48)) else None.

Fixpoint digitsPrefix (s : string) (acc : Z) (any : bool) : option Z :=
  match s with
  | String c rest =>
      match digitValue c with
      | Some dgt => digitsPrefix rest (acc * 10 + dgt)%Z true
      | None => if any then Some acc else None
      end
  | EmptyString => if any then Some acc else None
  end.

Fixpoint stoll (s : string) : option Z :=
  match s with
  | String c rest =>
      if isSpace c then stoll rest
      else
        let r := if Ascii.eqb c "-"%char then option_map Z.opp (digitsPrefix rest 0 false)
                 else if Ascii.eqb c "+"%char then digitsPrefix rest 0 false
                 else digitsPrefix s 0 false in
        match r with
        | Some v => if ((- 2 ^ 63 <=? v) && (v <? 2 ^ 63))%Z then Some v else None
        | None => None
        end
  | EmptyString => None
  end.

(** A value bound to a statement parameter.  [SqlReal r] is the double
    [strtod(r)], kept as its decimal text. *)
Inductive SqlValue :=
  | SqlNull | SqlInteger (v : Z) | SqlReal (r : string) | SqlText (s : string).

Definition hasFloatChar (s : string) : bool :=
  existsb (fun c => Ascii.eqb c "."%char || Ascii.eqb c "e"%char || Ascii.eqb c "E"%char)
    (list_ascii_of_string s).

Definition bindValue (v : JsonValue) : SqlValue :=
  match v with
  | JNull => SqlNull
  | JBool b => SqlInteger (if b then 1 else 0)%Z
  | JNumber n =>
      if hasFloatChar n then SqlReal n
      else match stoll n with Some x => SqlInteger x | None => SqlReal n end
  | JString s => SqlText s
  | JArray _ | JObject _ => SqlText (toJson v)
  end.

(** SQL equality of two values ([NULL] equals nothing). *)
Definition sqlEqb (a b : SqlValue) : bool :=
  match a, b with
  | SqlInteger x, SqlInteger y => Z.eqb x y
  | SqlReal x, SqlReal y => String.eqb x y
  | SqlText x, SqlText y => String.eqb x y
  | _, _ => false
  end.

(** A table: its columns, its primary-key column and its rows; a row maps
    the columns it was written with to their values, the others are
    [NULL]. *)
Record Table := mkTable {
  tcolumns : list string;
  tpk : string;
  trows : list (list (string * SqlValue)) }.

Definition Db := list (string * Table).

Definition rowGet (row : list (string * SqlValue)) (c : string) : SqlValue :=
  match assoc c row with Some v => v | None => SqlNull end.

(** [INSERT OR REPLACE]: rows with the same primary key go, the row is added. *)
Definition insertOrReplace (row : list (string * SqlValue)) (tb : Table) : Table :=
  mkTable (tcolumns tb) (tpk tb)
    (filter (fun r => negb (sqlEqb (rowGet r (tpk tb)) (rowGet row (tpk tb)))) (trows tb)
     ++ [row]).

(** [DELETE ... WHERE id IN (ids)]. *)
Definition deleteWhereIdIn (ids : list SqlValue) (tb : Table) : Table :=
  mkTable (tcolumns tb) (tpk tb)
    (filter (fun r => negb (existsb (sqlEqb (rowGet r "id")) ids)) (trows tb)).

Fixpoint updateTable (name : string) (f : Table -> Table) (d : Db) : Db :=
  match d with
  | [] => []
  | (n, tb) :: rest => if String.eqb n name then (n, f tb) :: rest else (n, tb) :: updateTable name f rest
  end.

Definition tableColumns (d : Db) (name : string) : list string :=
  match assoc name d with Some tb => tcolumns tb | None => [] end.

(** How one [sqlite3_step] of the [PRAGMA table_info] loop of
    [loadTableColumns] ends: with a row whose name [sqlite3_column_text]
    returns, with a row whose name it returns as null (out of memory), or
    with anything but [SQLITE_ROW] (an error), which ends the loop. *)
Inductive RowOutcome := RowRead | RowNullName | RowStepFails.

(** The process: the committed database, the open transaction's view,
    [PRAGMA schema_version], the process-wide schema cache (table name to
    schema version and column set), the outcome of the SQLite calls that
    can fail ([true] = the next call fails; none fails once the list is
    exhausted), the log of the SQL texts run, latest first, and the
    outcomes of the [PRAGMA table_info] row steps (every row is read once
    the list is exhausted). *)
Record World := mkWorld {
  committed : Db;
  txn : option Db;
  schemaVersion : Z;
  schemaCache : list (string * (Z * list string));
  faults : list bool;
  sqlLog : list string;
  rowReads : list RowOutcome }.

Definition current (w : World) : Db :=
  match txn w with Some d => d | None => committed w end.

Definition setCurrent (w : World) (d : Db) : World :=
  match txn w with
  | Some _ => mkWorld (committed w) (Some d) (schemaVersion w) (schemaCache w) (faults w) (sqlLog w) (rowReads w)
  | None => mkWorld d None (schemaVersion w) (schemaCache w) (faults w) (sqlLog w) (rowReads w)
  end.

Definition setTxn (w : World) (c : Db) (t : option Db) : World :=
  mkWorld c t (schemaVersion w) (schemaCache w) (faults w) (sqlLog w) (rowReads w).

Definition setCache (w : World) (c : list (string * (Z * list string))) : World :=
  mkWorld (committed w) (txn w) (schemaVersion w) c (faults w) (sqlLog w) (rowReads w).

Definition logSql (w : World) (sql : string) : World :=
  mkWorld (committed w) (txn w) (schemaVersion w) (schemaCache w) (faults w) (sql :: sqlLog w) (rowReads w).

(** One SQLite call that can fail: [true] when it succeeds. *)
Definition sqliteCall (w : World) : bool * World :=
  match faults w with
  | [] => (true, w)
  | f :: rest =>
      (negb f, mkWorld (committed w) (txn w) (schemaVersion w) (schemaCache w) rest (sqlLog w) (rowReads w))
  end.

(** A computation that reads and changes the world and may fail with an
    error message. *)
Definition M (A : Type) : Type := World -> (string + A) * World.

Definition ret {A : Type} (a : A) : M A := fun w => (inr a, w).
Definition raise {A : Type} (msg : string) : M A := fun w => (inl msg, w).
Definition bind {A B : Type} (m : M A) (k : A -> M B) : M B :=
  fun w => match m w with
           | (inl msg, w') => (inl msg, w')
           | (inr a, w') => k a w'
           end.

Notation "x <- m ;; k" := (bind m (fun x => k)) (at level 61, m at next level, right associativity).
Notation "m ;;; k" := (bind m (fun _ => k)) (at level 61, right associativity).

Definition get : M World := fun w => (inr w, w).
Definition modify (f : World -> World) : M unit := fun w => (inr tt, f w).

(** [sqlite3_prepare_v2] of [sql]: logged; fails when the statement is not
    valid against the current schema or the call faults. *)
Definition prepare (sql : string) (valid : bool) : M bool :=
  fun w => let (ok, w1) := sqliteCall (logSql w sql) in (inr (valid && ok), w1).

(** [sqlite3_step] of a write statement: [true] on [SQLITE_DONE]. *)
Definition step : M bool := fun w => let (ok, w1) := sqliteCall w in (inr ok, w1).

(** [sqlite3_step] of the [PRAGMA table_info] statement. *)
Definition rowStep : M RowOutcome :=
  fun w =>
    match rowReads w with
    | [] => (inr RowRead, w)
    | o :: rest =>
        (inr o, mkWorld (committed w) (txn w) (schemaVersion w) (schemaCache w) (faults w) (sqlLog w) rest)
    end.

(** [execSql]: [sqlite3_exec] of a transaction statement. *)
Definition execSql (sql : string) : M unit :=
  fun w =>
    let (ok, w1) := sqliteCall (logSql w sql) in
    if negb ok then (inl "SQLite exec failed", w1) else
    if String.eqb sql "BEGIN IMMEDIATE" then
      match txn w1 with
      | Some _ => (inl "cannot start a transaction within a transaction", w1)
      | None => (inr tt, setTxn w1 (committed w1) (Some (committed w1)))
      end
    else if String.eqb sql "COMMIT" then
      match txn w1 with
      | Some d => (inr tt, setTxn w1 d None)
      | None => (inl "cannot commit - no transaction is active", w1)
      end
    else if String.eqb sql "ROLLBACK" then
      match txn w1 with
      | Some _ => (inr tt, setTxn w1 (committed w1) None)
      | None => (inl "cannot rollback - no transaction is active", w1)
      end
    else (inr tt, w1).

Definition quoteIdentifier (name : string) : string :=
  dq ++ string_of_list_ascii
          (flat_map (fun c => if Ascii.eqb c (ascii_of_nat 34) then [c; c] else [c])
             (list_ascii_of_string name)) ++ dq.

(** The [while (sqlite3_step(stmt) == SQLITE_ROW)] loop over the rows of
    [PRAGMA table_info], one per column of the table: a row's name is kept
    unless it is null, and a failed step ends the loop with the names read
    so far (the final step, [SQLITE_DONE] or an error, ends it the same
    way). *)
Fixpoint readTableInfo (rows : list string) : M (list string) :=
  match rows with
  | [] => ret []
  | name :: rest =>
      o <- rowStep;;
      match o with
      | RowStepFails => ret []
      | RowNullName => readTableInfo rest
      | RowRead => names <- readTableInfo rest;; ret (name :: names)
      end
  end.

(** [loadTableColumns]. *)
Definition loadTableColumns (table : string) (forceReload : bool) : M (list string) :=
  ok <- prepare "PRAGMA schema_version" true;;
  if negb ok then raise "Failed to read schema_version" else
  w <- get;;
  let sv := schemaVersion w in
  let cached := if forceReload then None else
                  match assoc table (schemaCache w) with
                  | Some (v, cols) => if Z.eqb v sv then Some cols else None
                  | None => None
                  end in
  match cached with
  | Some cols => ret cols
  | None =>
      ok <- prepare ("PRAGMA table_info(" ++ quoteIdentifier table ++ ")") true;;
      if negb ok then raise "Failed to prepare table_info pragma" else
      w <- get;;
      columns <- readTableInfo (tableColumns (current w) table);;
      match columns with
      | [] => raise ("Failed to load table schema for " ++ table)
      | _ =>
          modify (fun w => setCache w (assoc_set table (sv, columns) (schemaCache w))) ;;;
          ret columns
      end
  end.

(** The [buildKeys] lambda: the row's keys found in the column set, and
    the number of the others ([missingCount]). *)
Definition buildKeys (fields : list (string * JsonValue)) (allowed : list string)
    : list string * nat :=
  (filter (fun k => mem k allowed) (objKeys fields),
   List.length (filter (fun k => negb (mem k allowed)) (objKeys fields))).

Fixpoint insertKey (k : string) (l : list string) : list string :=
  match l with
  | [] => [k]
  | x :: rest => if String.leb k x then k :: l else x :: insertKey k rest
  end.

(** [std::sort] of the keys (byte-wise order of [std::string]). *)
Definition sortKeys (l : list string) : list string := fold_right insertKey [] l.

Definition fieldValue (fields : list (string * JsonValue)) (k : string) : JsonValue :=
  match findObjectField fields k with Some v => v | None => JNull end.

(** The row written by the [INSERT OR REPLACE] of [keys]. *)
Definition rowOf (fields : list (string * JsonValue)) (keys : list string)
    : list (string * SqlValue) :=
  map (fun k => (k, bindValue (fieldValue fields k))) keys.

Definition insertSql (table : string) (keys : list string) : string :=
  "INSERT OR REPLACE INTO " ++ quoteIdentifier table ++ " (" ++
  concatSep "," (map quoteIdentifier keys) ++ ") VALUES (" ++
  concatSep "," (map (fun _ => "?") keys) ++ ")".

Definition insertValid (d : Db) (table : string) (keys : list string) : bool :=
  match assoc table d with
  | Some tb => forallb (fun k => mem k (tcolumns tb)) keys
  | None => false
  end.

Definition applyRowObject (table : string) (rowValue : JsonValue) : M unit :=
  match rowValue with
  | JObject fields =>
      allowedColumns <- loadTableColumns table false;;
      let (keys0, missingCount) := buildKeys fields allowedColumns in
      p <- (if (0 <? missingCount)%nat then
              allowed' <- loadTableColumns table true;;
              ret (allowed', fst (buildKeys fields allowed'))
            else ret (allowedColumns, keys0));;
      let (allowedColumns, keys) := p in
      match keys with
      | [] => raise ("No matching columns for table " ++ table)
      | _ =>
          let keys := sortKeys keys in
          if negb (mem "id" allowedColumns) then raise ("Table " ++ table ++ " missing id column") else
          if negb (mem "id" keys) then raise ("Row missing id for table " ++ table) else
          w <- get;;
          ok <- prepare (insertSql table keys) (insertValid (current w) table keys);;
          if negb ok then raise "Failed to prepare INSERT OR REPLACE" else
          ok <- step;;
          if negb ok then raise "Failed to execute INSERT OR REPLACE" else
          modify (fun w => setCurrent w
                    (updateTable table (insertOrReplace (rowOf fields keys)) (current w)))
      end
  | _ => ret tt
  end.

(** [setLocalStorage]. *)
Definition setLocalStorage (key value : string) : M unit :=
  w <- get;;
  let valid := let cols := tableColumns (current w) "local_storage" in
               mem "key" cols && mem "value" cols in
  ok <- prepare "INSERT OR REPLACE INTO local_storage (key, value) VALUES (?, ?)" valid;;
  if negb ok then raise "Failed to prepare local_storage insert" else
  ok <- step;;
  if negb ok then raise "Failed to write local_storage" else
  modify (fun w => setCurrent w
            (updateTable "local_storage"
               (insertOrReplace [("key", SqlText key); ("value", SqlText value)]) (current w))).

Definition chunkSize : nat := 900.

Fixpoint chunkLoop (fuel : nat) (ids : list JsonValue) : list (list JsonValue) :=
  match fuel with
  | O => []
  | S f =>
      match ids with
      | [] => []
      | _ => firstn chunkSize ids :: chunkLoop f (skipn chunkSize ids)
      end
  end.

(** The chunks [offset, min(total, offset + 900)) of [applyDeletes]. *)
Definition chunks (ids : list JsonValue) : list (list JsonValue) := chunkLoop (List.length ids) ids.

Definition deleteSql (table : string) (chunk : list JsonValue) : string :=
  "DELETE FROM " ++ quoteIdentifier table ++ " WHERE id IN (" ++
  concatSep "," (map (fun _ => "?") chunk) ++ ")".

Fixpoint deleteChunks (table : string) (cs : list (list JsonValue)) : M unit :=
  match cs with
  | [] => ret tt
  | chunk :: rest =>
      w <- get;;
      ok <- prepare (deleteSql table chunk) (mem "id" (tableColumns (current w) table));;
      if negb ok then raise "Failed to prepare DELETE" else
      ok <- step;;
      if negb ok then raise "Failed to execute DELETE" else
      modify (fun w => setCurrent w
                (updateTable table (deleteWhereIdIn (map bindValue chunk)) (current w))) ;;;
      deleteChunks table rest
  end.

Definition applyDeletes (table : string) (ids : list JsonValue) : M unit :=
  deleteChunks table (chunks ids).

(** [deletesByTable]; iterated in the order its tables first appear (the
    iteration order of the [unordered_map] is unspecified; deletes on
    distinct tables commute). *)
Definition Deletes : Type := list (string * list JsonValue).

Definition pushDelete (table : string) (id : JsonValue) (dels : Deletes) : Deletes :=
  assoc_set table ((match assoc table dels with Some ids => ids | None => [] end ++ [id])%list) dels.

Definition strGt (a b : string) : bool :=
  match String.compare a b with Gt => true | _ => false end.

(** The running maximum of the sequence ids. *)
Definition updateMaxSequenceId (fields : list (string * JsonValue)) (maxSequenceId : string)
    : string :=
  match extractSequenceId fields with
  | Some s => if negb (String.eqb s "") && strGt s maxSequenceId then s else maxSequenceId
  | None => maxSequenceId
  end.

Definition entryTable (fields : list (string * JsonValue)) : option string :=
  orElse (readStringField fields "table") (fun _ => readStringField fields "tableName").

Definition isDeletedEntry (fields : list (string * JsonValue)) : bool :=
  match extractDeleteFlag fields with Some b => b | None => false end.

Definition rowPayload (fields : list (string * JsonValue)) : JsonValue :=
  match findRowPayload fields with Some r => r | None => extractRowFromEntry fields end.

(** One iteration of the loop over the entries of [applySyncPayload]. *)
Definition processEntry (entry : JsonValue) (st : Deletes * string) : M (Deletes * string) :=
  match entry with
  | JObject fields =>
      let (deletesByTable, maxSequenceId) := st in
      match entryTable fields with
      | None => raise "Missing table name in row entry"
      | Some table =>
          let maxSequenceId := updateMaxSequenceId fields maxSequenceId in
          let rowPtr := rowPayload fields in
          if isDeletedEntry fields then
            match extractDeleteId fields rowPtr with
            | None => raise "Missing id for delete entry"
            | Some deleteId => ret (pushDelete table deleteId deletesByTable, maxSequenceId)
            end
          else
            match rowPtr with
            | JObject _ => applyRowObject table rowPtr ;;; ret (deletesByTable, maxSequenceId)
            | _ => raise "Invalid row payload"
            end
      end
  | _ => ret st
  end.

Fixpoint processEntries (entries : list JsonValue) (st : Deletes * string) : M (Deletes * string) :=
  match entries with
  | [] => ret st
  | entry :: rest => st' <- processEntry entry st ;; processEntries rest st'
  end.

Fixpoint applyAllDeletes (dels : Deletes) : M unit :=
  match dels with
  | [] => ret tt
  | (table, ids) :: rest => applyDeletes table ids ;;; applyAllDeletes rest
  end.

Definition LAST_SEQUENCE_ID_KEY : string := "__watermelon_last_sequence_id".

(** Everything between [BEGIN IMMEDIATE] and [COMMIT]. *)
Definition applyBody (entries : list JsonValue) : M unit :=
  st <- processEntries entries ([], "");;
  let (deletesByTable, maxSequenceId) := st in
  applyAllDeletes deletesByTable ;;;
  (if String.eqb maxSequenceId "" then ret tt
   else setLocalStorage LAST_SEQUENCE_ID_KEY maxSequenceId).

(** [execSql(db, "ROLLBACK", errorMessage)] after an error [msg]: a failed
    rollback overwrites the message. *)
Definition rollbackWith (msg : string) (w : World) : option string * World :=
  match execSql "ROLLBACK" w with
  | (inl m, w') => (Some m, w')
  | (inr _, w') => (Some msg, w')
  end.

(** [applySyncPayload]: [None] when it returns true, [Some errorMessage]
    when it returns false. *)
Definition applySyncPayload (dbIsNull : bool) (payload : ParseResult) (w : World)
    : option string * World :=
  if dbIsNull then (Some "SQLite db is null", w) else
  match payload with
  | ParseFailed msg => (Some (if String.eqb msg "" then "Failed to parse JSON" else msg), w)
  | Parsed (JArray entries) =>
      match execSql "BEGIN IMMEDIATE" w with
      | (inl msg, w1) => (Some msg, w1)
      | (inr _, w1) =>
          match applyBody entries w1 with
          | (inl msg, w2) => rollbackWith msg w2
          | (inr _, w2) =>
              match execSql "COMMIT" w2 with
              | (inl msg, w3) => (Some msg, w3)
              | (inr _, w3) => (None, w3)
              end
          end
      end
  | Parsed _ => (Some "Invalid JSON root", w)
  end.

(** *** The outcome of a successful apply, as the specification states it

    The rows of the upsert entries are written in array order, then the
    delete entries of each table are applied, then the watermark is set
    to the greatest non-empty sequence id seen, if any.  A row is written
    with all its keys. *)




Definition tableRows (d : Db) (name : string) : list (list (string * SqlValue)) :=
  match assoc name d with Some tb => trows tb | None => [] end.

(** A database with a table [t (id, name)] and [local_storage]. *)
Definition sampleDb : Db :=
  [("t", mkTable ["id"; "name"] "id" []);
   ("local_storage", mkTable ["key"; "value"] "key" [])].

Definition sampleWorld : World := mkWorld sampleDb None 1 [] [] [] [].


(** An upsert of row [x] of [t] with a [name]. *)
Definition upsertName : ParseResult :=
  Parsed (JArray [JObject [("table", JString "t"); ("id", JString "x"); ("name", JString "a")]]).

(** [sampleWorld] where the second step of each [PRAGMA table_info] loop
    fails. *)
Definition partialReadWorld : World :=
  mkWorld sampleDb None 1 [] [] [] [RowRead; RowStepFails; RowRead; RowStepFails].

(** A table [t (id)] whose column set is cached for the current schema
    version, and an upsert whose row has a key [extra] that is not a column. *)
Definition idOnlyDb : Db :=
  [("t", mkTable ["id"] "id" []); ("local_storage", mkTable ["key"; "value"] "key" [])].

Definition idOnlyWorld : World := mkWorld idOnlyDb None 1 [("t", (1%Z, ["id"]))] [] [] [].

Definition unknownColumnRow : JsonValue :=
  JObject [("id", JString "1"); ("extra", JString "x")].

Definition unknownColumnPayload : ParseResult :=
  Parsed (JArray [JObject [("table", JString "t"); ("row", unknownColumnRow)]]).

End SyncApply.

(* ------------------------------------------------------------------ *)
(** ** Sync engine *)
(* ------------------------------------------------------------------ *)

(** [SyncEngine] of src/native/shared/SyncEngine.cpp.  Every public
    method runs as one step on an explicit engine state and returns the
    effects it has, in order: the events given to the event callback, the
    invocations of completion callbacks, the HTTP requests, the calls of
    the apply, push and auth-token-request callbacks and the retry timers.
    The asynchronous continuations (the HTTP response handler, the push
    completion and the retry timer) are steps of their own, which the
    environment may run at any time with any sync id.

    A completion callback is named by a number (the [Completion] given to
    the [startWithCompletion] call that passed it); [std::move] of a
    [std::function] leaves it empty, as libstdc++ and libc++ do.  The
    request id, the request headers and the timeout of a request are not
    modelled: none of them changes the control flow.  The class declaration
    that goes with SyncEngine.cpp is not in the repository; the initial
    values of the fields follow SyncEngine.h and the defaults of
    [configure]. *)

Module Sync.

Import SyncApply.
Local Open Scope Z_scope.
Local Open Scope string_scope.

(** *** URLs and cursors *)

(** [isUnreservedUrlChar]: [std::isalnum] in the C locale, or [-_.~]. *)
Definition isUnreservedUrlChar (c : ascii) : bool :=
  let n := nat_of_ascii c in
  ((48 <=? n)%nat && (n <=? 57)%nat) || ((65 <=? n)%nat && (n <=? 90)%nat)
  || ((97 <=? n)%nat && (n <=? 122)%nat)
  || (n =? 45)%nat || (n =? 95)%nat || (n =? 46)%nat || (n =? 126)%nat.

(** An upper-case hexadecimal digit ([std::hex << std::uppercase]). *)
Definition hexDigit (n : nat) : ascii :=
  ascii_of_nat (if (n <? 10)%nat then 48 + n else 55 + n)%nat.

Fixpoint urlEncode (value : string) : string :=
  match value with
  | EmptyString => EmptyString
  | String c rest =>
      if isUnreservedUrlChar c then String c (urlEncode rest)
      else String "%" (String (hexDigit (nat_of_ascii c / 16))
                         (String (hexDigit (nat_of_ascii c mod 16)) (urlEncode rest)))
  end.

(** [baseUrl.find('?')]: the text before the first [?] and, if there is
    one, the text after it. *)
Fixpoint splitQuery (url : string) : string * option string :=
  match url with
  | EmptyString => (EmptyString, None)
  | String c rest =>
      if Ascii.eqb c "?" then (EmptyString, Some rest)
      else let (b, q) := splitQuery rest in (String c b, q)
  end.

(** The parts of [query] between the [&] separators, as the [find('&')]
    loop of [buildUrlWithCursor] cuts them (empty parts included). *)
Fixpoint splitOn (sep : ascii) (s : string) : list string :=
  match s with
  | EmptyString => [EmptyString]
  | String c rest =>
      if Ascii.eqb c sep then EmptyString :: splitOn sep rest
      else match splitOn sep rest with
           | p :: ps => String c p :: ps
           | [] => [String c EmptyString]
           end
  end.

(** The body of the loop over the parts: the rebuilt parts, and whether
    a [cursor=] part was replaced. *)
Fixpoint rebuildParts (encodedCursor : string) (ps : list string) : list string * bool :=
  match ps with
  | [] => ([], false)
  | part :: rest =>
      let (parts, replaced) := rebuildParts encodedCursor rest in
      if part =? "" then (parts, replaced)
      else if String.prefix "cursor=" part then (("cursor=" ++ encodedCursor) :: parts, true)
      else (part :: parts, replaced)
  end.

Definition buildUrlWithCursor (baseUrl cursor : string) (encoded : bool) : string :=
  let encodedCursor := if encoded then cursor else urlEncode cursor in
  let (base, q) := splitQuery baseUrl in
  let query := match q with Some q => q | None => "" end in
  let (parts0, replaced) := rebuildParts encodedCursor (splitOn "&" query) in
  let parts := if replaced then parts0 else app parts0 ["cursor=" ++ encodedCursor] in
  match parts with
  | [] => base
  | _ => base ++ "?" ++ concatSep "&" parts
  end.

(** [appendJsonValue]: simdjson iterates the members of an object in
    document order, duplicates included.  A number is written with
    [std::to_string] of the parsed [int64_t], [uint64_t] or [double],
    which is the text [JNumber] holds (see [JsonValue]). *)
Fixpoint appendJsonValue (v : JsonValue) : string :=
  match v with
  | JObject fields =>
      let members := fix members (fs : list (string * JsonValue)) : list string :=
        match fs with
        | [] => []
        | (k, x) :: rest => (dq ++ escapeJsonString k ++ dq ++ ":" ++ appendJsonValue x) :: members rest
        end in
      "{" ++ concatSep "," (members fields) ++ "}"
  | JArray items => "[" ++ concatSep "," (map appendJsonValue items) ++ "]"
  | JString s => dq ++ escapeJsonString s ++ dq
  | JNumber n => n
  | JBool b => if b then "true" else "false"
  | JNull => "null"
  end.

(** [extractNextCursor] on the response body as simdjson parses it
    ([None]: not valid JSON): [Some (value, encoded)] when it returns
    true.  [obj["next"]] finds the first member named [next]. *)
Definition extractNextCursor (body : option JsonValue) : option (string * bool) :=
  match body with
  | Some (JObject fields) =>
      match assoc "next" fields with
      | None => None
      | Some JNull => None
      | Some (JString s) => if s =? "" then None else Some (s, true)
      | Some v => let json := appendJsonValue v in if json =? "" then None else Some (json, false)
      end
  | _ => None
  end.

(** [std::to_string] of an [int]. *)
Fixpoint digitsOf (fuel : nat) (n : Z) (acc : string) : string :=
  match fuel with
  | O => acc
  | S f =>
      let acc := String (ascii_of_nat (48 + Z.to_nat (n mod 10))) acc in
      if (n / 10 =? 0)%Z then acc else digitsOf f (n / 10) acc
  end.

Definition zToString (z : Z) : string :=
  if (z <? 0)%Z then "-" ++ digitsOf 20 (- z) "" else digitsOf 20 z "".

(** Whether a character occurs in a string. *)
Fixpoint hasChar (c : ascii) (s : string) : bool :=
  match s with
  | EmptyString => false
  | String x rest => Ascii.eqb x c || hasChar c rest
  end.




(** *** The engine *)

Local Open Scope list_scope.

Inductive SyncState :=
  | Idle | Configured | SyncRequested | Syncing | RetryScheduled | AuthRequired
  | AuthFailed | ErrorState | Done.

Definition isAuthRequired (s : SyncState) : bool :=
  match s with AuthRequired => true | _ => false end.

(** The events given to the event callback (their JSON text is not
    modelled). *)
Inductive Event :=
  | EvConfigured                          (* the state text {state: configured} *)
  | EvState (s : SyncState)               (* type state *)
  | EvSyncQueued (reason : string)
  | EvSyncStart (reason : string)
  | EvError (message : string)
  | EvAuthRequired
  | EvAuthFailed (message : string)
  | EvPhasePull (attempt : Z)
  | EvPhasePush
  | EvSyncRetry (attempt : Z)
  | EvHttp (status : Z)
  | EvRetryScheduled (attempt delayMs : Z) (message : string)
  | EvSyncCancelled.

Definition Completion := nat.

Inductive Effect :=
  | Emit (ev : Event)
  | Complete (c : Completion) (ok : bool) (message : string)
  | HttpGet (syncId : Z) (url : string)
  | Apply (body : string)
  | Push (syncId : Z)
  | AuthRequest
  | Timer (syncId : Z) (delayMs : Z).

(** [platform::HttpResponse]; [bodyJson] is the body as simdjson parses it
    (see [JsonValue]: members in document order, duplicates included, and
    each number as the [std::to_string] text of its parsed value). *)
Record HttpResponse := mkResponse {
  statusCode : Z;
  body : string;
  bodyJson : option JsonValue;
  errorMessage : string }.

(** The fields of the engine that the code reads or writes. *)
Record Engine := mkEngine {
  isShutdown : bool;
  hasEventCallback : bool;
  hasApplyCallback : bool;
  hasAuthTokenRequestCallback : bool;
  hasPushChangesCallback : bool;
  pullEndpointUrl : string;
  socketioUrl : string;
  currentPullUrl : string;
  authToken : string;
  timeoutMs : Z;
  maxRetries : Z;
  maxAuthRetries : Z;
  retryInitialMs : Z;
  retryMaxMs : Z;
  syncInFlight : bool;
  retryScheduled : bool;
  authRequestInFlight : bool;
  retryCount : Z;
  authRetryCount : Z;
  syncId : Z;
  pendingReason : string;
  currentReason : string;
  state : SyncState;
  completionCallback : option Completion;
  pendingCompletionCallback : option Completion }.

Definition set_isShutdown (v : bool) (e : Engine) : Engine :=
  mkEngine
    v (hasEventCallback e) (hasApplyCallback e) (hasAuthTokenRequestCallback e)
    (hasPushChangesCallback e) (pullEndpointUrl e) (socketioUrl e) (currentPullUrl e)
    (authToken e) (timeoutMs e) (maxRetries e) (maxAuthRetries e) (retryInitialMs e)
    (retryMaxMs e) (syncInFlight e) (retryScheduled e) (authRequestInFlight e)
    (retryCount e) (authRetryCount e) (syncId e) (pendingReason e) (currentReason e)
    (state e) (completionCallback e) (pendingCompletionCallback e).
Definition set_hasEventCallback (v : bool) (e : Engine) : Engine :=
  mkEngine
    (isShutdown e) v (hasApplyCallback e) (hasAuthTokenRequestCallback e)
    (hasPushChangesCallback e) (pullEndpointUrl e) (socketioUrl e) (currentPullUrl e)
    (authToken e) (timeoutMs e) (maxRetries e) (maxAuthRetries e) (retryInitialMs e)
    (retryMaxMs e) (syncInFlight e) (retryScheduled e) (authRequestInFlight e)
    (retryCount e) (authRetryCount e) (syncId e) (pendingReason e) (currentReason e)
    (state e) (completionCallback e) (pendingCompletionCallback e).
Definition set_hasApplyCallback (v : bool) (e : Engine) : Engine :=
  mkEngine
    (isShutdown e) (hasEventCallback e) v (hasAuthTokenRequestCallback e)
    (hasPushChangesCallback e) (pullEndpointUrl e) (socketioUrl e) (currentPullUrl e)
    (authToken e) (timeoutMs e) (maxRetries e) (maxAuthRetries e) (retryInitialMs e)
    (retryMaxMs e) (syncInFlight e) (retryScheduled e) (authRequestInFlight e)
    (retryCount e) (authRetryCount e) (syncId e) (pendingReason e) (currentReason e)
    (state e) (completionCallback e) (pendingCompletionCallback e).
Definition set_hasAuthTokenRequestCallback (v : bool) (e : Engine) : Engine :=
  mkEngine
    (isShutdown e) (hasEventCallback e) (hasApplyCallback e) v (hasPushChangesCallback e)
    (pullEndpointUrl e) (socketioUrl e) (currentPullUrl e) (authToken e) (timeoutMs e)
    (maxRetries e) (maxAuthRetries e) (retryInitialMs e) (retryMaxMs e) (syncInFlight e)
    (retryScheduled e) (authRequestInFlight e) (retryCount e) (authRetryCount e)
    (syncId e) (pendingReason e) (currentReason e) (state e) (completionCallback e)
    (pendingCompletionCallback e).
Definition set_hasPushChangesCallback (v : bool) (e : Engine) : Engine :=
  mkEngine
    (isShutdown e) (hasEventCallback e) (hasApplyCallback e)
    (hasAuthTokenRequestCallback e) v (pullEndpointUrl e) (socketioUrl e)
    (currentPullUrl e) (authToken e) (timeoutMs e) (maxRetries e) (maxAuthRetries e)
    (retryInitialMs e) (retryMaxMs e) (syncInFlight e) (retryScheduled e)
    (authRequestInFlight e) (retryCount e) (authRetryCount e) (syncId e) (pendingReason e)
    (currentReason e) (state e) (completionCallback e) (pendingCompletionCallback e).
Definition set_pullEndpointUrl (v : string) (e : Engine) : Engine :=
  mkEngine
    (isShutdown e) (hasEventCallback e) (hasApplyCallback e)
    (hasAuthTokenRequestCallback e) (hasPushChangesCallback e) v (socketioUrl e)
    (currentPullUrl e) (authToken e) (timeoutMs e) (maxRetries e) (maxAuthRetries e)
    (retryInitialMs e) (retryMaxMs e) (syncInFlight e) (retryScheduled e)
    (authRequestInFlight e) (retryCount e) (authRetryCount e) (syncId e) (pendingReason e)
    (currentReason e) (state e) (completionCallback e) (pendingCompletionCallback e).
Definition set_socketioUrl (v : string) (e : Engine) : Engine :=
  mkEngine
    (isShutdown e) (hasEventCallback e) (hasApplyCallback e)
    (hasAuthTokenRequestCallback e) (hasPushChangesCallback e) (pullEndpointUrl e) v
    (currentPullUrl e) (authToken e) (timeoutMs e) (maxRetries e) (maxAuthRetries e)
    (retryInitialMs e) (retryMaxMs e) (syncInFlight e) (retryScheduled e)
    (authRequestInFlight e) (retryCount e) (authRetryCount e) (syncId e) (pendingReason e)
    (currentReason e) (state e) (completionCallback e) (pendingCompletionCallback e).
Definition set_currentPullUrl (v : string) (e : Engine) : Engine :=
  mkEngine
    (isShutdown e) (hasEventCallback e) (hasApplyCallback e)
    (hasAuthTokenRequestCallback e) (hasPushChangesCallback e) (pullEndpointUrl e)
    (socketioUrl e) v (authToken e) (timeoutMs e) (maxRetries e) (maxAuthRetries e)
    (retryInitialMs e) (retryMaxMs e) (syncInFlight e) (retryScheduled e)
    (authRequestInFlight e) (retryCount e) (authRetryCount e) (syncId e) (pendingReason e)
    (currentReason e) (state e) (completionCallback e) (pendingCompletionCallback e).
Definition set_authToken (v : string) (e : Engine) : Engine :=
  mkEngine
    (isShutdown e) (hasEventCallback e) (hasApplyCallback e)
    (hasAuthTokenRequestCallback e) (hasPushChangesCallback e) (pullEndpointUrl e)
    (socketioUrl e) (currentPullUrl e) v (timeoutMs e) (maxRetries e) (maxAuthRetries e)
    (retryInitialMs e) (retryMaxMs e) (syncInFlight e) (retryScheduled e)
    (authRequestInFlight e) (retryCount e) (authRetryCount e) (syncId e) (pendingReason e)
    (currentReason e) (state e) (completionCallback e) (pendingCompletionCallback e).
Definition set_timeoutMs (v : Z) (e : Engine) : Engine :=
  mkEngine
    (isShutdown e) (hasEventCallback e) (hasApplyCallback e)
    (hasAuthTokenRequestCallback e) (hasPushChangesCallback e) (pullEndpointUrl e)
    (socketioUrl e) (currentPullUrl e) (authToken e) v (maxRetries e) (maxAuthRetries e)
    (retryInitialMs e) (retryMaxMs e) (syncInFlight e) (retryScheduled e)
    (authRequestInFlight e) (retryCount e) (authRetryCount e) (syncId e) (pendingReason e)
    (currentReason e) (state e) (completionCallback e) (pendingCompletionCallback e).
Definition set_maxRetries (v : Z) (e : Engine) : Engine :=
  mkEngine
    (isShutdown e) (hasEventCallback e) (hasApplyCallback e)
    (hasAuthTokenRequestCallback e) (hasPushChangesCallback e) (pullEndpointUrl e)
    (socketioUrl e) (currentPullUrl e) (authToken e) (timeoutMs e) v (maxAuthRetries e)
    (retryInitialMs e) (retryMaxMs e) (syncInFlight e) (retryScheduled e)
    (authRequestInFlight e) (retryCount e) (authRetryCount e) (syncId e) (pendingReason e)
    (currentReason e) (state e) (completionCallback e) (pendingCompletionCallback e).
Definition set_maxAuthRetries (v : Z) (e : Engine) : Engine :=
  mkEngine
    (isShutdown e) (hasEventCallback e) (hasApplyCallback e)
    (hasAuthTokenRequestCallback e) (hasPushChangesCallback e) (pullEndpointUrl e)
    (socketioUrl e) (currentPullUrl e) (authToken e) (timeoutMs e) (maxRetries e) v
    (retryInitialMs e) (retryMaxMs e) (syncInFlight e) (retryScheduled e)
    (authRequestInFlight e) (retryCount e) (authRetryCount e) (syncId e) (pendingReason e)
    (currentReason e) (state e) (completionCallback e) (pendingCompletionCallback e).
Definition set_retryInitialMs (v : Z) (e : Engine) : Engine :=
  mkEngine
    (isShutdown e) (hasEventCallback e) (hasApplyCallback e)
    (hasAuthTokenRequestCallback e) (hasPushChangesCallback e) (pullEndpointUrl e)
    (socketioUrl e) (currentPullUrl e) (authToken e) (timeoutMs e) (maxRetries e)
    (maxAuthRetries e) v (retryMaxMs e) (syncInFlight e) (retryScheduled e)
    (authRequestInFlight e) (retryCount e) (authRetryCount e) (syncId e) (pendingReason e)
    (currentReason e) (state e) (completionCallback e) (pendingCompletionCallback e).
Definition set_retryMaxMs (v : Z) (e : Engine) : Engine :=
  mkEngine
    (isShutdown e) (hasEventCallback e) (hasApplyCallback e)
    (hasAuthTokenRequestCallback e) (hasPushChangesCallback e) (pullEndpointUrl e)
    (socketioUrl e) (currentPullUrl e) (authToken e) (timeoutMs e) (maxRetries e)
    (maxAuthRetries e) (retryInitialMs e) v (syncInFlight e) (retryScheduled e)
    (authRequestInFlight e) (retryCount e) (authRetryCount e) (syncId e) (pendingReason e)
    (currentReason e) (state e) (completionCallback e) (pendingCompletionCallback e).
Definition set_syncInFlight (v : bool) (e : Engine) : Engine :=
  mkEngine
    (isShutdown e) (hasEventCallback e) (hasApplyCallback e)
    (hasAuthTokenRequestCallback e) (hasPushChangesCallback e) (pullEndpointUrl e)
    (socketioUrl e) (currentPullUrl e) (authToken e) (timeoutMs e) (maxRetries e)
    (maxAuthRetries e) (retryInitialMs e) (retryMaxMs e) v (retryScheduled e)
    (authRequestInFlight e) (retryCount e) (authRetryCount e) (syncId e) (pendingReason e)
    (currentReason e) (state e) (completionCallback e) (pendingCompletionCallback e).
Definition set_retryScheduled (v : bool) (e : Engine) : Engine :=
  mkEngine
    (isShutdown e) (hasEventCallback e) (hasApplyCallback e)
    (hasAuthTokenRequestCallback e) (hasPushChangesCallback e) (pullEndpointUrl e)
    (socketioUrl e) (currentPullUrl e) (authToken e) (timeoutMs e) (maxRetries e)
    (maxAuthRetries e) (retryInitialMs e) (retryMaxMs e) (syncInFlight e) v
    (authRequestInFlight e) (retryCount e) (authRetryCount e) (syncId e) (pendingReason e)
    (currentReason e) (state e) (completionCallback e) (pendingCompletionCallback e).
Definition set_authRequestInFlight (v : bool) (e : Engine) : Engine :=
  mkEngine
    (isShutdown e) (hasEventCallback e) (hasApplyCallback e)
    (hasAuthTokenRequestCallback e) (hasPushChangesCallback e) (pullEndpointUrl e)
    (socketioUrl e) (currentPullUrl e) (authToken e) (timeoutMs e) (maxRetries e)
    (maxAuthRetries e) (retryInitialMs e) (retryMaxMs e) (syncInFlight e)
    (retryScheduled e) v (retryCount e) (authRetryCount e) (syncId e) (pendingReason e)
    (currentReason e) (state e) (completionCallback e) (pendingCompletionCallback e).
Definition set_retryCount (v : Z) (e : Engine) : Engine :=
  mkEngine
    (isShutdown e) (hasEventCallback e) (hasApplyCallback e)
    (hasAuthTokenRequestCallback e) (hasPushChangesCallback e) (pullEndpointUrl e)
    (socketioUrl e) (currentPullUrl e) (authToken e) (timeoutMs e) (maxRetries e)
    (maxAuthRetries e) (retryInitialMs e) (retryMaxMs e) (syncInFlight e)
    (retryScheduled e) (authRequestInFlight e) v (authRetryCount e) (syncId e)
    (pendingReason e) (currentReason e) (state e) (completionCallback e)
    (pendingCompletionCallback e).
Definition set_authRetryCount (v : Z) (e : Engine) : Engine :=
  mkEngine
    (isShutdown e) (hasEventCallback e) (hasApplyCallback e)
    (hasAuthTokenRequestCallback e) (hasPushChangesCallback e) (pullEndpointUrl e)
    (socketioUrl e) (currentPullUrl e) (authToken e) (timeoutMs e) (maxRetries e)
    (maxAuthRetries e) (retryInitialMs e) (retryMaxMs e) (syncInFlight e)
    (retryScheduled e) (authRequestInFlight e) (retryCount e) v (syncId e)
    (pendingReason e) (currentReason e) (state e) (completionCallback e)
    (pendingCompletionCallback e).
Definition set_syncId (v : Z) (e : Engine) : Engine :=
  mkEngine
    (isShutdown e) (hasEventCallback e) (hasApplyCallback e)
    (hasAuthTokenRequestCallback e) (hasPushChangesCallback e) (pullEndpointUrl e)
    (socketioUrl e) (currentPullUrl e) (authToken e) (timeoutMs e) (maxRetries e)
    (maxAuthRetries e) (retryInitialMs e) (retryMaxMs e) (syncInFlight e)
    (retryScheduled e) (authRequestInFlight e) (retryCount e) (authRetryCount e) v
    (pendingReason e) (currentReason e) (state e) (completionCallback e)
    (pendingCompletionCallback e).
Definition set_pendingReason (v : string) (e : Engine) : Engine :=
  mkEngine
    (isShutdown e) (hasEventCallback e) (hasApplyCallback e)
    (hasAuthTokenRequestCallback e) (hasPushChangesCallback e) (pullEndpointUrl e)
    (socketioUrl e) (currentPullUrl e) (authToken e) (timeoutMs e) (maxRetries e)
    (maxAuthRetries e) (retryInitialMs e) (retryMaxMs e) (syncInFlight e)
    (retryScheduled e) (authRequestInFlight e) (retryCount e) (authRetryCount e)
    (syncId e) v (currentReason e) (state e) (completionCallback e)
    (pendingCompletionCallback e).
Definition set_currentReason (v : string) (e : Engine) : Engine :=
  mkEngine
    (isShutdown e) (hasEventCallback e) (hasApplyCallback e)
    (hasAuthTokenRequestCallback e) (hasPushChangesCallback e) (pullEndpointUrl e)
    (socketioUrl e) (currentPullUrl e) (authToken e) (timeoutMs e) (maxRetries e)
    (maxAuthRetries e) (retryInitialMs e) (retryMaxMs e) (syncInFlight e)
    (retryScheduled e) (authRequestInFlight e) (retryCount e) (authRetryCount e)
    (syncId e) (pendingReason e) v (state e) (completionCallback e)
    (pendingCompletionCallback e).
Definition set_state (v : SyncState) (e : Engine) : Engine :=
  mkEngine
    (isShutdown e) (hasEventCallback e) (hasApplyCallback e)
    (hasAuthTokenRequestCallback e) (hasPushChangesCallback e) (pullEndpointUrl e)
    (socketioUrl e) (currentPullUrl e) (authToken e) (timeoutMs e) (maxRetries e)
    (maxAuthRetries e) (retryInitialMs e) (retryMaxMs e) (syncInFlight e)
    (retryScheduled e) (authRequestInFlight e) (retryCount e) (authRetryCount e)
    (syncId e) (pendingReason e) (currentReason e) v (completionCallback e)
    (pendingCompletionCallback e).
Definition set_completionCallback (v : option Completion) (e : Engine) : Engine :=
  mkEngine
    (isShutdown e) (hasEventCallback e) (hasApplyCallback e)
    (hasAuthTokenRequestCallback e) (hasPushChangesCallback e) (pullEndpointUrl e)
    (socketioUrl e) (currentPullUrl e) (authToken e) (timeoutMs e) (maxRetries e)
    (maxAuthRetries e) (retryInitialMs e) (retryMaxMs e) (syncInFlight e)
    (retryScheduled e) (authRequestInFlight e) (retryCount e) (authRetryCount e)
    (syncId e) (pendingReason e) (currentReason e) (state e) v
    (pendingCompletionCallback e).
Definition set_pendingCompletionCallback (v : option Completion) (e : Engine) : Engine :=
  mkEngine
    (isShutdown e) (hasEventCallback e) (hasApplyCallback e)
    (hasAuthTokenRequestCallback e) (hasPushChangesCallback e) (pullEndpointUrl e)
    (socketioUrl e) (currentPullUrl e) (authToken e) (timeoutMs e) (maxRetries e)
    (maxAuthRetries e) (retryInitialMs e) (retryMaxMs e) (syncInFlight e)
    (retryScheduled e) (authRequestInFlight e) (retryCount e) (authRetryCount e)
    (syncId e) (pendingReason e) (currentReason e) (state e) (completionCallback e) v.

(** The engine as constructed: no callback, state [idle]. *)
Definition initialEngine : Engine :=
  mkEngine false false false false false "" "" "" "" 30000 3 3 1000 30000
    false false false 0 0 0 "" "" Idle None None.

Definition emitLocked (e : Engine) (ev : Event) : list Effect :=
  if hasEventCallback e then [Emit ev] else [].

(** [if (completion) completion(ok, message)]. *)
Definition invoke (c : option Completion) (ok : bool) (message : string) : list Effect :=
  match c with Some c => [Complete c ok message] | None => [] end.

Definition shouldRetryLocked (statusCode : Z) (e : Engine) : bool :=
  if (maxRetries e <=? retryCount e)%Z then false
  else if (statusCode =? 0)%Z then true
  else if (statusCode =? 408)%Z || (statusCode =? 429)%Z then true
  else if (500 <=? statusCode)%Z && (statusCode <=? 599)%Z then true
  else false.

(** Two's-complement reading of the low 64 and 32 bits. *)
Definition toInt64 (z : Z) : Z := ((z + 2 ^ 63) mod 2 ^ 64 - 2 ^ 63)%Z.

Definition toInt32 (z : Z) : Z := ((z + 2 ^ 31) mod 2 ^ 32 - 2 ^ 31)%Z.

(** [computeBackoffMsLocked]:
    [int64_t delay = static_cast<int64_t>(retryInitialMs_) << (retryCount_ - 1)]
    keeps the low 64 bits of the product (two's complement), the clamp
    compares that [int64_t] with [retryMaxMs_], and [static_cast<int>]
    keeps the low 32 bits. A shift count of 64 or more is undefined in C++;
    the count is taken modulo 64, as the x86-64 and AArch64 shift
    instructions do. *)
Definition computeBackoffMsLocked (e : Engine) : Z :=
  if (retryCount e <=? 0)%Z then retryInitialMs e
  else
    let delay := toInt64 (Z.shiftl (retryInitialMs e) ((retryCount e - 1) mod 64)) in
    let delay := if (retryMaxMs e <? delay)%Z then retryMaxMs e else delay in
    toInt32 delay.

(** [scheduleRetryLocked]: whether a retry was scheduled. *)
Definition scheduleRetryLocked (sid statusCode : Z) (message : string) (e : Engine)
    : bool * Engine * list Effect :=
  if isShutdown e then (false, e, []) else
  if negb (shouldRetryLocked statusCode e) || retryScheduled e then (false, e, []) else
  let e := set_retryCount (retryCount e + 1) e in
  let delayMs := computeBackoffMsLocked e in
  let e := set_retryScheduled true e in
  let out := emitLocked e (EvRetryScheduled (retryCount e + 1) delayMs message) in
  let e := set_state RetryScheduled e in
  (true, e, out ++ emitLocked e (EvState RetryScheduled) ++ [Timer sid delayMs]).

(** The assignments that end a run: state [s], not in flight, no retry
    scheduled, [retryCount] reset (all but one of the blocks reset it),
    [currentPullUrl] cleared, both completion slots moved out, no pending
    reason. *)
Definition endRunLocked (s : SyncState) (resetRetryCount : bool) (e : Engine) : Engine :=
  let e := set_state s e in
  let e := set_syncInFlight false e in
  let e := set_retryScheduled false e in
  let e := if resetRetryCount then set_retryCount 0 e else e in
  let e := set_currentPullUrl "" e in
  let e := set_completionCallback None e in
  let e := set_pendingCompletionCallback None e in
  set_pendingReason "" e.

Definition authFailedEvents (e : Engine) : list Effect :=
  emitLocked e (EvAuthFailed "Max auth retries exceeded") ++
  emitLocked e (EvError "Max auth retries exceeded") ++
  emitLocked e (EvState AuthFailed).

Definition authRequiredEvents (e : Engine) : list Effect :=
  emitLocked e EvAuthRequired ++ emitLocked e (EvState AuthRequired).

(** The [auth_required] block: the engine, and whether the auth-token
    request callback is to be called. *)
Definition authRequiredLocked (e : Engine) : Engine * bool :=
  let e := set_state AuthRequired e in
  let e := set_syncInFlight false e in
  let e := set_retryScheduled false e in
  let e := set_retryCount 0 e in
  if authRequestInFlight e then (e, false)
  else
    let e' := set_authRetryCount (authRetryCount e + 1) (set_authRequestInFlight true e) in
    (e', hasAuthTokenRequestCallback e).

Definition dispatchRequest (sid : Z) (isRetry : bool) (e : Engine) : Engine * list Effect :=
  if isShutdown e then (e, []) else
  if negb (sid =? syncId e)%Z then (e, []) else
  let url := if currentPullUrl e =? "" then pullEndpointUrl e else currentPullUrl e in
  let attempt := retryCount e + 1 in
  let '(e, out, missing, completion, pendingCompletion) :=
    if url =? "" then
      (endRunLocked ErrorState false e,
       emitLocked e (EvError "Missing sync pullEndpointUrl") ++ emitLocked e (EvState ErrorState),
       true, completionCallback e, pendingCompletionCallback e)
    else (e, [], false, None, None) in
  let '(e, out, missing, completion, pendingCompletion, completionError, shouldRequestAuth,
        authRequest) :=
    if negb missing && (authToken e =? "") && hasAuthTokenRequestCallback e then
      if (maxAuthRetries e <=? authRetryCount e)%Z then
        (endRunLocked AuthFailed true e, out ++ authFailedEvents e, true,
         completionCallback e, pendingCompletionCallback e, "Max auth retries exceeded",
         false, false)
      else
        let (e', authRequest) := authRequiredLocked e in
        (e', out ++ authRequiredEvents e, missing, completion, pendingCompletion, "",
         true, authRequest)
    else (e, out, missing, completion, pendingCompletion, "", false, false) in
  let '(e, out) :=
    if negb shouldRequestAuth then
      (set_state Syncing e,
       out ++ emitLocked e (EvState Syncing) ++ emitLocked e (EvPhasePull attempt) ++
       (if isRetry then emitLocked e (EvSyncRetry attempt) else []))
    else (e, out) in
  if missing then
    let errorMsg := if completionError =? "" then "Missing sync pullEndpointUrl" else completionError in
    (e, out ++ invoke completion false errorMsg ++ invoke pendingCompletion false errorMsg)
  else if shouldRequestAuth then (e, out ++ (if authRequest then [AuthRequest] else []))
  else (e, out ++ [HttpGet sid url]).

Definition startWithCompletion (reason : string) (completion : option Completion) (e : Engine)
    : Engine * list Effect :=
  if isShutdown e then (e, []) else
  if syncInFlight e then
    let e' := set_pendingCompletionCallback completion (set_pendingReason reason e) in
    (e', emitLocked e (EvSyncQueued reason))
  else
    let resumeFromAuth := isAuthRequired (state e) && negb (currentPullUrl e =? "") in
    let e1 := set_syncInFlight true e in
    let e1 := set_retryScheduled false e1 in
    let e1 := set_retryCount 0 e1 in
    let e1 := set_authRetryCount 0 e1 in
    let e1 := set_currentReason reason e1 in
    let e1 := match completion with
              | Some c => set_completionCallback (Some c) e1
              | None => e1
              end in
    let e1 := if resumeFromAuth then e1 else set_currentPullUrl (pullEndpointUrl e1) e1 in
    let e1 := set_state SyncRequested e1 in
    let out := emitLocked e (EvState SyncRequested) ++ emitLocked e (EvSyncStart reason) in
    let e1 := set_syncId (syncId e1 + 1) e1 in
    let (e2, out2) := dispatchRequest (syncId e1) false e1 in
    (e2, out ++ out2).

Definition start (reason : string) (e : Engine) : Engine * list Effect :=
  startWithCompletion reason None e.

(** The end of a pull page without a next cursor: the push phase, or the
    [done] block.  [pushCb] is the push callback copied before the apply. *)
Definition finishPull (sid : Z) (pushCb : bool) (e : Engine) (out : list Effect)
    : Engine * list Effect :=
  if pushCb then
    if isShutdown e || negb (sid =? syncId e)%Z then (e, out)
    else (e, out ++ emitLocked e EvPhasePush ++ [Push sid])
  else
    if isShutdown e then (e, out) else
    if negb (sid =? syncId e)%Z then (e, out) else
    let pendingReason0 := pendingReason e in
    let completionFinal := completionCallback e in
    let pendingCompletionFinal := pendingCompletionCallback e in
    let e1 := endRunLocked Done true e in
    let out := out ++ emitLocked e (EvState Done) ++ invoke completionFinal true "" in
    if pendingReason0 =? "" then (e1, out)
    else let (e2, out2) := startWithCompletion pendingReason0 pendingCompletionFinal e1 in
         (e2, out ++ out2).

Definition httpErrorMessage (statusCode : Z) : string := ("HTTP " ++ zToString statusCode)%string.

(** [handleHttpResponse], with the result of the apply callback
    ([applyResult]: what it returns and the error message it writes). *)
Definition handleHttpResponse (sid : Z) (r : HttpResponse) (applyResult : bool * string)
    (e : Engine) : Engine * list Effect :=
  if isShutdown e then (e, []) else
  if negb (sid =? syncId e)%Z then (e, []) else
  let status := statusCode r in
  let step1 :=
    if negb (errorMessage r =? "") then
      let '(scheduled, e', out') := scheduleRetryLocked sid status (errorMessage r) e in
      if scheduled then inl (e', out') else
      inr (endRunLocked ErrorState true e,
           emitLocked e (EvError (errorMessage r)) ++ emitLocked e (EvState ErrorState),
           completionCallback e, pendingCompletionCallback e, true, errorMessage r)
    else inr (e, [], None, None, false, "") in
  match step1 with
  | inl result => result
  | inr (e, out, completion, pendingCompletion, shouldReturn, completionError) =>
  let step2 :=
    if (status =? 401)%Z || (status =? 403)%Z then
      if (maxAuthRetries e <=? authRetryCount e)%Z then
        inr (endRunLocked AuthFailed true e, out ++ authFailedEvents e,
             completionCallback e, pendingCompletionCallback e, true, false,
             "Max auth retries exceeded", false)
      else
        let (e', authRequest) := authRequiredLocked e in
        inr (e', out ++ authRequiredEvents e, completion, pendingCompletion, true, true,
             completionError, authRequest)
    else if (400 <=? status)%Z then
      let '(scheduled, e', out') := scheduleRetryLocked sid status (httpErrorMessage status) e in
      if scheduled then inl (e', out ++ out') else
      inr (endRunLocked ErrorState true e,
           out ++ emitLocked e (EvError (httpErrorMessage status)) ++ emitLocked e (EvState ErrorState),
           completionCallback e, pendingCompletionCallback e, true, false,
           httpErrorMessage status, false)
    else
      inr (e, out ++ emitLocked e (EvHttp status), completion, pendingCompletion, shouldReturn,
           false, completionError, false) in
  match step2 with
  | inl result => result
  | inr (e, out, completion, pendingCompletion, shouldReturn, authRequired, completionError,
         authRequest) =>
  if shouldReturn then
    if authRequired then (e, out ++ (if authRequest then [AuthRequest] else []))
    else (e, out ++ invoke completion false completionError ++
             invoke pendingCompletion false completionError)
  else
  let out := out ++ (if authRequest then [AuthRequest] else []) in
  if isShutdown e || negb (sid =? syncId e)%Z then (e, out) else
  let applyCb := hasApplyCallback e in
  let pushCb := hasPushChangesCallback e in
  let (applyOk, applyError) := applyResult in
  let out := out ++ (if applyCb then [Apply (body r)] else []) in
  if applyCb && negb applyOk then
    (endRunLocked ErrorState true e,
     out ++ emitLocked e (EvError applyError) ++ emitLocked e (EvState ErrorState) ++
     invoke (completionCallback e) false applyError ++
     invoke (pendingCompletionCallback e) false applyError)
  else
  match extractNextCursor (bodyJson r) with
  | Some (cursor, encoded) =>
      if isShutdown e || negb (sid =? syncId e)%Z then (e, out) else
      let baseUrl := if currentPullUrl e =? "" then pullEndpointUrl e else currentPullUrl e in
      let e := set_currentPullUrl (buildUrlWithCursor baseUrl cursor encoded) e in
      let nextUrl := currentPullUrl e in
      let e := set_retryCount 0 (set_retryScheduled false e) in
      if negb (nextUrl =? "") then
        let (e', out') := dispatchRequest sid false e in (e', out ++ out')
      else finishPull sid pushCb e out
  | None => finishPull sid pushCb e out
  end
  end
  end.

(** The completion given to the push callback. *)
Definition pushDone (sid : Z) (success : bool) (errorMessage : string) (e : Engine)
    : Engine * list Effect :=
  if isShutdown e || negb (sid =? syncId e)%Z then (e, []) else
  if negb success then
    (endRunLocked ErrorState true e,
     emitLocked e (EvError errorMessage) ++ emitLocked e (EvState ErrorState) ++
     invoke (completionCallback e) false errorMessage ++
     invoke (pendingCompletionCallback e) false errorMessage)
  else
    let pendingReason0 := pendingReason e in
    let completionToCall := completionCallback e in
    let pendingCompletion := pendingCompletionCallback e in
    let e1 := endRunLocked Done true e in
    let out := emitLocked e (EvState Done) ++ invoke completionToCall true "" in
    if pendingReason0 =? "" then (e1, out)
    else let (e2, out2) := startWithCompletion pendingReason0 pendingCompletion e1 in
         (e2, out ++ out2).

Definition retry (sid : Z) (e : Engine) : Engine * list Effect :=
  if isShutdown e then (e, []) else
  if negb (sid =? syncId e)%Z || negb (syncInFlight e) then (e, []) else
  dispatchRequest sid true (set_retryScheduled false e).

Definition setAuthToken (token : string) (e : Engine) : Engine * list Effect :=
  if isShutdown e then (e, []) else
  let e := set_authToken token e in
  let e := set_authRequestInFlight false e in
  let e := set_authRetryCount 0 e in
  if negb (syncInFlight e) && isAuthRequired (state e) then
    let completion := completionCallback e in
    startWithCompletion "auth_token_updated" completion (set_completionCallback None e)
  else (e, []).

Definition clearAuthToken (e : Engine) : Engine * list Effect :=
  if isShutdown e then (e, []) else
  (set_authRequestInFlight false (set_authToken "" e), []).

Definition requestAuthToken (e : Engine) : Engine * list Effect :=
  if isShutdown e || authRequestInFlight e then (e, []) else
  (set_authRequestInFlight true e, if hasAuthTokenRequestCallback e then [AuthRequest] else []).

(** [configure], with the values [getJsonStringValue] and
    [getJsonIntValue] read from the configuration (defaults included). *)
Definition configure (pullUrl socketUrl : string)
    (timeout retries authRetries initialMs maxMs : Z) (e : Engine) : Engine * list Effect :=
  if isShutdown e then (e, []) else
  let e := set_pullEndpointUrl pullUrl e in
  let e := set_socketioUrl socketUrl e in
  let e := set_timeoutMs timeout e in
  let e := set_maxRetries (Z.max 0 retries) e in
  let e := set_maxAuthRetries (Z.max 0 authRetries) e in
  let e := set_retryInitialMs (Z.max 0 initialMs) e in
  let e := set_retryMaxMs (Z.max (retryInitialMs e) maxMs) e in
  let e := set_state Configured e in
  (e, emitLocked e EvConfigured).

Definition shutdown (e : Engine) : Engine * list Effect :=
  let e := set_isShutdown true e in
  let e := set_hasEventCallback false e in
  let e := set_hasApplyCallback false e in
  let e := set_syncInFlight false e in
  let e := set_retryScheduled false e in
  let e := set_retryCount 0 e in
  let e := set_pendingReason "" e in
  let e := set_currentReason "" e in
  let e := set_currentPullUrl "" e in
  let e := set_state Idle e in
  (set_syncId (syncId e + 1) e, []).

(** The steps: the public methods and the asynchronous continuations. *)
Inductive Op :=
  | OpSetEventCallback (set : bool)
  | OpSetApplyCallback (set : bool)
  | OpSetAuthTokenRequestCallback (set : bool)
  | OpSetPushChangesCallback (set : bool)
  | OpConfigure (pullUrl socketUrl : string) (timeout retries authRetries initialMs maxMs : Z)
  | OpSetPullEndpointUrl (url : string)
  | OpSetAuthToken (token : string)
  | OpClearAuthToken
  | OpRequestAuthToken
  | OpStart (reason : string) (completion : option Completion)
  | OpShutdown
  | OpHttpResponse (sid : Z) (response : HttpResponse) (applyResult : bool * string)
  | OpPushDone (sid : Z) (success : bool) (message : string)
  | OpRetry (sid : Z).

Definition unlessShutdown (f : Engine -> Engine) (e : Engine) : Engine * list Effect :=
  if isShutdown e then (e, []) else (f e, []).

Definition step (e : Engine) (op : Op) : Engine * list Effect :=
  match op with
  | OpSetEventCallback b => unlessShutdown (set_hasEventCallback b) e
  | OpSetApplyCallback b => unlessShutdown (set_hasApplyCallback b) e
  | OpSetAuthTokenRequestCallback b => unlessShutdown (set_hasAuthTokenRequestCallback b) e
  | OpSetPushChangesCallback b => unlessShutdown (set_hasPushChangesCallback b) e
  | OpConfigure p s t r a i m => configure p s t r a i m e
  | OpSetPullEndpointUrl url => unlessShutdown (set_pullEndpointUrl url) e
  | OpSetAuthToken token => setAuthToken token e
  | OpClearAuthToken => clearAuthToken e
  | OpRequestAuthToken => requestAuthToken e
  | OpStart reason completion => startWithCompletion reason completion e
  | OpShutdown => shutdown e
  | OpHttpResponse sid r a => handleHttpResponse sid r a e
  | OpPushDone sid ok msg => pushDone sid ok msg e
  | OpRetry sid => retry sid e
  end.

Fixpoint run (e : Engine) (ops : list Op) : Engine * list Effect :=
  match ops with
  | [] => (e, [])
  | op :: rest =>
      let (e1, out1) := step e op in
      let (e2, out2) := run e1 rest in
      (e2, out1 ++ out2)
  end.

(** *** Completions *)

(** The completions an engine holds. *)
Definition slots (e : Engine) : list Completion :=
  match completionCallback e with Some c => [c] | None => [] end ++
  match pendingCompletionCallback e with Some c => [c] | None => [] end.

(** The completions a step is given. *)
Definition opCompletions (op : Op) : list Completion :=
  match op with OpStart _ (Some c) => [c] | _ => [] end.

Definition startedCompletions (ops : list Op) : list Completion := flat_map opCompletions ops.

(** The completions invoked by a list of effects, in order. *)
Definition invoked (out : list Effect) : list Completion :=
  flat_map (fun ef => match ef with Complete c _ _ => [c] | _ => [] end) out.

Definition optList (c : option Completion) : list Completion :=
  match c with Some c => [c] | None => [] end.

(** A step from [e] to [r] that uses each completion at most once: the
    completions it invokes and those the new engine holds are distinct,
    and all of them were held by [e] or given to the step ([extra]). *)
Definition Fine (e : Engine) (extra : list Completion) (r : Engine * list Effect) : Prop :=
  NoDup (invoked (snd r) ++ slots (fst r)) /\
  incl (invoked (snd r) ++ slots (fst r)) (slots e ++ extra).

Definition Safe (f : Engine -> Engine * list Effect) (extra : list Completion) : Prop :=
  forall e, NoDup (slots e ++ extra) -> Fine e extra (f e).

(** *** [cancelSync] *)

(** Modelled from the spec: whether anything is pending or in flight for
    [cancelSync]: a sync in flight, a retry scheduled, a wait for an auth
    token, a stored completion or a pending start. *)
Definition cancelActive (e : Engine) : bool :=
  syncInFlight e || retryScheduled e || isAuthRequired (state e)
  || match completionCallback e with Some _ => true | None => false end
  || match pendingCompletionCallback e with Some _ => true | None => false end
  || negb (pendingReason e =? "").

(** Modelled from the spec: [cancelSync] is called by the tests but not
    defined in src/.  When anything is pending or in flight, the sync id is
    incremented, each stored completion is invoked with
    [cancelled_for_foreground], the state becomes [idle] and
    [sync_cancelled] is emitted.  Otherwise (idle) nothing happens, as on a
    shut-down engine. *)
Definition cancelSync (e : Engine) : Engine * list Effect :=
  if isShutdown e || negb (cancelActive e) then (e, []) else
  let completion := completionCallback e in
  let pendingCompletion := pendingCompletionCallback e in
  let e1 := set_syncId (syncId e + 1) (endRunLocked Idle true e) in
  (e1, invoke completion false "cancelled_for_foreground" ++
       invoke pendingCompletion false "cancelled_for_foreground" ++
       emitLocked e EvSyncCancelled).

(** The effects [cancelSync] may produce: completions invoked with
    [cancelled_for_foreground] and the [sync_cancelled] event. *)
Definition Pending (ef : Effect) : Prop :=
  match ef with
  | Complete _ ok msg => ok = false /\ msg = "cancelled_for_foreground"
  | Emit ev => ev = EvSyncCancelled
  | _ => False
  end.

(** *** Scenarios *)

(** An engine configured with a pull URL, an auth token, an event and an
    apply callback, and no push callback. *)
Definition readyEngine : Engine :=
  fst (run initialEngine
         [OpSetEventCallback true; OpSetApplyCallback true;
          OpConfigure "https://example.com/pull?limit=50" "" 30000 3 3 1000 30000;
          OpSetAuthToken "token"]).

Definition okResponse (json : option JsonValue) (text : string) : HttpResponse :=
  mkResponse 200 text json "".

Definition emptyPage : HttpResponse := okResponse (Some (JObject [])) "{}".

(** Three starts with completions 1, 2 and 3 while the first sync is in
    flight, then two empty pages. *)
Definition pendingReplacedOps : list Op :=
  [OpStart "a" (Some 1%nat); OpStart "b" (Some 2%nat); OpStart "c" (Some 3%nat);
   OpHttpResponse 1 emptyPage (true, ""); OpHttpResponse 2 emptyPage (true, "")].

(** A start with completion 1, a shutdown while its sync is in flight,
    then a start with completion 2. *)
Definition shutdownOps : list Op :=
  [OpStart "a" (Some 1%nat); OpShutdown; OpStart "after_shutdown" (Some 2%nat)].

(** A sync whose first three pulls answer 503 and are retried. *)
Definition r503 : HttpResponse := mkResponse 503 "" None "".

Definition r503err : HttpResponse := mkResponse 503 "" None "upstream timeout".

Definition retryExhaustedOps : list Op :=
  [OpStart "a" (Some 1%nat); OpHttpResponse 1 r503 (true, ""); OpRetry 1;
   OpHttpResponse 1 r503 (true, ""); OpRetry 1; OpHttpResponse 1 r503 (true, ""); OpRetry 1].

Definition timers (out : list Effect) : list (Z * Z) :=
  flat_map (fun ef => match ef with Timer sid d => [(sid, d)] | _ => [] end) out.


Definition pagedEngine : Engine := fst (run readyEngine [OpStart "a" None]).



End Sync.

(* ------------------------------------------------------------------ *)
(** * Reference readers and writers

    The properties below are stated with small readers and writers of
    the formats the code produces or consumes: an LEB128 writer for the
    slice decoder, token readers for SQL identifiers and JSON strings,
    a percent-decoder for URLs.  They are not part of the program. *)
(* ------------------------------------------------------------------ *)

Module SliceFormats.

Import SliceDecoder.
Local Open Scope Z_scope.

Fixpoint varintBytes_fuel (fuel : nat) (v : Z) : list Z :=
  match fuel with
  | O => []
  | S f => if v <? 128 then [v] else Z.lor (v mod 128) 128 :: varintBytes_fuel f (v / 128)
  end.

Definition varintBytes (v : Z) : list Z := varintBytes_fuel 10 v.

Definition stringBytes (s : list Z) : list Z :=
  varintBytes (Z.of_nat (List.length s)) ++ s.

End SliceFormats.

Module ApplyFormats.

Import SyncApply.
Local Open Scope string_scope.

(** How SQLite reads a double-quoted identifier: [""] inside stands for
    one quote, a lone quote ends it.  The result is the identifier and the
    text after it. *)
Fixpoint identBody (s : string) : option (string * string) :=
  match s with
  | EmptyString => None
  | String c rest =>
      if Ascii.eqb c (ascii_of_nat 34) then
        match rest with
        | String c2 rest2 =>
            if Ascii.eqb c2 (ascii_of_nat 34)
            then option_map (fun p => (String c (fst p), snd p)) (identBody rest2)
            else Some (EmptyString, rest)
        | EmptyString => Some (EmptyString, EmptyString)
        end
      else option_map (fun p => (String c (fst p), snd p)) (identBody rest)
  end.

Definition sqlIdentToken (s : string) : option (string * string) :=
  match s with
  | String c rest => if Ascii.eqb c (ascii_of_nat 34) then identBody rest else None
  | EmptyString => None
  end.

Definition startsWithQuote (s : string) : bool :=
  match s with String c _ => Ascii.eqb c (ascii_of_nat 34) | EmptyString => false end.

(** The character a JSON escape [\e] stands for ([\u] escapes are not
    read). *)
Definition jsonUnescape (e : ascii) : option ascii :=
  let n := nat_of_ascii e in
  if (n =? 34)%nat then Some e
  else if (n =? 92)%nat then Some e
  else if (n =? 47)%nat then Some e
  else if (n =? 98)%nat then Some (ascii_of_nat 8)
  else if (n =? 102)%nat then Some (ascii_of_nat 12)
  else if (n =? 110)%nat then Some (ascii_of_nat 10)
  else if (n =? 114)%nat then Some (ascii_of_nat 13)
  else if (n =? 116)%nat then Some (ascii_of_nat 9)
  else None.

Definition consFst (c : ascii) (r : option (string * string)) : option (string * string) :=
  option_map (fun p => (String c (fst p), snd p)) r.

(** A JSON reader for the rest of a string token, after its opening
    quote: the decoded text and the text after the closing quote; [None]
    on an unknown escape, a raw control character or a missing closing
    quote. *)
Fixpoint jsonStringBody (s : string) : option (string * string) :=
  match s with
  | EmptyString => None
  | String c rest =>
      let n := nat_of_ascii c in
      if (n =? 34)%nat then Some (EmptyString, rest)
      else if (n =? 92)%nat then
        match rest with
        | String e rest' =>
            match jsonUnescape e with
            | Some u => consFst u (jsonStringBody rest')
            | None => None
            end
        | EmptyString => None
        end
      else if (n <? 32)%nat then None
      else consFst c (jsonStringBody rest)
  end.

Definition jsonStringToken (s : string) : option (string * string) :=
  match s with
  | String c rest => if (nat_of_ascii c =? 34)%nat then jsonStringBody rest else None
  | EmptyString => None
  end.

(** A control character that [escapeJsonString] leaves as it is. *)
Definition rawControl (c : ascii) : bool :=
  let n := nat_of_ascii c in (n <? 32)%nat && negb ((n =? 9)%nat || (n =? 10)%nat || (n =? 13)%nat).

Definition escChar (c : ascii) : string :=
  if Ascii.eqb c (ascii_of_nat 34) then "\" ++ dq
  else if Ascii.eqb c (ascii_of_nat 92) then "\\"
  else if Ascii.eqb c (ascii_of_nat 10) then "\n"
  else if Ascii.eqb c (ascii_of_nat 13) then "\r"
  else if Ascii.eqb c (ascii_of_nat 9) then "\t"
  else String c EmptyString.

(** Reading back what [escapeJsonString] writes for one character. *)
Definition escCharReads (c : ascii) : bool :=
  match escChar c with
  | String x EmptyString =>
      Ascii.eqb x c && negb (nat_of_ascii x =? 34)%nat && negb (nat_of_ascii x =? 92)%nat
      && Bool.eqb (nat_of_ascii x <? 32)%nat (rawControl c)
  | String b (String x EmptyString) =>
      (nat_of_ascii b =? 92)%nat && negb (rawControl c)
      && match jsonUnescape x with Some u => Ascii.eqb u c | None => false end
  | _ => false
  end.

Definition noRawControl (s : string) : bool := forallb (fun c => negb (rawControl c)) (list_ascii_of_string s).

Definition isDigit (c : ascii) : bool :=
  match digitValue c with Some _ => true | None => false end.

Definition allDigits (s : string) : bool := forallb isDigit (list_ascii_of_string s).

(** The value of a string of decimal digits read after [a]. *)
Fixpoint digitsValue (s : string) (a : Z) : Z :=
  match s with
  | EmptyString => a
  | String c rest => digitsValue rest (a * 10 + match digitValue c with Some d => d | None => 0 end)%Z
  end.

Definition digitOk (k : nat) : bool :=
  match digitValue (ascii_of_nat (48 + k)) with
  | Some d => Z.eqb d (Z.of_nat k)
  | None => false
  end.

Definition floatChar (c : ascii) : bool :=
  Ascii.eqb c "."%char || Ascii.eqb c "e"%char || Ascii.eqb c "E"%char.

(** A decimal digit is neither white space, a sign, nor a float marker. *)
Definition digitPlain (c : ascii) : bool :=
  negb (isDigit c) ||
  (negb (isSpace c) && negb (Ascii.eqb c "-"%char) && negb (Ascii.eqb c "+"%char) && negb (floatChar c)).

Definition dbA : Db := [("t", mkTable ["id"; "a"] "id" [])].

Definition dbB : Db := [("t", mkTable ["id"; "b"] "id" [])].

Definition worldA : World := mkWorld dbA None 7 [] [] [] [].

End ApplyFormats.

Module SyncFormats.

Import SyncApply Sync.
Local Open Scope string_scope.
Local Open Scope list_scope.

Definition hexValue (c : ascii) : option nat :=
  let n := nat_of_ascii c in
  if (48 <=? n)%nat && (n <=? 57)%nat then Some (n - 48)%nat
  else if (65 <=? n)%nat && (n <=? 70)%nat then Some (n - 55)%nat
  else None.

Fixpoint percentDecode (s : string) : option string :=
  match s with
  | EmptyString => Some EmptyString
  | String c rest =>
      if Ascii.eqb c "%" then
        match rest with
        | String h1 (String h2 rest') =>
            match hexValue h1, hexValue h2, percentDecode rest' with
            | Some a, Some b, Some d => Some (String (ascii_of_nat (16 * a + b)) d)
            | _, _, _ => None
            end
        | _ => None
        end
      else option_map (String c) (percentDecode rest)
  end.

Definition urlSafe (s : string) : bool :=
  forallb (fun x => isUnreservedUrlChar x || Ascii.eqb x "%") (list_ascii_of_string s).

(** What [urlEncode] writes for one character decodes back to it. *)
Definition charRoundTrips (c : ascii) : bool :=
  let n := nat_of_ascii c in
  if isUnreservedUrlChar c then negb (Ascii.eqb c "%")
  else
    match hexValue (hexDigit (n / 16)), hexValue (hexDigit (n mod 16)) with
    | Some a, Some b => Ascii.eqb (ascii_of_nat (16 * a + b)) c
                        && isUnreservedUrlChar (hexDigit (n / 16))
                        && isUnreservedUrlChar (hexDigit (n mod 16))
    | _, _ => false
    end.

(** The retry configuration is sane and the retry count is not negative. *)
Definition RetryInv (e : Engine) : Prop :=
  (0 <= retryInitialMs e <= retryMaxMs e)%Z /\ (0 <= retryCount e)%Z.

Definition TimersWithin (lo hi : Z) (out : list Effect) : Prop :=
  forall sid d, In (Timer sid d) out -> (lo <= d <= hi)%Z.

(** The retry configuration for which the shift in
    [computeBackoffMsLocked] does not overflow: at most 32 retries and a
    maximum delay that is an [int]. *)
Definition Bounded (e : Engine) : Prop :=
  (maxRetries e <= 32)%Z /\ (retryMaxMs e < 2 ^ 31)%Z.

(** What a step other than [configure] keeps: the invariant, the retry
    configuration, a sync id that does not go back, and retry delays
    within the configured bounds. *)
Definition Pres (e x : Engine) : Prop :=
  RetryInv x /\ retryInitialMs x = retryInitialMs e /\
  retryMaxMs x = retryMaxMs e /\ maxRetries x = maxRetries e /\ (syncId e <= syncId x)%Z.

Definition KeepsE (f : Engine -> Engine * list Effect) : Prop :=
  forall e, RetryInv e -> Pres e (fst (f e)).

Definition KeepsT (f : Engine -> Engine * list Effect) : Prop :=
  forall e, RetryInv e -> Bounded e ->
  TimersWithin (retryInitialMs e) (retryMaxMs e) (snd (f e)).

Definition retryOps : list Op :=
  [OpSetEventCallback true; OpSetApplyCallback true;
   OpConfigure "https://example.com/pull?limit=50" "" 30000 3 3 1000 30000;
   OpSetAuthToken "token"; OpStart "a" None].

End SyncFormats.

(* ------------------------------------------------------------------ *)
(** ** SQLite insert helper *)
(* ------------------------------------------------------------------ *)

Module InsertHelper.

Import SliceDecoder SyncApply.
Local Open Scope string_scope.

(** [SqliteInsertHelper::buildColumnsSignature]. *)
Definition buildColumnsSignature (columns : list string) : string :=
  String.concat "," columns.

(** The key [getCachedMultiRowStatement] files a statement under. *)
Definition cacheKey (tableName columnsSignature : string) (rowsInChunk : nat) : string :=
  tableName ++ "|" ++ columnsSignature ++ "|" ++ Sync.zToString (Z.of_nat rowsInChunk).

(** The statement text built by [getCachedMultiRowStatement]: one
    [(?, ..., ?, 'synced')] group per row. *)
Definition columnNamesSql (columns : list string) : string :=
  String.concat ", " (map (fun c => dq ++ c ++ dq) columns).

Definition rowPlaceholders (columnCount : nat) : string :=
  "(" ++ String.concat ", " (repeat "?" columnCount) ++ ", 'synced')".

Definition valuesClause (columnCount rowsInChunk : nat) : string :=
  String.concat ", " (repeat (rowPlaceholders columnCount) rowsInChunk).

Definition multiRowSql (tableName : string) (columns : list string) (rowsInChunk : nat) : string :=
  "INSERT OR IGNORE INTO " ++ dq ++ tableName ++ dq ++ " (" ++ columnNamesSql columns ++
  ", " ++ dq ++ "_status" ++ dq ++ ") VALUES " ++ valuesClause (List.length columns) rowsInChunk.

(** The values bound for one row: [rowValues[colIdx]], or NULL past the
    end of the row. *)
Definition rowParams (columnCount : nat) (rowValues : list FieldValue) : list FieldValue :=
  map (fun colIdx => nth colIdx rowValues NULL_VALUE) (seq 0 columnCount).

(** [statementCache_]: a prepared statement is identified by its text. *)
Definition StatementCache := list (string * string).

(** What the database has run: each successful [sqlite3_step] with the
    values bound to the statement ([boundValue] of each parameter). *)
Definition Executed := list (string * list FieldValue).

(** The prefix of a byte string before its first NUL byte. *)
Fixpoint cString (s : list Z) : list Z :=
  match s with
  | [] => []
  | c :: rest => if (c =? 0)%Z then [] else c :: cString rest
  end.

(** The value [bindFieldValue] hands to SQLite:
    [sqlite3_bind_text(stmt, i, textValue.c_str(), -1, ...)] reads the
    text up to its first NUL byte; NULL, INTEGER, REAL and BLOB values are
    bound as they are (a BLOB's size goes through [static_cast<int>], so
    BLOBs below 2^31 bytes are meant). *)
Definition boundValue (v : FieldValue) : FieldValue :=
  match v with
  | TEXT_VALUE s => TEXT_VALUE (cString s)
  | v => v
  end.

Section Sqlite.

(** The outcome SQLite reports for [sqlite3_prepare_v2] of a text, for
    [sqlite3_bind_*] of a value at a parameter index of a statement, and
    for [sqlite3_step] of a statement with its bound values.  A failed
    step leaves the database as it was. *)
Variable prepareOk : string -> bool.
Variable bindOk : string -> nat -> FieldValue -> bool.
Variable stepOk : string -> list FieldValue -> bool.

(** [SqliteInsertHelper::getCachedMultiRowStatement]; [None] is a null
    statement (the prepare failed). *)
Definition getCachedMultiRowStatement (cache : StatementCache) (tableName : string)
    (columns : list string) (columnsSignature : string) (rowsInChunk : nat)
    (shouldCache : bool) : option string * StatementCache :=
  let key := cacheKey tableName columnsSignature rowsInChunk in
  match (if shouldCache then assoc key cache else None) with
  | Some stmt => (Some stmt, cache)
  | None =>
      let sql := multiRowSql tableName columns rowsInChunk in
      if prepareOk sql
      then (Some sql, if shouldCache then assoc_set key sql cache else cache)
      else (None, cache)
  end.

(** The binding loop of [insertRowsMulti]: stops at the first failed
    [bindFieldValue]. *)
Fixpoint bindAll (stmt : string) (paramIndex : nat) (values : list FieldValue) : bool :=
  match values with
  | [] => true
  | v :: vs => bindOk stmt paramIndex v && bindAll stmt (S paramIndex) vs
  end.

(** The [while (offset < totalRows)] loop of [insertRowsMulti]; [rest] is
    [rows] from [offset] on.  Every pass consumes at least one row, so
    [fuel = rows.size()] passes are enough. *)
Fixpoint insertChunks (fuel : nat) (cache : StatementCache) (tableName : string)
    (columns : list string) (columnsSignature : string) (maxRowsPerStmt : nat)
    (rest : list (list FieldValue)) : bool * StatementCache * Executed :=
  match fuel with
  | O => (true, cache, [])
  | S fuel' =>
      match rest with
      | [] => (true, cache, [])
      | _ :: _ =>
          let chunkSize := Nat.min maxRowsPerStmt (List.length rest) in
          let shouldCache := Nat.eqb chunkSize maxRowsPerStmt in
          match getCachedMultiRowStatement cache tableName columns columnsSignature
                  chunkSize shouldCache with
          | (None, cache') => (false, cache', [])
          | (Some stmt, cache') =>
              let params := flat_map (rowParams (List.length columns)) (firstn chunkSize rest) in
              let bound := map boundValue params in
              if bindAll stmt 1 params && stepOk stmt bound then
                let '(ok, cache'', done) :=
                  insertChunks fuel' cache' tableName columns columnsSignature
                    maxRowsPerStmt (skipn chunkSize rest) in
                (ok, cache'', (stmt, bound) :: done)
              else (false, cache', [])
          end
      end
  end.

(** [SqliteInsertHelper::insertRowsMulti].  [floor(900.0 / columnCount)]
    is the integer quotient: the division of two integers below [2^53]
    is rounded to the nearest double, which never crosses an integer. *)
Definition insertRowsMulti (cache : StatementCache) (tableName : string)
    (columns : list string) (rows : list (list FieldValue)) : bool * StatementCache * Executed :=
  match rows with
  | [] => (true, cache, [])
  | _ :: _ =>
      match columns with
      | [] => (true, cache, [])
      | _ :: _ =>
          let maxRowsPerStmt := Nat.max 1 (900 / List.length columns) in
          insertChunks (List.length rows) cache tableName columns
            (buildColumnsSignature columns) maxRowsPerStmt rows
      end
  end.

End Sqlite.

(** [BatchData]: the rows and the column list of each table. *)
Record BatchData := mkBatchData {
  tables : list (string * list (list FieldValue));
  tableColumns : list (string * list string);
  totalRows : nat }.

Definition emptyBatch : BatchData := mkBatchData [] [] 0.

(** [BatchData::addRow]: [tables[tableName]] default-constructs an empty
    row list; the column list is only recorded for a new table. *)
Definition addRow (b : BatchData) (tableName : string) (columns : list string)
    (row : list FieldValue) : BatchData :=
  let rows := match assoc tableName (tables b) with Some rs => rs | None => [] end in
  mkBatchData (assoc_set tableName (rows ++ [row])%list (tables b))
    (match assoc tableName (tableColumns b) with
     | Some _ => tableColumns b
     | None => assoc_set tableName columns (tableColumns b)
     end)
    (S (totalRows b)).

(** [std::sort] of the table names, by [std::string]'s [operator<]
    (bytes compared as unsigned). *)
Fixpoint insertSorted (s : string) (l : list string) : list string :=
  match l with
  | [] => [s]
  | x :: r => match String.compare s x with
              | Gt => x :: insertSorted s r
              | _ => s :: x :: r
              end
  end.

Definition sortNames (names : list string) : list string :=
  fold_right insertSorted [] names.

Section Batch.

Variable prepareOk : string -> bool.
Variable bindOk : string -> nat -> FieldValue -> bool.
Variable stepOk : string -> list FieldValue -> bool.

(** The table loop of [insertBatch]; [None] is the [std::out_of_range]
    thrown by [at] for a table without rows or without columns. *)
Fixpoint insertTables (b : BatchData) (names : list string) (cache : StatementCache)
    : option (bool * StatementCache * Executed) :=
  match names with
  | [] => Some (true, cache, [])
  | t :: rest =>
      match assoc t (tables b), assoc t (tableColumns b) with
      | Some rows, Some columns =>
          let '(ok, cache', done) := insertRowsMulti prepareOk bindOk stepOk cache t columns rows in
          if ok then
            option_map (fun '(ok', cache'', done') => (ok', cache'', (done ++ done')%list))
              (insertTables b rest cache')
          else Some (false, cache', done)
      | _, _ => None
      end
  end.

(** [SqliteInsertHelper::insertBatch]. *)
Definition insertBatch (cache : StatementCache) (b : BatchData)
    : option (bool * StatementCache * Executed) :=
  if Nat.eqb (totalRows b) 0 then Some (true, cache, [])
  else insertTables b (sortNames (map fst (tables b))) cache.

End Batch.

End InsertHelper.

(* ------------------------------------------------------------------ *)
(** ** Slice import engine: the batch flush *)
(* ------------------------------------------------------------------ *)

Module SliceImport.

Import SliceDecoder SyncApply InsertHelper.

(** [SAVEPOINT_INTERVAL] (rows). *)
Definition SAVEPOINT_INTERVAL : N := 10000.

(** The fields of [SliceImportEngine] that [flushBatch] reads and writes;
    [savepointCycles] counts the passes of the savepoint loop, each one a
    [releaseSavepoint] followed by a [createSavepoint] (both non-fatal). *)
Record EngineCounters := mkEngineCounters {
  currentBatch : BatchData;
  failed : bool;
  totalRowsInserted : N;
  rowsSinceSavepoint : N;
  flushCount : N;
  savepointCycles : N }.

(** The [while (rowsSinceSavepoint_ >= SAVEPOINT_INTERVAL)] loop; each
    pass lowers the counter, so [rowsSince + 1] passes are enough. *)
Fixpoint cycleSavepoints (fuel : nat) (rowsSince cycles : N) : N * N :=
  match fuel with
  | O => (rowsSince, cycles)
  | Datatypes.S fuel' =>
      if N.leb SAVEPOINT_INTERVAL rowsSince
      then cycleSavepoints fuel' (rowsSince - SAVEPOINT_INTERVAL) (N.succ cycles)
      else (rowsSince, cycles)
  end.

Section Flush.

(** The outcome of [Database::insertBatch] on a batch. *)
Variable dbInsertBatch : BatchData -> bool.

(** [SliceImportEngine::flushBatch] (the timing statistics left out). *)
Definition flushBatch (st : EngineCounters) : bool * EngineCounters :=
  if Nat.eqb (totalRows (currentBatch st)) 0 || failed st then (true, st)
  else if negb (dbInsertBatch (currentBatch st)) then (false, st)
  else
    let n := N.of_nat (totalRows (currentBatch st)) in
    let rs := (rowsSinceSavepoint st + n)%N in
    let '(rs', cyc) := cycleSavepoints (N.to_nat rs) rs (savepointCycles st) in
    (true, mkEngineCounters emptyBatch (failed st) (totalRowsInserted st + n)%N rs'
             (N.succ (flushCount st)) cyc).

End Flush.

End SliceImport.

(** Predicates and sample inputs for the insert helper and the batch. *)

Module InsertFormats.

Import SliceDecoder SyncApply InsertHelper SliceImport.
Local Open Scope string_scope.
Local Open Scope list_scope.

(** The statements filed in the cache under the keys of a table and its
    columns are the ones built for them. *)
Definition CacheFor (t : string) (cols : list string) (cache : StatementCache) : Prop :=
  forall n sql, (n <= 900)%nat ->
    assoc (cacheKey t (buildColumnsSignature cols) n) cache = Some sql -> sql = multiRowSql t cols n.

(** A run statement is the one built for [k] rows of the table, with
    [k * columnCount] bound values. *)
Definition StmtShape (t : string) (cols : list string) (maxRows : nat)
    (e : string * list FieldValue) : Prop :=
  exists k, (1 <= k <= maxRows)%nat /\ fst e = multiRowSql t cols k /\
            List.length (snd e) = (k * List.length cols)%nat.

(** A database that accepts every statement. *)
Definition sqliteAllOkPrepare : string -> bool := fun _ => true.
Definition sqliteAllOkBind : string -> nat -> FieldValue -> bool := fun _ _ _ => true.
Definition sqliteAllOkStep : string -> list FieldValue -> bool := fun _ _ => true.

Definition rowsAB : list (list FieldValue) := [[INT_VALUE 1]; [INT_VALUE 2; INT_VALUE 3; INT_VALUE 4]].

Definition emptyRows450 : list (list FieldValue) := repeat [] 450.

(** The batch after [BatchData::addRow] of each (table, columns, row) in
    turn, from an empty batch. *)
Definition buildBatch (adds : list (string * list string * list FieldValue)) : BatchData :=
  fold_left (fun b '(t, c, r) => addRow b t c r) adds emptyBatch.

(** The rows added for a table, in order. *)
Definition rowsOf (t : string) (adds : list (string * list string * list FieldValue))
    : list (list FieldValue) :=
  map (fun '(_, _, r) => r) (filter (fun '(t', _, _) => String.eqb t' t) adds).

(** The column list given with the first row added for a table. *)
Fixpoint firstCols (t : string) (adds : list (string * list string * list FieldValue))
    : option (list string) :=
  match adds with
  | [] => None
  | (t', c, _) :: rest => if String.eqb t' t then Some c else firstCols t rest
  end.

Definition nonEmpty {A} (l : list A) : option (list A) :=
  match l with [] => None | _ => Some l end.

(** The savepoint counter stays below the interval and accounts, with the
    cycles made, for every row inserted. *)
Definition SavepointInv (st : EngineCounters) : Prop :=
  (rowsSinceSavepoint st < SAVEPOINT_INTERVAL)%N /\
  totalRowsInserted st = (savepointCycles st * SAVEPOINT_INTERVAL + rowsSinceSavepoint st)%N.

Definition countersWith (rows : nat) : EngineCounters :=
  mkEngineCounters (mkBatchData [] [] rows) false 19000 9000 1 1.

Definition countersAfter : EngineCounters :=
  mkEngineCounters emptyBatch false 21500 1500 2 2.

End InsertFormats.

(* ------------------------------------------------------------------ *)
(** * Properties *)
(* ------------------------------------------------------------------ *)

(** ** Slice decoder *)

Module SliceDecoderFacts.

Import SliceDecoder.
Local Open Scope Z_scope.

Ltac split_ifs :=
  repeat match goal with
         | |- context [if ?c then _ else _] => let E := fresh "E" in destruct c eqn:E
         end.

Ltac split_ifs_in H :=
  repeat match type of H with
         | context [if ?c then _ else _] => let E := fresh "E" in destruct c eqn:E
         end.

Lemma parseColumnNames_inl (d : Decoder) (o n : nat) (acc : list (list Z)) st d' :
  parseColumnNames d o n acc = inl (st, d') ->
  (st = Error \/ st = NeedMoreData) /\ tablesParsed d' = tablesParsed d /\ expectedTables d' = expectedTables d.
Proof.
  revert o acc; induction n as [|n IH]; simpl; intros o acc H; [discriminate|].
  split_ifs_in H; try (apply IH in H; exact H);
    try (unfold truncated in H; destruct (streamEnded d));
    inversion H; subst; simpl; repeat split; auto.
Qed.

Lemma parseTableHeaderBody_counts (d : Decoder) :
  match parseTableHeaderBody d with
  | ((st, d'), _) =>
      expectedTables d' = expectedTables d /\
      (st = Ok -> tablesParsed d' = tablesParsed d + 1) /\
      (st <> Ok -> tablesParsed d' = tablesParsed d) /\
      st <> EndOfStream
  end.
Proof.
  unfold parseTableHeaderBody.
  split_ifs; try (unfold truncated; destruct (streamEnded d));
    simpl; try (repeat split; congruence).
  all: destruct (parseColumnNames _ _ _ _) as [[st d']|[o cols]] eqn:Ep;
    [apply parseColumnNames_inl in Ep as (Hst & Ht & He);
     repeat split; try congruence; destruct Hst; subst; discriminate
    | simpl; repeat split; congruence].
Qed.

Lemma parseFields_inl (d : Decoder) (cols : list (list Z)) (o : nat) row st d' :
  parseFields d cols o row = inl (st, d') ->
  st <> Ok /\ tablesParsed d' = tablesParsed d /\ expectedTables d' = expectedTables d /\
  (st = NeedMoreData -> d' = d).
Proof.
  revert o row; induction cols as [|c cols IH]; simpl; intros o row H; [discriminate|].
  split_ifs_in H; try (apply IH in H; exact H);
    try (destruct (decodeFieldValue _ _ _) in H; [|apply IH in H; exact H]);
    try (unfold truncated in H; destruct (streamEnded d));
    inversion H; subst; simpl; repeat split; try reflexivity; discriminate.
Qed.

Lemma parseRow_counts (d : Decoder) (cols : list (list Z)) :
  match parseRow d cols with
  | ((_, d'), _) => expectedTables d' = expectedTables d /\ tablesParsed d' = tablesParsed d
  end.
Proof.
  unfold parseRow.
  destruct (remainingBytes d =? 0)%nat.
  { unfold truncated; destruct (streamEnded d); split; reflexivity. }
  destruct (byte_at _ _ =? _); [split; reflexivity|].
  destruct (parseFields d cols (currentOffset d) []) as [[st d']|[o row]] eqn:Ep.
  - apply parseFields_inl in Ep as (_ & Ht & He & _); split; assumption.
  - split; reflexivity.
Qed.

(** C7 (amended).  Let the header declare [expectedTables = N > 0] and
    let at most [N] tables be parsed so far.  A [parseTableHeader] call
    returns [Ok] only while fewer than [N] tables have been parsed, and then
    counts one more table; any other result leaves the count unchanged;
    it returns [EndOfStream] only once exactly [N] tables have been parsed;
    and once [N] tables have been parsed it never returns [Ok] or [Error]:
    it returns [EndOfStream], whether or not more table data follows,
    except that with no byte left on an unfinished stream it asks for more
    data.  [parseRow] calls never change the table counters.  Hence over a
    run [Ok] is returned exactly [N] times before [EndOfStream]. *)
Theorem parseTableHeader_counts (d : Decoder)
  (Hpos : 0 < expectedTables d) (Hle : tablesParsed d <= expectedTables d) :
  match parseTableHeader d with
  | ((st, d'), _) =>
      expectedTables d' = expectedTables d /\
      (st = Ok -> tablesParsed d < expectedTables d /\ tablesParsed d' = tablesParsed d + 1) /\
      (st <> Ok -> tablesParsed d' = tablesParsed d) /\
      (st = EndOfStream -> tablesParsed d = expectedTables d) /\
      (tablesParsed d = expectedTables d ->
         st = if (remainingBytes d =? 0)%nat && negb (streamEnded d)
              then NeedMoreData else EndOfStream)
  end /\
  (forall cols, match parseRow d cols with
                | ((_, d'), _) =>
                    expectedTables d' = expectedTables d /\ tablesParsed d' = tablesParsed d
                end).
Proof.
  split; [| intro cols; apply parseRow_counts].
  unfold parseTableHeader.
  destruct (Z.ltb_spec 0 (expectedTables d)); [|lia]; simpl.
  destruct (remainingBytes d =? 0)%nat eqn:Er.
  { destruct (streamEnded d) eqn:Es; simpl;
      [destruct (Z.ltb_spec (tablesParsed d) (expectedTables d))|];
      simpl; repeat split; intros; try discriminate; try lia; try reflexivity. }
  destruct (Z.leb_spec (expectedTables d) (tablesParsed d)) as [Hge|Hlt]; simpl.
  { destruct (Z.eqb_spec (tablesParsed d) (expectedTables d)); [|lia].
    simpl; repeat split; intros; try discriminate; try lia; reflexivity. }
  assert (Hbody : forall d1, expectedTables d1 = expectedTables d ->
            tablesParsed d1 = tablesParsed d ->
            match parseTableHeaderBody d1 with
            | ((st, d'), _) =>
                expectedTables d' = expectedTables d /\
                (st = Ok -> tablesParsed d < expectedTables d /\
                            tablesParsed d' = tablesParsed d + 1) /\
                (st <> Ok -> tablesParsed d' = tablesParsed d) /\
                (st = EndOfStream -> tablesParsed d = expectedTables d) /\
                (tablesParsed d = expectedTables d ->
                   st = if false && negb (streamEnded d) then NeedMoreData else EndOfStream)
            end).
  { intros d1 He Ht. generalize (parseTableHeaderBody_counts d1).
    destruct (parseTableHeaderBody d1) as [[st d'] h].
    intros (He' & Hok & Hnok & Hend).
    split; [congruence|].
    split; [intros Hst; split; [lia | rewrite (Hok Hst); lia]|].
    split; [intros Hst; rewrite (Hnok Hst); exact Ht|].
    split; [intros Hst; contradiction | intros Heq; lia]. }
  assert (Hend : forall d1, expectedTables d1 = expectedTables d ->
            tablesParsed d1 = tablesParsed d ->
            match (afterDelimiterAtEnd d1, @None TableHeader) with
            | ((st, d'), _) =>
                expectedTables d' = expectedTables d /\
                (st = Ok -> tablesParsed d < expectedTables d /\
                            tablesParsed d' = tablesParsed d + 1) /\
                (st <> Ok -> tablesParsed d' = tablesParsed d) /\
                (st = EndOfStream -> tablesParsed d = expectedTables d) /\
                (tablesParsed d = expectedTables d ->
                   st = if false && negb (streamEnded d) then NeedMoreData else EndOfStream)
            end).
  { intros d1 He Ht. unfold afterDelimiterAtEnd; rewrite He, Ht.
    destruct (streamEnded d1); simpl;
      [destruct (Z.ltb_spec 0 (expectedTables d)); [|lia];
       destruct (Z.ltb_spec (tablesParsed d) (expectedTables d)); simpl|];
      repeat split; intros; try discriminate; try lia. }
  destruct (expectingTableHeader d); simpl.
  - destruct (byte_at _ _ =? _).
    + destruct (remainingBytes (setOffset d (S (currentOffset d))) =? 0)%nat;
        [apply Hend | apply Hbody]; reflexivity.
    + apply Hbody; reflexivity.
  - destruct (byte_at _ _ =? _); simpl.
    + destruct (remainingBytes (setOffset d (S (currentOffset d))) =? 0)%nat;
        [apply Hend | apply Hbody]; reflexivity.
    + repeat split; intros; try discriminate; lia.
Qed.

(** Witness of C7: the theorem at the decoder of [extraTableStream] right
    after the first table, where the single declared table has been parsed
    and more table data follows. *)
Lemma parseTableHeader_counts_witness :
  0 < expectedTables afterFirstTable /\
  tablesParsed afterFirstTable <= expectedTables afterFirstTable /\
  fst (fst (parseTableHeader afterFirstTable)) = EndOfStream.
Proof.
  assert (H1 : 0 < expectedTables afterFirstTable) by (vm_compute; reflexivity).
  assert (H2 : tablesParsed afterFirstTable <= expectedTables afterFirstTable)
    by (vm_compute; intro Hc; discriminate Hc).
  split; [exact H1 | split; [exact H2|]].
  generalize (parseTableHeader_counts afterFirstTable H1 H2).
  destruct (parseTableHeader afterFirstTable) as [[st d'] h].
  intros ((_ & _ & _ & _ & Heq) & _).
  assert (Hfull : tablesParsed afterFirstTable = expectedTables afterFirstTable)
    by (vm_compute; reflexivity).
  rewrite (Heq Hfull); vm_compute; reflexivity.
Defined.


(** C7 counterexample: the header of [extraTableStream] declares one table;
    once it has been parsed, more table data follows in the buffer, and
    [parseTableHeader] reports [EndOfStream], not [Error]. *)
Lemma extra_table_data_is_end_of_stream :
  expectedTables afterFirstTable = 1 /\ tablesParsed afterFirstTable = 1 /\
  (0 < remainingBytes afterFirstTable)%nat /\
  fst (fst (parseTableHeader afterFirstTable)) = EndOfStream.
Proof.
  split; [vm_compute; reflexivity|].
  split; [vm_compute; reflexivity|].
  split; [apply Nat.ltb_lt; vm_compute; reflexivity|].
  vm_compute; reflexivity.
Qed.

(** C8 (code bug).  [parseTableHeader] on a buffer that ends right after an
    end-of-table delimiter consumes the delimiter and returns
    [NeedMoreData]: the offset moves from 0 to 1.  [parseRow] on a table
    without columns returns [Ok] without advancing the offset. *)
Theorem parse_offset_needmoredata_and_ok :
  fst (fst (parseTableHeader delimiterOnlyChunk)) = NeedMoreData /\
  currentOffset delimiterOnlyChunk = 0%nat /\
  currentOffset (snd (fst (parseTableHeader delimiterOnlyChunk))) = 1%nat /\
  fst (fst (parseRow rowWithoutColumns [])) = Ok /\
  currentOffset (snd (fst (parseRow rowWithoutColumns []))) = currentOffset rowWithoutColumns.
Proof. repeat split; vm_compute; reflexivity. Qed.

(** The advanced offset changes the parse: fed whole, the second table
    header of [twoTablesPart1 ++ twoTablesPart2] is read with its 255-byte
    name; fed in the two chunks, the second chunk's first byte is skipped
    as a second delimiter and the header is rejected. *)
Lemma chunk_split_after_delimiter_changes_parse :
  let whole := parseTableHeader
                 (throughFirstTable (feedDecompressed newDecoder
                                      (twoTablesPart1 ++ twoTablesPart2) true)) in
  let first := parseTableHeader
                 (throughFirstTable (feedDecompressed newDecoder twoTablesPart1 false)) in
  let second := parseTableHeader (feedDecompressed (snd (fst first)) twoTablesPart2 true) in
  fst (fst whole) = Ok /\
  option_map (fun h => List.length (tableName h)) (snd whole) = Some 255%nat /\
  fst (fst first) = NeedMoreData /\
  fst (fst second) = Error.
Proof. vm_compute; repeat split. Qed.

End SliceDecoderFacts.

(** ** Sync apply engine *)

Module SyncApplyFacts.

Import SyncApply.
Local Open Scope string_scope.

(** Inside an open transaction a computation leaves the committed state
    alone, keeps the transaction open, and fails only with a non-empty
    message. *)
Definition BodyOp {A : Type} (m : M A) : Prop :=
  forall w, txn w <> None ->
    committed (snd (m w)) = committed w /\ txn (snd (m w)) <> None /\
    (forall msg, fst (m w) = inl msg -> msg <> "").

Lemma BodyOp_ret {A : Type} (a : A) : BodyOp (ret a).
Proof. intros w Hw; simpl; split; [reflexivity | split; [exact Hw | intros msg Hm; discriminate Hm]]. Qed.

Lemma BodyOp_raise {A : Type} (msg : string) : msg <> "" -> BodyOp (@raise A msg).
Proof. intros Hm w Hw; simpl; split; [reflexivity | split; [exact Hw | intros m H; inversion H; subst; exact Hm]]. Qed.

Lemma BodyOp_get : BodyOp get.
Proof. intros w Hw; simpl; split; [reflexivity | split; [exact Hw | intros msg Hm; discriminate Hm]]. Qed.

Lemma BodyOp_bind {A B : Type} (m : M A) (k : A -> M B) :
  BodyOp m -> (forall a, BodyOp (k a)) -> BodyOp (bind m k).
Proof.
  intros Hm Hk w Hw. unfold bind.
  specialize (Hm w Hw).
  destruct (m w) as [[msg|a] w'] eqn:E; simpl in *.
  - destruct Hm as (Hc & Ht & Hmsg).
    split; [exact Hc | split; [exact Ht | intros m' Hm'; inversion Hm'; subst; apply Hmsg; reflexivity]].
  - destruct Hm as (Hc & Ht & _).
    destruct (Hk a w' Ht) as (Hc' & Ht' & Hmsg).
    split; [congruence | split; assumption].
Qed.

Lemma sqliteCall_db (w : World) :
  committed (snd (sqliteCall w)) = committed w /\ txn (snd (sqliteCall w)) = txn w.
Proof. unfold sqliteCall; destruct (faults w); split; reflexivity. Qed.

Lemma BodyOp_prepare (sql : string) (valid : bool) : BodyOp (prepare sql valid).
Proof.
  intros w Hw; unfold prepare.
  generalize (sqliteCall_db (logSql w sql)).
  destruct (sqliteCall (logSql w sql)) as [ok w1]; simpl; intros [Hc Ht].
  split; [exact Hc | split; [congruence | intros msg Hm; discriminate Hm]].
Qed.

Lemma BodyOp_step : BodyOp step.
Proof.
  intros w Hw; unfold step.
  generalize (sqliteCall_db w).
  destruct (sqliteCall w) as [ok w1]; simpl; intros [Hc Ht].
  split; [exact Hc | split; [congruence | intros msg Hm; discriminate Hm]].
Qed.

Lemma BodyOp_modify (f : World -> World) :
  (forall w, txn w <> None -> committed (f w) = committed w /\ txn (f w) <> None) ->
  BodyOp (modify f).
Proof.
  intros Hf w Hw; simpl. destruct (Hf w Hw) as [Hc Ht].
  split; [exact Hc | split; [exact Ht | intros msg Hm; discriminate Hm]].
Qed.

Lemma setCurrent_in_txn (w : World) (d : Db) :
  txn w <> None -> committed (setCurrent w d) = committed w /\ txn (setCurrent w d) <> None.
Proof. unfold setCurrent; destruct (txn w); [simpl; split; [reflexivity | discriminate] | contradiction]. Qed.

Create HintDb bodyop.

Ltac body_op :=
  repeat (cbv beta zeta;
    match goal with
    | |- BodyOp (bind _ _) => apply BodyOp_bind; [|intro]
    | |- BodyOp (ret _) => apply BodyOp_ret
    | |- BodyOp (raise _) => apply BodyOp_raise; simpl; discriminate
    | |- BodyOp get => apply BodyOp_get
    | |- BodyOp (prepare _ _) => apply BodyOp_prepare
    | |- BodyOp step => apply BodyOp_step
    | |- BodyOp (modify _) =>
        apply BodyOp_modify; intros ? ?;
        first [ apply setCurrent_in_txn; assumption
              | simpl; split; [reflexivity | assumption] ]
    | |- BodyOp (if ?c then _ else _) => destruct c
    | |- BodyOp (match ?x with _ => _ end) => destruct x
    | |- BodyOp _ => solve [eauto with bodyop]
    end).

Lemma BodyOp_rowStep : BodyOp rowStep.
Proof.
  intros w Hw; unfold rowStep; destruct (rowReads w); cbn;
    (split; [reflexivity | split; [exact Hw | intros msg Hm; discriminate Hm]]).
Qed.
#[local] Hint Resolve BodyOp_rowStep : bodyop.

Lemma BodyOp_readTableInfo (rows : list string) : BodyOp (readTableInfo rows).
Proof. induction rows as [|c rest IH]; cbn [readTableInfo]; body_op. Qed.
#[local] Hint Resolve BodyOp_readTableInfo : bodyop.

Lemma BodyOp_loadTableColumns (table : string) (forceReload : bool) :
  BodyOp (loadTableColumns table forceReload).
Proof. unfold loadTableColumns. body_op. Qed.
#[local] Hint Resolve BodyOp_loadTableColumns : bodyop.

Lemma BodyOp_applyRowObject (table : string) (row : JsonValue) :
  BodyOp (applyRowObject table row).
Proof. unfold applyRowObject. body_op. Qed.
#[local] Hint Resolve BodyOp_applyRowObject : bodyop.

Lemma BodyOp_setLocalStorage (key value : string) : BodyOp (setLocalStorage key value).
Proof. unfold setLocalStorage. body_op. Qed.
#[local] Hint Resolve BodyOp_setLocalStorage : bodyop.

Lemma BodyOp_deleteChunks (table : string) (cs : list (list JsonValue)) :
  BodyOp (deleteChunks table cs).
Proof. induction cs as [|c cs IH]; simpl; body_op. Qed.
#[local] Hint Resolve BodyOp_deleteChunks : bodyop.

Lemma BodyOp_applyDeletes (table : string) (ids : list JsonValue) :
  BodyOp (applyDeletes table ids).
Proof. unfold applyDeletes. body_op. Qed.
#[local] Hint Resolve BodyOp_applyDeletes : bodyop.

Lemma BodyOp_processEntry (entry : JsonValue) (st : Deletes * string) :
  BodyOp (processEntry entry st).
Proof. unfold processEntry. body_op. Qed.
#[local] Hint Resolve BodyOp_processEntry : bodyop.

Lemma BodyOp_processEntries (entries : list JsonValue) (st : Deletes * string) :
  BodyOp (processEntries entries st).
Proof. revert st; induction entries as [|e es IH]; intro st; simpl; body_op. Qed.
#[local] Hint Resolve BodyOp_processEntries : bodyop.

Lemma BodyOp_applyAllDeletes (dels : Deletes) : BodyOp (applyAllDeletes dels).
Proof. induction dels as [|[t ids] dels IH]; simpl; body_op. Qed.
#[local] Hint Resolve BodyOp_applyAllDeletes : bodyop.


(** *** Weakest preconditions of successful runs *)



































Lemma chunkLoop_concat (fuel : nat) (ids : list JsonValue) :
  (List.length ids <= fuel)%nat -> List.concat (chunkLoop fuel ids) = ids.
Proof.
  revert ids; induction fuel as [|f IH]; intros ids Hl.
  - destruct ids; [reflexivity | simpl in Hl; lia].
  - destruct ids as [|x rest]; [reflexivity|].
    change (List.concat (chunkLoop (S f) (x :: rest)))
      with (firstn chunkSize (x :: rest) ++ List.concat (chunkLoop f (skipn chunkSize (x :: rest))))%list.
    rewrite IH.
    + apply firstn_skipn.
    + rewrite length_skipn; simpl length in *; unfold chunkSize; lia.
Qed.

Lemma chunks_concat (ids : list JsonValue) : List.concat (chunks ids) = ids.
Proof. apply chunkLoop_concat; lia. Qed.








(** *** The transaction statements *)







(** A failed [sqlite3_step] in the [PRAGMA table_info] loop ends it with
    the columns read so far: both loads of [t] return [id] alone, which is
    cached, the [name] key of the upsert is dropped, and the apply returns
    true with row [x] committed without its name. With every row read
    the name is committed. *)
Lemma partial_table_info_drops_column :
  fst (applySyncPayload false upsertName partialReadWorld) = None /\
  tableRows (committed (snd (applySyncPayload false upsertName partialReadWorld))) "t"
    = [[("id", SqlText "x")]] /\
  schemaCache (snd (applySyncPayload false upsertName partialReadWorld)) = [("t", (1%Z, ["id"]))] /\
  tableRows (committed (snd (applySyncPayload false upsertName sampleWorld))) "t"
    = [[("id", SqlText "x"); ("name", SqlText "a")]].
Proof. repeat split; vm_compute; reflexivity. Qed.

(** C2 (code bug): an upsert whose row has a key [extra] that is not a
    column of table [t (id)], whose column set is cached for the current
    schema version. The engine reloads the column set once (one
    [PRAGMA table_info] query), but the key is still unknown after the
    reload and no error follows: the apply returns true and commits the
    row without [extra]. *)
Theorem unknown_column_after_reload_is_dropped :
  match applySyncPayload false unknownColumnPayload idOnlyWorld with
  | (res, w') =>
      res = None /\ tableRows (committed w') "t" = [[("id", SqlText "1")]] /\
      count_occ string_dec (sqlLog w') ("PRAGMA table_info(" ++ quoteIdentifier "t" ++ ")") = 1%nat
  end.
Proof. vm_compute; split; [reflexivity | split; reflexivity]. Qed.

Lemma processEntries_skip l1 x l2 st w :
  (forall fields, x <> JObject fields) ->
  processEntries (l1 ++ x :: l2) st w = processEntries (l1 ++ l2) st w.
Proof.
  intros Hx; revert st w; induction l1 as [|e l1 IH]; intros st w; simpl.
  - unfold bind; destruct x; try reflexivity; exfalso; eapply Hx; reflexivity.
  - unfold bind; destruct (processEntry e st w) as [[m|st'] w']; [reflexivity | apply IH].
Qed.

Lemma applyBody_skip l1 x l2 w :
  (forall fields, x <> JObject fields) ->
  applyBody (l1 ++ x :: l2) w = applyBody (l1 ++ l2) w.
Proof.
  intros Hx; unfold applyBody at 1; unfold bind at 1.
  rewrite (processEntries_skip l1 x l2 _ w Hx); reflexivity.
Qed.

(** C10: an element of the entries array that is not a JSON object is
    skipped: inserting one anywhere in the array changes neither the
    result of [applySyncPayload], nor its error message, nor the world it
    leaves (the database, the transaction, the SQL run). *)
Theorem non_object_entry_skipped (l1 l2 : list JsonValue) (x : JsonValue)
    (dbIsNull : bool) (w : World) :
  (forall fields, x <> JObject fields) ->
  applySyncPayload dbIsNull (Parsed (JArray (l1 ++ x :: l2))) w =
  applySyncPayload dbIsNull (Parsed (JArray (l1 ++ l2))) w.
Proof.
  intros Hx; unfold applySyncPayload.
  destruct dbIsNull; [reflexivity|].
  destruct (execSql "BEGIN IMMEDIATE" w) as [[msg|[]] w1]; [reflexivity|].
  rewrite (applyBody_skip l1 x l2 w1 Hx); reflexivity.
Qed.

Lemma non_object_entry_skipped_witness :
  (forall fields, JNumber "7" <> JObject fields) /\
  applySyncPayload false (Parsed (JArray ([] ++ JNumber "7" :: [JObject [("table", JString "t"); ("id", JString "x"); ("name", JString "a")]]))) sampleWorld =
  applySyncPayload false (Parsed (JArray ([] ++ [JObject [("table", JString "t"); ("id", JString "x"); ("name", JString "a")]]))) sampleWorld.
Proof.
  split; [intros fields; discriminate|].
  apply (non_object_entry_skipped [] [JObject [("table", JString "t"); ("id", JString "x"); ("name", JString "a")]] (JNumber "7") false sampleWorld).
  intros fields; discriminate.
Defined.

End SyncApplyFacts.

(* ------------------------------------------------------------------ *)
(** ** Sync engine *)

Module SyncFacts.

Import SyncApply Sync.
Local Open Scope string_scope.
Local Open Scope list_scope.

(** *** Completions are invoked at most once *)

Lemma invoked_app o1 o2 : invoked (o1 ++ o2) = invoked o1 ++ invoked o2.
Proof. unfold invoked; apply flat_map_app. Qed.

Lemma NoDup_app_intro {A} (l1 l2 : list A) :
  NoDup l1 -> NoDup l2 -> (forall x, In x l1 -> In x l2 -> False) -> NoDup (l1 ++ l2).
Proof.
  induction l1 as [|a l1 IH]; intros H1 H2 Hd; cbn; auto.
  inversion_clear H1. constructor.
  - rewrite in_app_iff; intros [Hin|Hin]; [contradiction|exact (Hd a (or_introl eq_refl) Hin)].
  - apply IH; auto. intros x Hx; apply Hd; right; exact Hx.
Qed.

Lemma NoDup_app_disj {A} (l1 l2 : list A) x : NoDup (l1 ++ l2) -> In x l1 -> In x l2 -> False.
Proof.
  induction l1 as [|a l1 IH]; cbn; intros H Hx1 Hx2; [contradiction|].
  inversion_clear H. destruct Hx1 as [<-|Hx1].
  - apply H0, in_app_iff; right; exact Hx2.
  - eapply IH; eauto.
Qed.

Lemma fine_then (e : Engine) extra e1 o1 carry g :
  Safe g carry ->
  NoDup (invoked o1 ++ slots e1 ++ carry) ->
  incl (invoked o1 ++ slots e1 ++ carry) (slots e ++ extra) ->
  Fine e extra (let (e2, o2) := g e1 in (e2, o1 ++ o2)).
Proof.
  intros Hg Hn Hi.
  assert (Hn1 : NoDup (slots e1 ++ carry)) by (eapply NoDup_app_remove_l; exact Hn).
  destruct (Hg e1 Hn1) as [Hn2 Hi2].
  destruct (g e1) as [e2 o2]; cbn [fst snd] in *.
  unfold Fine; cbn [fst snd]; rewrite invoked_app, <- app_assoc; split.
  - apply NoDup_app_intro.
    + eapply NoDup_app_remove_r; exact Hn.
    + exact Hn2.
    + intros x Hx1 Hx2. apply Hi2 in Hx2. exact (NoDup_app_disj _ _ x Hn Hx1 Hx2).
  - intros x Hx. apply in_app_iff in Hx as [Hx|Hx].
    + apply Hi, in_app_iff; left; exact Hx.
    + apply Hi, in_app_iff; right; apply Hi2, Hx.
Qed.

Lemma fine_tail (e : Engine) extra e1 carry g :
  Safe g carry ->
  NoDup (slots e1 ++ carry) ->
  incl (slots e1 ++ carry) (slots e ++ extra) ->
  Fine e extra (g e1).
Proof.
  intros Hg Hn Hi; destruct (Hg e1 Hn) as [Hn2 Hi2]; split; [exact Hn2|].
  intros x Hx; apply Hi, Hi2, Hx.
Qed.

Lemma fine_noinv_r (e : Engine) extra e1 o1 o2 :
  Fine e extra (e1, o1) -> invoked o2 = [] -> Fine e extra (e1, o1 ++ o2).
Proof. unfold Fine; cbn; intros H H2; rewrite invoked_app, H2, app_nil_r; exact H. Qed.

#[local] Arguments dispatchRequest : simpl never.
#[local] Arguments startWithCompletion : simpl never.
#[local] Arguments finishPull : simpl never.
#[local] Arguments buildUrlWithCursor : simpl never.
#[local] Arguments extractNextCursor : simpl never.
#[local] Arguments httpErrorMessage : simpl never.

#[local] Arguments shouldRetryLocked : simpl never.

Ltac split_all :=
  repeat (cbn in *;
    match goal with
    | |- context [if ?c then _ else _] => destruct c
    | |- context [match ?x with Some _ => _ | None => _ end] => destruct x
    | |- context [match ?x with inl _ => _ | inr _ => _ end] => destruct x
    | |- context [match ?p with (_, _) => _ end] => destruct p
    end).

Ltac nodup_hyps :=
  repeat match goal with H : NoDup (_ :: _) |- _ => inversion_clear H end; cbn in *.

Ltac leaf :=
  cbn in *; nodup_hyps; try split;
  first [ intros x Hx; cbn in *; intuition congruence
        | repeat constructor; cbn; intuition congruence ].

Ltac destruct_engine e :=
  destruct e as [? ? ? ? ? ? ? ? ? ? ? ? ? ? ? ? ? ? ? ? ? ? ? c1 c2];
  unfold slots in *; cbn in *; destruct c1; destruct c2.

Ltac unfold_locals :=
  repeat progress unfold endRunLocked, authRequiredLocked, authRequiredEvents, authFailedEvents,
    emitLocked, invoke, scheduleRetryLocked in *.

Lemma safe_dispatch sid isRetry : Safe (dispatchRequest sid isRetry) [].
Proof.
  intros e H; unfold Fine; destruct_engine e;
  unfold dispatchRequest; unfold_locals; split_all; leaf.
Qed.

Lemma safe_start reason completion :
  Safe (startWithCompletion reason completion) (optList completion).
Proof.
  intros e H; unfold startWithCompletion.
  destruct (isShutdown e) eqn:Hs.
  { unfold Fine; destruct_engine e; destruct completion; cbn in *; leaf. }
  destruct (syncInFlight e) eqn:Hf.
  { unfold Fine; destruct_engine e; destruct completion; unfold_locals; split_all; leaf. }
  eapply fine_then; [ apply safe_dispatch | | ];
  destruct_engine e; destruct completion; unfold_locals; split_all; leaf.
Qed.

Lemma finishPull_nil sid pushCb e out :
  finishPull sid pushCb e out =
  let (e', o') := finishPull sid pushCb e [] in (e', out ++ o').
Proof.
  unfold finishPull.
  destruct pushCb, (isShutdown e), (negb (sid =? syncId e)%Z); cbn; try rewrite app_nil_r; auto.
  destruct (pendingReason e =? "")%string; auto.
  destruct (startWithCompletion _ _ _); rewrite !app_assoc; reflexivity.
Qed.

Lemma safe_finish sid pushCb : Safe (fun e => finishPull sid pushCb e []) [].
Proof.
  intros e H; unfold finishPull.
  destruct pushCb.
  { unfold Fine; destruct_engine e; unfold_locals; split_all; leaf. }
  destruct (isShutdown e) eqn:Hs.
  { unfold Fine; destruct_engine e; leaf. }
  destruct (negb (sid =? syncId e)%Z) eqn:Hi.
  { unfold Fine; destruct_engine e; leaf. }
  destruct (pendingReason e =? "")%string eqn:Hp.
  { unfold Fine; destruct_engine e; unfold_locals; split_all; leaf. }
  eapply fine_then; [ apply safe_start | | ];
  destruct_engine e; unfold_locals; split_all; leaf.
Qed.

Ltac split_fine :=
  repeat (cbn -[app] in *;
    match goal with
    | |- Fine _ _ (match dispatchRequest ?s ?b ?x with (_, _) => _ end) =>
        refine (fine_then _ _ x _ [] (dispatchRequest s b) (safe_dispatch s b) _ _)
    | |- Fine _ _ (match finishPull ?s ?p ?x [] with (_, _) => _ end) =>
        refine (fine_then _ _ x _ [] (fun e => finishPull s p e []) (safe_finish s p) _ _)
    | |- Fine _ _ (match startWithCompletion ?rs ?c ?x with (_, _) => _ end) =>
        refine (fine_then _ _ x _ (optList c) (startWithCompletion rs c) (safe_start rs c) _ _)
    | |- context [finishPull ?s ?p ?x ?o] =>
        lazymatch o with [] => fail | _ => rewrite (finishPull_nil s p x o) end
    | |- context [if ?c then _ else _] => destruct c
    | |- context [match ?x with Some _ => _ | None => _ end] => destruct x
    | |- context [match ?x with inl _ => _ | inr _ => _ end] => destruct x
    | |- context [match ?p with (_, _) => _ end] => destruct p
    end).

Lemma safe_handle sid r a : Safe (handleHttpResponse sid r a) [].
Proof.
  intros e H; destruct_engine e; unfold handleHttpResponse; unfold_locals; split_fine;
  try (unfold Fine; cbn); leaf.
Qed.

Lemma safe_pushDone sid ok msg : Safe (pushDone sid ok msg) [].
Proof.
  intros e H; destruct_engine e; unfold pushDone; unfold_locals; split_fine;
  try (unfold Fine; cbn); leaf.
Qed.

Lemma safe_retry sid : Safe (retry sid) [].
Proof.
  intros e H; unfold retry.
  destruct (isShutdown e); [ unfold Fine; destruct_engine e; leaf | ].
  destruct (negb (sid =? syncId e)%Z || negb (syncInFlight e)); [ unfold Fine; destruct_engine e; leaf | ].
  exact (safe_dispatch sid true (set_retryScheduled false e) H).
Qed.

Lemma safe_setAuthToken token : Safe (setAuthToken token) [].
Proof.
  intros e H; unfold setAuthToken.
  destruct (isShutdown e) eqn:Hs; [ unfold Fine; destruct_engine e; leaf | ].
  destruct (negb (syncInFlight (set_authRetryCount 0 (set_authRequestInFlight false (set_authToken token e))))
            && isAuthRequired (state (set_authRetryCount 0 (set_authRequestInFlight false (set_authToken token e))))).
  2: { unfold Fine; destruct_engine e; leaf. }
  refine (fine_tail _ _ _ _ _ (safe_start _ _) _ _); destruct_engine e; leaf.
Qed.

Lemma safe_step op : Safe (fun e => step e op) (opCompletions op).
Proof.
  destruct op; cbn [step opCompletions].
  all: try (intros e H; unfold Fine, unlessShutdown, configure, clearAuthToken,
            requestAuthToken, shutdown, emitLocked; destruct_engine e; split_all; leaf).
  - apply safe_setAuthToken.
  - destruct completion; apply safe_start.
  - apply safe_handle.
  - apply safe_pushDone.
  - apply safe_retry.
Qed.

Lemma NoDup_incl_app {A} (l1 l1' l2 : list A) :
  NoDup l1' -> incl l1' l1 -> NoDup (l1 ++ l2) -> NoDup (l1' ++ l2).
Proof.
  intros H1 Hi H; apply NoDup_app_intro; auto.
  - eapply NoDup_app_remove_l; exact H.
  - intros x Hx1 Hx2; apply Hi in Hx1; exact (NoDup_app_disj _ _ x H Hx1 Hx2).
Qed.

Lemma run_safe ops e :
  NoDup (slots e ++ startedCompletions ops) ->
  NoDup (invoked (snd (run e ops)) ++ slots (fst (run e ops))) /\
  incl (invoked (snd (run e ops)) ++ slots (fst (run e ops))) (slots e ++ startedCompletions ops).
Proof.
  revert e; induction ops as [|op rest IH]; intros e H.
  - cbn in *; rewrite app_nil_r in *; split; [exact H | apply incl_refl].
  - cbn [run startedCompletions flat_map] in *; fold (startedCompletions rest) in *.
    rewrite app_assoc in H.
    destruct (safe_step op e (NoDup_app_remove_r _ _ H)) as [Hn1 Hi1].
    destruct (step e op) as [e1 o1]; cbn [fst snd] in *.
    pose proof (NoDup_incl_app _ _ _ Hn1 Hi1 H) as H1.
    rewrite <- app_assoc in H1.
    destruct (IH e1 (NoDup_app_remove_l _ _ H1)) as [Hn2 Hi2].
    destruct (run e1 rest) as [e2 o2]; cbn [fst snd] in *.
    rewrite invoked_app, <- app_assoc; split.
    + apply NoDup_app_intro.
      * eapply NoDup_app_remove_r; exact Hn1.
      * exact Hn2.
      * intros x Hx1 Hx2; apply Hi2 in Hx2; exact (NoDup_app_disj _ _ x H1 Hx1 Hx2).
    + rewrite (app_assoc (slots e)); intros x Hx; apply in_app_iff in Hx as [Hx|Hx].
      * apply in_app_iff; left; apply Hi1, in_app_iff; left; exact Hx.
      * apply Hi2, in_app_iff in Hx as [Hx|Hx].
        -- apply in_app_iff; left; apply Hi1, in_app_iff; right; exact Hx.
        -- apply in_app_iff; right; exact Hx.
Qed.

(** Over any sequence of steps from an engine whose held completions and
    the completions given to the starts are distinct, no completion is
    invoked more than once. *)
Lemma at_most_once e ops :
  NoDup (slots e ++ startedCompletions ops) -> NoDup (invoked (snd (run e ops))).
Proof. intros H; exact (NoDup_app_remove_r _ _ (proj1 (run_safe ops e H))). Qed.

(** The hypothesis of [at_most_once] holds for [pendingReplacedOps]. *)
Lemma at_most_once_witness :
  NoDup (slots readyEngine ++ startedCompletions pendingReplacedOps) /\
  NoDup (invoked (snd (run readyEngine pendingReplacedOps))).
Proof.
  assert (H : NoDup (slots readyEngine ++ startedCompletions pendingReplacedOps)).
  { vm_compute; repeat constructor; cbn; intuition discriminate. }
  split; [exact H | exact (at_most_once readyEngine pendingReplacedOps H)].
Defined.

(** The completion 2 given to the second start is replaced in the
    pending slot by the third one and never invoked; the run ends with no
    completion held and no sync in flight. *)
Lemma replaced_pending_completion_never_invoked :
  In 2%nat (startedCompletions pendingReplacedOps) /\
  invoked (snd (run readyEngine pendingReplacedOps)) = [1%nat; 3%nat] /\
  slots (fst (run readyEngine pendingReplacedOps)) = [] /\
  syncInFlight (fst (run readyEngine pendingReplacedOps)) = false.
Proof. vm_compute; intuition. Qed.

Lemma run_cons_snd e op ops :
  snd (run e (op :: ops)) = snd (step e op) ++ snd (run (fst (step e op)) ops).
Proof. cbn [run]; destruct (step e op) as [e1 o1]; cbn [fst snd]; destruct (run e1 ops); reflexivity. Qed.

(** Once [shutdown] has run, every step leaves the engine shut down and
    has no effect: [startWithCompletion] returns without invoking or
    storing its completion, and a completion held at the shutdown stays
    held and is never invoked. *)
Lemma step_when_shut_down e op :
  isShutdown e = true -> isShutdown (fst (step e op)) = true /\ snd (step e op) = [].
Proof.
  intros H; destruct op; cbn [step];
    unfold unlessShutdown, configure, setAuthToken, clearAuthToken, requestAuthToken,
      startWithCompletion, handleHttpResponse, pushDone, retry;
    try rewrite H; cbn [orb]; try (split; [exact H | reflexivity]).
  split; reflexivity.
Qed.

Lemma run_after_shutdown e ops : isShutdown e = true -> snd (run e ops) = [].
Proof.
  revert e; induction ops as [|op rest IH]; intros e H; [reflexivity|].
  rewrite run_cons_snd; destruct (step_when_shut_down e op H) as [H1 H2].
  rewrite H2, (IH _ H1); reflexivity.
Qed.

(** C4: the completion of a start made after [shutdown] is never invoked,
    and neither is the completion of a sync in flight at the shutdown.
    Starting from [readyEngine], a start with completion 1, a shutdown and
    a start with completion 2 (the call of test_shutdown_calls_completion,
    which expects completion 2 to be called with false and
    "sync_engine_shutdown"), followed by any further steps, invoke no
    completion at all. *)
Theorem shutdown_drops_completions ops :
  In 1%nat (startedCompletions shutdownOps) /\
  In 2%nat (startedCompletions shutdownOps) /\
  invoked (snd (run readyEngine (shutdownOps ++ ops))) = [].
Proof.
  split; [vm_compute; tauto|]; split; [vm_compute; tauto|].
  unfold shutdownOps; cbn [app]; rewrite !run_cons_snd.
  rewrite (run_after_shutdown _ ops) by (vm_compute; reflexivity).
  vm_compute; reflexivity.
Qed.

(** *** [cancelSync] *)

Lemma handleHttpResponse_stale sid r a e :
  sid <> syncId e -> handleHttpResponse sid r a e = (e, []).
Proof.
  intros H; unfold handleHttpResponse.
  destruct (isShutdown e); [reflexivity|].
  apply Z.eqb_neq in H; rewrite H; reflexivity.
Qed.

Lemma pushDone_stale sid ok msg e :
  sid <> syncId e -> pushDone sid ok msg e = (e, []).
Proof.
  intros H; unfold pushDone.
  apply Z.eqb_neq in H; rewrite H, orb_true_r; reflexivity.
Qed.

Lemma retry_stale sid e : sid <> syncId e -> retry sid e = (e, []).
Proof.
  intros H; unfold retry.
  destruct (isShutdown e); [reflexivity|].
  apply Z.eqb_neq in H; rewrite H; reflexivity.
Qed.

(** C3 ([cancelSync] as the spec describes it): on a shut-down or idle
    engine it does nothing.  Otherwise the sync id is incremented, the state
    becomes [idle], nothing is in flight or pending, each held completion is
    invoked once with [cancelled_for_foreground], [sync_cancelled] is emitted
    (when an event callback is set) and the continuations of the cancelled
    run are ignored. *)
Lemma cancelSync_spec e :
  let (e', out) := cancelSync e in
  if isShutdown e || negb (cancelActive e) then e' = e /\ out = []
  else
    syncId e' = (syncId e + 1)%Z /\ state e' = Idle /\
    syncInFlight e' = false /\ retryScheduled e' = false /\
    slots e' = [] /\ pendingReason e' = "" /\
    invoked out = slots e /\ Forall Pending out /\
    (In (Emit EvSyncCancelled) out <-> hasEventCallback e = true) /\
    (forall r a ok msg,
       handleHttpResponse (syncId e) r a e' = (e', []) /\
       pushDone (syncId e) ok msg e' = (e', []) /\
       retry (syncId e) e' = (e', [])).
Proof.
  unfold cancelSync.
  destruct (isShutdown e || negb (cancelActive e)) eqn:H; [split; reflexivity|].
  cbv beta iota zeta.
  assert (Hne : syncId e <> (syncId e + 1)%Z) by lia.
  split; [| split; [| split; [| split; [| split; [| split; [| split; [| split; [| split]]]]]]]].
  10: { intros r a ok msg; split; [| split].
       - apply handleHttpResponse_stale; exact Hne.
       - apply pushDone_stale; exact Hne.
       - apply retry_stale; exact Hne. }
  all: destruct e as [? ? ? ? ? ? ? ? ? ? ? ? ? ? ? ? ? ? ? ? ? ? ? c1 c2];
       unfold slots, emitLocked, invoke, invoked; cbn [completionCallback pendingCompletionCallback
         hasEventCallback state syncInFlight retryScheduled pendingReason endRunLocked
         set_syncId set_state set_syncInFlight set_retryScheduled set_retryCount
         set_currentPullUrl set_completionCallback set_pendingCompletionCallback
         set_pendingReason]; auto.
  all: destruct c1, c2, hasEventCallback0; cbn; repeat constructor; intuition congruence.
Qed.

(** *** Pull responses *)

Local Open Scope string_scope.















Lemma hexDigit_not_amp n : (n < 16)%nat -> Ascii.eqb (hexDigit n) "&" = false.
Proof.
  intros H; do 16 (destruct n as [|n]; [reflexivity|]); lia.
Qed.

Lemma urlEncode_no_amp s : hasChar "&" (urlEncode s) = false.
Proof.
  induction s as [|a s IH]; [reflexivity|].
  pose proof (nat_ascii_bounded a) as Hb.
  assert (H1 : (nat_of_ascii a / 16 < 16)%nat) by (apply Nat.Div0.div_lt_upper_bound; lia).
  assert (H2 : (nat_of_ascii a mod 16 < 16)%nat) by (apply Nat.mod_upper_bound; lia).
  cbn [urlEncode].
  generalize (hexDigit_not_amp _ H1) (hexDigit_not_amp _ H2).
  generalize (hexDigit (nat_of_ascii a / 16)) (hexDigit (nat_of_ascii a mod 16)).
  intros h1 h2 E1 E2.
  destruct (isUnreservedUrlChar a) eqn:E; cbn [hasChar].
  - destruct (Ascii.eqb a "&") eqn:Ea; [|exact IH].
    apply Ascii.eqb_eq in Ea; subst; discriminate E.
  - rewrite E1, E2, IH; reflexivity.
Qed.






(** C9: a response with no transport error and a status below 400 is a
    successful pull: the [http] event with its status is emitted, then the
    body is given to the apply callback. *)
Lemma success_status_is_pulled e sid r a :
  isShutdown e = false -> sid = syncId e -> errorMessage r = "" ->
  (statusCode r < 400)%Z ->
  exists rest, snd (handleHttpResponse sid r a e) =
    (emitLocked e (EvHttp (statusCode r)) ++
     (if hasApplyCallback e then [Apply (body r)] else []) ++ rest)%list.
Proof.
  intros Hs Hsid Herr Hst.
  destruct e as [? ? ? ? ? ? ? ? ? ? ? ? ? ? ? ? ? ? ? ? ? ? ? c1 c2];
    destruct r as [status bd json err]; destruct a as [ok msg];
    cbn [isShutdown syncId errorMessage statusCode bodyJson body hasApplyCallback] in *; subst.
  assert (H401 : (status =? 401)%Z = false) by (apply Z.eqb_neq; lia).
  assert (H403 : (status =? 403)%Z = false) by (apply Z.eqb_neq; lia).
  assert (H400 : (400 <=? status)%Z = false) by (apply Z.leb_gt; lia).
  unfold handleHttpResponse.
  cbn -[extractNextCursor dispatchRequest finishPull buildUrlWithCursor].
  rewrite Z.eqb_refl, H401, H403, H400.
  cbn -[extractNextCursor dispatchRequest finishPull buildUrlWithCursor].
  rewrite ?Z.eqb_refl.
  cbn -[extractNextCursor dispatchRequest finishPull buildUrlWithCursor].
  destruct (hasApplyCallback0 && negb ok).
  { eexists; rewrite <- !app_assoc; reflexivity. }
  destruct (extractNextCursor json) as [[cursor enc]|].
  - rewrite ?Z.eqb_refl.
    cbn -[extractNextCursor dispatchRequest finishPull buildUrlWithCursor].
    destruct (negb _).
    + destruct (dispatchRequest _ _ _); eexists; cbn [snd]; rewrite <- !app_assoc; reflexivity.
    + rewrite finishPull_nil; destruct (finishPull _ _ _ []); eexists; cbn [snd];
        rewrite <- !app_assoc; reflexivity.
  - rewrite finishPull_nil; destruct (finishPull _ _ _ []); eexists; cbn [snd];
      rewrite <- !app_assoc; reflexivity.
Qed.

(** The hypotheses of [success_status_is_pulled] hold for a status 0
    response with no error message. *)
Lemma success_status_is_pulled_witness :
  exists rest,
    snd (handleHttpResponse (syncId pagedEngine) (mkResponse 0 "" None "") (true, "") pagedEngine) =
    (emitLocked pagedEngine (EvHttp 0) ++
     (if hasApplyCallback pagedEngine then [Apply ""] else []) ++ rest)%list.
Proof.
  exact (success_status_is_pulled pagedEngine (syncId pagedEngine) (mkResponse 0 "" None "") (true, "")
           ltac:(vm_compute; reflexivity) eq_refl eq_refl ltac:(vm_compute; reflexivity)).
Defined.

(** C6: three 503 responses are retried after 1000, 2000 and 4000 ms, using
    up [maxRetries] = 3.  A fourth 503 with a transport error message is not
    retried by the transport-error branch, whose error block resets
    [retryCount] to 0; the status branch then schedules one more retry
    (attempt 2, 1000 ms).  The completion taken by the error block is never
    invoked, and the engine is left in [retry_scheduled] with no sync in
    flight, so the timer's retry does nothing.  A status 0 response with no
    error message is not retried although [shouldRetryLocked] accepts it. *)
Lemma retry_after_exhausted_retries :
  let e3 := fst (run readyEngine retryExhaustedOps) in
  let (e4, out4) := step e3 (OpHttpResponse 1 r503err (true, "")) in
  timers (snd (run readyEngine retryExhaustedOps)) = [(1, 1000); (1, 2000); (1, 4000)]%Z /\
  retryCount e3 = 3%Z /\ maxRetries e3 = 3%Z /\
  out4 = [Emit (EvError "upstream timeout"); Emit (EvState ErrorState);
          Emit (EvRetryScheduled 2 1000 "HTTP 503"); Emit (EvState RetryScheduled);
          Timer 1 1000] /\
  retryScheduled e4 = true /\ syncInFlight e4 = false /\ state e4 = RetryScheduled /\
  slots e4 = [] /\ snd (step e4 (OpRetry 1)) = [] /\
  invoked (snd (run readyEngine
                  (app retryExhaustedOps [OpHttpResponse 1 r503err (true, ""); OpRetry 1]))) = [] /\
  shouldRetryLocked 0 pagedEngine = true /\
  timers (snd (step pagedEngine (OpHttpResponse 1 (mkResponse 0 "" None "") (true, "")))) = [].
Proof. vm_compute; repeat split. Qed.

End SyncFacts.


(** ** Slice decoder: varints and strings *)

Module SliceFormatFacts.

Import SliceDecoder SliceFormats.
Local Open Scope Z_scope.

Lemma lor_disjoint a b s :
  0 <= s -> 0 <= a < 2 ^ s -> 0 <= b -> Z.lor a (b * 2 ^ s) = a + b * 2 ^ s.
Proof.
  intros Hs Ha Hb.
  assert (Hd : Z.land a (b * 2 ^ s) = 0).
  { apply Z.bits_inj'. intros i Hi. rewrite Z.land_spec, Z.bits_0.
    rewrite <- Z.shiftl_mul_pow2 by lia.
    destruct (Z.lt_ge_cases i s).
    - rewrite Z.shiftl_spec_low by lia. apply andb_false_r.
    - rewrite <- (Z.mod_small a (2 ^ s)) by lia.
      rewrite Z.mod_pow2_bits_high by lia. reflexivity. }
  rewrite <- Z.lxor_lor by exact Hd. rewrite Z.add_nocarry_lxor by exact Hd. reflexivity.
Qed.

Lemma land_ones_small x k : 0 <= k -> 0 <= x < 2 ^ k -> Z.land x (Z.ones k) = x.
Proof. intros Hk Hx. rewrite Z.land_ones by lia. apply Z.mod_small; lia. Qed.

Lemma cont_byte w :
  0 <= w ->
  Z.land (Z.lor (w mod 128) 128) 127 = w mod 128 /\
  Z.land (Z.lor (w mod 128) 128) 128 <> 0.
Proof.
  intros Hw.
  assert (Hm : 0 <= w mod 128 < 128) by (apply Z.mod_pos_bound; lia).
  assert (Hb : Z.lor (w mod 128) 128 = w mod 128 + 1 * 2 ^ 7)
    by (change 128 with (1 * 2 ^ 7) at 2; apply lor_disjoint; cbn; lia).
  rewrite Hb. split.
  - change 127 with (Z.ones 7). rewrite Z.land_ones by lia.
    rewrite Z.mod_add by lia. apply Z.mod_small. cbn; lia.
  - intro H. assert (Ht := f_equal (fun z => Z.testbit z 7) H). cbn beta in Ht.
    rewrite Z.land_spec, Z.bits_0 in Ht. change (Z.testbit 128 7) with true in Ht.
    rewrite andb_true_r in Ht.
    assert (Hs := Z.testbit_spec' (w mod 128 + 1 * 2 ^ 7) 7 ltac:(lia)).
    rewrite Ht in Hs. cbn [Z.b2z] in Hs.
    rewrite Z.div_add in Hs by lia. rewrite Z.div_small in Hs by (cbn; lia).
    discriminate Hs.
Qed.

Lemma varintBytes_fuel_length f w : (List.length (varintBytes_fuel f w) <= f)%nat.
Proof.
  revert w; induction f as [|f IH]; intro w; cbn [varintBytes_fuel]; [cbn; lia|].
  destruct (w <? 128); cbn [List.length]; [lia|]. specialize (IH (w / 128)); lia.
Qed.

Lemma decodeVarint_loop_enc f : forall w k shift acc pre done post n fuel,
  List.length done = k -> (1 <= f)%nat -> 0 <= w < 128 ^ Z.of_nat f ->
  (k + List.length (varintBytes_fuel f w) <= 10)%nat ->
  (List.length (varintBytes_fuel f w) <= fuel)%nat ->
  shift = 7 * Z.of_nat k ->
  0 <= acc < 2 ^ shift -> acc + w * 2 ^ shift < 2 ^ 64 ->
  (List.length pre + k + List.length (varintBytes_fuel f w) <= n)%nat ->
  decodeVarint_loop (pre ++ done ++ varintBytes_fuel f w ++ post) n (List.length pre)
    acc shift k fuel
  = mkDecodeResult (acc + w * 2 ^ shift) (k + List.length (varintBytes_fuel f w)) true false.
Proof.
  induction f as [|f IH]; intros w k shift acc pre done post n fuel Hk Hf Hw Hlen Hfuel Hsh Hacc Hv Hn;
    [lia|].
  assert (Hsh0 : 0 <= shift) by lia.
  destruct fuel as [|fuel].
  { cbn [varintBytes_fuel] in Hfuel. destruct (w <? 128); cbn [List.length] in Hfuel; lia. }
  cbn [decodeVarint_loop].
  assert (Hbyte : forall b rest, varintBytes_fuel (S f) w = b :: rest ->
            byte_at (pre ++ done ++ varintBytes_fuel (S f) w ++ post) (List.length pre + k) = b).
  { intros b rest E. rewrite E. unfold byte_at.
    rewrite app_assoc. rewrite <- Hk, <- length_app. cbn [app]. apply nth_middle. }
  assert (E1 : (n <=? List.length pre + k)%nat = false).
  { apply Nat.leb_gt. cbn [varintBytes_fuel] in Hn. destruct (w <? 128); cbn [List.length] in Hn; lia. }
  rewrite E1.
  destruct (Z.ltb_spec w 128) as [Hlt|Hge].
  - assert (Hb := Hbyte w [] ltac:(cbn [varintBytes_fuel]; rewrite (proj2 (Z.ltb_lt w 128) Hlt); reflexivity)).
    rewrite Hb. cbn [varintBytes_fuel] in *. rewrite (proj2 (Z.ltb_lt w 128) Hlt) in *.
    cbn [List.length] in *.
    replace (10 <? S k)%nat with false by (symmetry; apply Nat.ltb_ge; lia).
    assert (Hl127 : Z.land w 127 = w) by (change 127 with (Z.ones 7); apply land_ones_small; cbn; lia).
    assert (Hl128 : Z.land w 128 = 0).
    { apply Z.bits_inj'. intros i Hi. rewrite Z.land_spec, Z.bits_0.
      destruct (Z.eq_dec i 7) as [->|Hne].
      - rewrite <- (Z.mod_small w (2 ^ 7)) by (cbn; lia).
        rewrite Z.mod_pow2_bits_high by lia. reflexivity.
      - change 128 with (2 ^ 7). rewrite Z.pow2_bits_false by (intro; apply Hne; lia). apply andb_false_r. }
    rewrite Hl127, Hl128. cbn [Z.eqb negb].
    rewrite Z.shiftl_mul_pow2 by lia. rewrite lor_disjoint by lia.
    unfold UINT64_MASK; rewrite land_ones_small by lia. f_equal; lia.
  - assert (Hb := Hbyte (Z.lor (w mod 128) 128) (varintBytes_fuel f (w / 128))
                  ltac:(cbn [varintBytes_fuel]; rewrite (proj2 (Z.ltb_ge w 128) Hge); reflexivity)).
    rewrite Hb. destruct (cont_byte w) as [C1 C2]; [lia|].
    cbn [varintBytes_fuel] in *. rewrite (proj2 (Z.ltb_ge w 128) Hge) in *.
    cbn [List.length] in *.
    replace (10 <? S k)%nat with false by (symmetry; apply Nat.ltb_ge; lia).
    rewrite C1. replace (Z.land (Z.lor (w mod 128) 128) 128 =? 0) with false
      by (symmetry; apply Z.eqb_neq; exact C2). cbn [negb].
    assert (Hm : 0 <= w mod 128 < 128) by (apply Z.mod_pos_bound; lia).
    assert (Hdiv : w = 128 * (w / 128) + w mod 128) by (apply Z.div_mod; lia).
    assert (Hp : 2 ^ (shift + 7) = 2 ^ shift * 128) by (rewrite Z.pow_add_r by lia; reflexivity).
    assert (Hwq : 0 <= w / 128) by (apply Z.div_pos; lia).
    assert (Hwm : (w mod 128) * 2 ^ shift <= w * 2 ^ shift).
    { apply Z.mul_le_mono_nonneg_r; [lia|]. lia. }
    rewrite Z.shiftl_mul_pow2 by lia. rewrite lor_disjoint by lia.
    unfold UINT64_MASK; rewrite land_ones_small by lia.
    destruct f as [|f].
    { cbn in Hw. lia. }
    replace (pre ++ done ++ (Z.lor (w mod 128) 128 :: varintBytes_fuel (S f) (w / 128)) ++ post)
      with (pre ++ (done ++ [Z.lor (w mod 128) 128]) ++ varintBytes_fuel (S f) (w / 128) ++ post)
      by (rewrite <- app_assoc; reflexivity).
    rewrite IH with (done := done ++ [Z.lor (w mod 128) 128]) (k := S k).
    + f_equal; [|lia]. rewrite Hp. nia.
    + rewrite length_app, Hk; cbn; lia.
    + lia.
    + split; [exact Hwq|]. apply Z.div_lt_upper_bound; [lia|].
      rewrite Nat2Z.inj_succ, Z.pow_succ_r in Hw by lia. lia.
    + lia.
    + lia.
    + lia.
    + rewrite Hp. split; [|nia].
      pose proof (Z.pow_pos_nonneg 2 shift ltac:(lia) Hsh0). nia.
    + rewrite Hp. nia.
    + lia.
Qed.

Lemma varintBytes_length v : (1 <= List.length (varintBytes v) <= 10)%nat.
Proof.
  split; [|apply varintBytes_fuel_length].
  unfold varintBytes; cbn [varintBytes_fuel]. destruct (v <? 128); cbn [List.length]; lia.
Qed.

Lemma decodeVarint_enc v pre post n :
  0 <= v < 2 ^ 64 -> (List.length pre + List.length (varintBytes v) <= n)%nat ->
  decodeVarint (pre ++ varintBytes v ++ post) n (List.length pre)
  = mkDecodeResult v (List.length (varintBytes v)) true false.
Proof.
  intros Hv Hn. pose proof (varintBytes_length v) as Hl.
  unfold decodeVarint.
  replace (n <=? List.length pre)%nat with false by (symmetry; apply Nat.leb_gt; lia).
  assert (E : decodeVarint_loop (pre ++ [] ++ varintBytes v ++ post) n (List.length pre) 0 (7 * Z.of_nat 0) 0 11
              = mkDecodeResult (0 + v * 2 ^ (7 * Z.of_nat 0)) (0 + List.length (varintBytes v)) true false).
  { assert (H70 : 128 ^ Z.of_nat 10 = 2 ^ 70) by reflexivity.
    apply decodeVarint_loop_enc; try reflexivity; try lia; try (rewrite H70; lia); unfold varintBytes in *; lia. }
  cbn [app Z.of_nat Z.mul] in E. rewrite E. f_equal. cbn. lia.
Qed.

(** [decodeVarint] reads back any value below [2^64] written as an
    LEB128 varint, wherever it sits in the buffer and whatever follows it;
    the varint takes between 1 and 10 bytes. *)
Theorem decodeVarint_roundtrip v pre post n :
  0 <= v < 2 ^ 64 -> (List.length pre + List.length (varintBytes v) <= n)%nat ->
  decodeVarint (pre ++ varintBytes v ++ post) n (List.length pre)
  = mkDecodeResult v (List.length (varintBytes v)) true false /\
  (1 <= List.length (varintBytes v) <= 10)%nat.
Proof.
  intros Hv Hn. split; [apply decodeVarint_enc; assumption|apply varintBytes_length].
Qed.

Lemma decodeVarint_roundtrip_witness :
  (0 <= 300 < 2 ^ 64 /\ (List.length (@nil Z) + List.length (varintBytes 300) <= 2)%nat) /\
  decodeVarint ([] ++ varintBytes 300 ++ []) 2 0 = mkDecodeResult 300 2 true false.
Proof.
  split; [split; [lia|cbn; lia]|].
  exact (proj1 (decodeVarint_roundtrip 300 [] [] 2 ltac:(lia) ltac:(cbn; lia))).
Defined.

(** [decodeString] reads back any string of at most [MAX_STRING_LENGTH]
    bytes written as a varint length followed by its bytes, and reports
    the bytes it consumed. *)
Theorem decodeString_roundtrip s pre post n :
  (Z.of_nat (List.length s) <= MAX_STRING_LENGTH) ->
  (List.length pre + List.length (stringBytes s) <= n)%nat ->
  decodeString (pre ++ stringBytes s ++ post) n (List.length pre)
  = mkStringDecodeResult s (List.length (stringBytes s)) true false.
Proof.
  intros Hs Hn. unfold stringBytes in *. rewrite length_app in Hn.
  unfold decodeString.
  rewrite <- app_assoc.
  rewrite decodeVarint_enc; [|unfold MAX_STRING_LENGTH in Hs; lia|lia].
  cbn [dr_invalid dr_success dr_value dr_bytesRead negb].
  replace (MAX_STRING_LENGTH <? Z.of_nat (List.length s)) with false
    by (symmetry; apply Z.ltb_ge; exact Hs).
  rewrite Nat2Z.id.
  replace (n <? List.length pre + List.length (varintBytes (Z.of_nat (List.length s))) + List.length s)%nat
    with false by (symmetry; apply Nat.ltb_ge; lia).
  unfold slice. rewrite length_app. f_equal.
  rewrite app_assoc, <- length_app, skipn_app, skipn_all, Nat.sub_diag. cbn [skipn app].
  rewrite firstn_app, Nat.sub_diag, firstn_all. cbn [firstn]. apply app_nil_r.
Qed.

Lemma decodeString_roundtrip_witness :
  (Z.of_nat (List.length [104; 105]) <= MAX_STRING_LENGTH /\
   (List.length [7%Z] + List.length (stringBytes [104%Z; 105%Z]) <= 4)%nat) /\
  decodeString ([7] ++ stringBytes [104; 105] ++ [0]) 4 1 = mkStringDecodeResult [104; 105] 3 true false.
Proof.
  split; [split; [unfold MAX_STRING_LENGTH; cbn; lia|cbn; lia]|].
  exact (decodeString_roundtrip [104; 105] [7] [0] 4 ltac:(unfold MAX_STRING_LENGTH; cbn; lia) ltac:(cbn; lia)).
Defined.

(** A string length above [MAX_STRING_LENGTH] makes [decodeString] report
    corrupt data as soon as the length is read, before any of the string's
    bytes have arrived. *)
Theorem decodeString_too_long len pre post n :
  MAX_STRING_LENGTH < len < 2 ^ 64 ->
  (List.length pre + List.length (varintBytes len) <= n)%nat ->
  decodeString (pre ++ varintBytes len ++ post) n (List.length pre) = mkStringDecodeResult [] 0 false true.
Proof.
  intros Hl Hn. unfold decodeString.
  rewrite decodeVarint_enc by (unfold MAX_STRING_LENGTH in Hl; lia || assumption).
  cbn [dr_invalid dr_success dr_value negb].
  replace (MAX_STRING_LENGTH <? len) with true by (symmetry; apply Z.ltb_lt; lia). reflexivity.
Qed.

Lemma decodeString_too_long_witness :
  (MAX_STRING_LENGTH < 2 ^ 20 + 1 < 2 ^ 64 /\
   (List.length (@nil Z) + List.length (varintBytes (2 ^ 20 + 1)) <= 3)%nat) /\
  decodeString ([] ++ varintBytes (2 ^ 20 + 1) ++ []) 3 0 = mkStringDecodeResult [] 0 false true.
Proof.
  split; [split; [unfold MAX_STRING_LENGTH; lia|vm_compute; lia]|].
  exact (decodeString_too_long (2 ^ 20 + 1) [] [] 3 ltac:(unfold MAX_STRING_LENGTH; lia) ltac:(vm_compute; lia)).
Defined.

End SliceFormatFacts.

(** ** Sync apply: identifiers, JSON strings, numbers *)

Module ApplyFormatFacts.

Import SyncApply Sync ApplyFormats.
Local Open Scope string_scope.

(** [quoteIdentifier] produces exactly one SQL quoted identifier: reading
    a quoted identifier from its output gives back the name, and the text
    after it is untouched unless that text starts with a quote. *)
Lemma quoteIdentifier_token name rest :
  startsWithQuote rest = false ->
  sqlIdentToken (quoteIdentifier name ++ rest) = Some (name, rest).
Proof.
  intros Hr; unfold quoteIdentifier, dq.
  cbn [append sqlIdentToken]; rewrite Ascii.eqb_refl.
  rewrite <- (string_of_list_ascii_of_string name) at 2.
  induction (list_ascii_of_string name) as [|c l IH]; cbn [flat_map string_of_list_ascii app append].
  - cbn [identBody]; rewrite Ascii.eqb_refl.
    destruct rest as [|c2 rest2]; [reflexivity|].
    cbn [startsWithQuote] in Hr; cbn [identBody]; rewrite Hr; reflexivity.
  - destruct (Ascii.eqb c (ascii_of_nat 34)) eqn:Hc; cbn [string_of_list_ascii app append identBody].
    + apply Ascii.eqb_eq in Hc; subst c; rewrite Ascii.eqb_refl; rewrite IH; reflexivity.
    + rewrite Hc, IH; reflexivity.
Qed.

Lemma quoteIdentifier_token_witness :
  startsWithQuote " (" = false /\
  sqlIdentToken (quoteIdentifier "col" ++ " (") = Some ("col", " (").
Proof.
  split; [reflexivity|].
  apply (quoteIdentifier_token "col" " ("). reflexivity.
Defined.

Lemma str_app_assoc (a b c : string) : (a ++ b) ++ c = a ++ (b ++ c).
Proof. induction a as [|x a IH]; cbn; [reflexivity | rewrite IH; reflexivity]. Qed.

Lemma str_app_nil (a : string) : a ++ "" = a.
Proof. induction a as [|x a IH]; cbn; [reflexivity | rewrite IH; reflexivity]. Qed.

Lemma escape_cons c s : escapeJsonString (String c s) = escChar c ++ escapeJsonString s.
Proof. reflexivity. Qed.

Lemma escCharReads_all c : escCharReads c = true.
Proof. destruct c as [[] [] [] [] [] [] [] []]; vm_compute; reflexivity. Qed.

Lemma escChar_read c t :
  jsonStringBody (escChar c ++ t) = if rawControl c then None else consFst c (jsonStringBody t).
Proof.
  pose proof (escCharReads_all c) as H; unfold escCharReads in H.
  destruct (escChar c) as [|x [|y [|z w]]]; try discriminate.
  - apply andb_prop in H as [H H4]; apply andb_prop in H as [H H3]; apply andb_prop in H as [H1 H2].
    apply Ascii.eqb_eq in H1; subst x; apply negb_true_iff in H2, H3.
    cbn [append jsonStringBody]; rewrite H2, H3.
    destruct (nat_of_ascii c <? 32)%nat, (rawControl c); try discriminate; reflexivity.
  - apply andb_prop in H as [H H3]; apply andb_prop in H as [H1 H2].
    apply Nat.eqb_eq in H1; apply negb_true_iff in H2.
    destruct (jsonUnescape y) as [u|] eqn:Hu; [|discriminate]; apply Ascii.eqb_eq in H3; subst u.
    cbn [append jsonStringBody]; rewrite H1; cbn [Nat.eqb]; rewrite Hu, H2; reflexivity.
Qed.

Lemma escape_read s t :
  jsonStringBody (escapeJsonString s ++ t) =
  if noRawControl s then option_map (fun p => (s ++ fst p, snd p)) (jsonStringBody t) else None.
Proof.
  induction s as [|c s IH].
  - cbn; destruct (jsonStringBody t) as [[]|]; reflexivity.
  - rewrite escape_cons, str_app_assoc, escChar_read, IH; unfold noRawControl; cbn [list_ascii_of_string forallb].
    destruct (rawControl c); [reflexivity|]; cbn [negb andb].
    destruct (forallb _ _); [|reflexivity]; destruct (jsonStringBody t) as [[]|]; reflexivity.
Qed.

(** [toJson] of a string is one JSON string token that reads back to the
    same string, provided the string holds no control character other than
    the ones [escapeJsonString] escapes; such a raw character makes the
    token invalid JSON. *)
Lemma toJson_string_token s rest :
  jsonStringToken (toJson (JString s) ++ rest) = if noRawControl s then Some (s, rest) else None.
Proof.
  cbn [toJson]; rewrite str_app_assoc; unfold dq at 1; cbn [append jsonStringToken].
  rewrite nat_ascii_embedding by lia; cbn [Nat.eqb].
  rewrite str_app_assoc, escape_read; unfold dq; cbn [append jsonStringBody].
  rewrite nat_ascii_embedding by lia; cbn [Nat.eqb].
  destruct (noRawControl s); cbn; [rewrite str_app_nil|]; reflexivity.
Qed.

Lemma list_ascii_of_string_app s t :
  list_ascii_of_string (s ++ t) = (list_ascii_of_string s ++ list_ascii_of_string t)%list.
Proof. induction s as [|c s IH]; cbn; [reflexivity | rewrite IH; reflexivity]. Qed.

Lemma digitsValue_app s t a : digitsValue (s ++ t) a = digitsValue t (digitsValue s a).
Proof. revert a; induction s as [|c s IH]; intros a; cbn; auto. Qed.

Lemma digitsPrefix_digits s t a any :
  allDigits s = true ->
  digitsPrefix (s ++ t) a any =
  digitsPrefix t (digitsValue s a) (any || negb (String.eqb s "")).
Proof.
  revert a any; induction s as [|c s IH]; intros a any H; cbn [append digitsValue].
  - rewrite orb_false_r; reflexivity.
  - unfold allDigits in H; cbn in H; apply andb_prop in H as [Hc H].
    unfold isDigit in Hc; cbn [digitsPrefix]; destruct (digitValue c) as [d|]; [|discriminate].
    rewrite IH by exact H; rewrite orb_true_r; cbn; reflexivity.
Qed.

Lemma digitsOf_acc f n acc : digitsOf f n acc = digitsOf f n "" ++ acc.
Proof.
  revert n acc; induction f as [|f IH]; intros n acc; [reflexivity|].
  cbn [digitsOf]; destruct (n / 10 =? 0)%Z; [reflexivity|].
  rewrite (IH _ (String _ acc)), (IH _ (String _ EmptyString)), str_app_assoc; reflexivity.
Qed.

Lemma digitOk_lt k : (k < 10)%nat -> digitOk k = true.
Proof. intros H; do 10 (destruct k as [|k]; [reflexivity|]); lia. Qed.

Lemma digitsOf_S f n acc :
  digitsOf (S f) n acc =
  (if (n / 10 =? 0)%Z then String (ascii_of_nat (48 + Z.to_nat (n mod 10))) acc
   else digitsOf f (n / 10) (String (ascii_of_nat (48 + Z.to_nat (n mod 10))) acc)).
Proof. reflexivity. Qed.

Lemma digitsOf_spec f n :
  (0 <= n < 10 ^ Z.of_nat (S f))%Z ->
  allDigits (digitsOf (S f) n "") = true /\ String.eqb (digitsOf (S f) n "") "" = false /\
  digitsValue (digitsOf (S f) n "") 0 = n.
Proof.
  revert n; induction f as [|f IH]; intros n Hn.
  all: pose proof (Z.mod_pos_bound n 10 ltac:(lia)) as Hm.
  all: assert (Hd : digitOk (Z.to_nat (n mod 10)) = true)
         by (apply digitOk_lt; pose proof (Z.mod_pos_bound n 10); lia).
  all: unfold digitOk in Hd.
  all: destruct (digitValue (ascii_of_nat (48 + Z.to_nat (n mod 10)))) as [d|] eqn:Hv; [|discriminate].
  all: apply Z.eqb_eq in Hd; rewrite Z2Nat.id in Hd by lia; subst d.
  all: rewrite digitsOf_S; destruct (n / 10 =? 0)%Z eqn:Hq.
  1, 3: apply Z.eqb_eq in Hq; unfold allDigits, isDigit; cbn [list_ascii_of_string forallb digitsValue];
        rewrite Hv; split; [reflexivity|split; [reflexivity|]];
        pose proof (Z.div_mod n 10); lia.
  - apply Z.eqb_neq in Hq; exfalso; cbn in Hn.
    assert (n / 10 = 0)%Z by (apply Z.div_small; lia). contradiction.
  - rewrite digitsOf_acc.
    assert (Hn' : (0 <= n / 10 < 10 ^ Z.of_nat (S f))%Z).
    { rewrite (Nat2Z.inj_succ (S f)), Z.pow_succ_r in Hn by lia. split; [apply Z.div_pos; lia|].
      apply Z.div_lt_upper_bound; lia. }
    destruct (IH _ Hn') as [H1 [H2 H3]].
    split; [|split].
    + unfold allDigits in *; rewrite list_ascii_of_string_app, forallb_app, H1.
      cbn [list_ascii_of_string forallb]; unfold isDigit; rewrite Hv; reflexivity.
    + destruct (digitsOf (S f) (n / 10) ""); [discriminate|reflexivity].
    + rewrite digitsValue_app, H3; cbn [digitsValue]; rewrite Hv; pose proof (Z.div_mod n 10); lia.
Qed.

Lemma digitPlain_all c : digitPlain c = true.
Proof. destruct c as [[] [] [] [] [] [] [] []]; vm_compute; reflexivity. Qed.

Lemma digit_plain c : isDigit c = true ->
  isSpace c = false /\ Ascii.eqb c "-"%char = false /\ Ascii.eqb c "+"%char = false /\ floatChar c = false.
Proof.
  intros H; pose proof (digitPlain_all c) as P; unfold digitPlain in P; rewrite H in P; cbn in P.
  destruct (isSpace c), (Ascii.eqb c "-"%char), (Ascii.eqb c "+"%char), (floatChar c); cbn in P;
    try discriminate; auto.
Qed.

Lemma allDigits_noFloat s : allDigits s = true -> hasFloatChar s = false.
Proof.
  unfold allDigits, hasFloatChar; induction s as [|c s IH]; [reflexivity|].
  cbn [list_ascii_of_string forallb existsb]; intros H; apply andb_prop in H as [Hc H].
  destruct (digit_plain c Hc) as [_ [_ [_ Hf]]]; unfold floatChar in Hf; rewrite Hf, IH by exact H; reflexivity.
Qed.

Lemma digitsPrefix_all s : allDigits s = true -> String.eqb s "" = false ->
  digitsPrefix s 0 false = Some (digitsValue s 0).
Proof.
  intros H1 H2; rewrite <- (str_app_nil s) at 1; rewrite digitsPrefix_digits by exact H1.
  rewrite H2; reflexivity.
Qed.

Lemma stoll_digits s : allDigits s = true -> String.eqb s "" = false ->
  stoll s = (let v := digitsValue s 0 in
             if ((- 2 ^ 63 <=? v) && (v <? 2 ^ 63))%Z then Some v else None).
Proof.
  intros H1 H2; pose proof (digitsPrefix_all s H1 H2) as Hp.
  destruct s as [|c rest]; [discriminate|].
  assert (Hc : isDigit c = true) by (unfold allDigits in H1; cbn in H1; apply andb_prop in H1; tauto).
  destruct (digit_plain c Hc) as [Hs [Hm [Hpl _]]].
  cbn [stoll]; rewrite Hs, Hm, Hpl, Hp; reflexivity.
Qed.

Lemma zToString_nonneg v : (0 <= v < 10 ^ 20)%Z ->
  zToString v = digitsOf 20 v "".
Proof. intros H; unfold zToString; replace (v <? 0)%Z with false by (symmetry; apply Z.ltb_ge; lia); reflexivity. Qed.

(** [std::to_string] of a 64-bit value, stored as a JSON number and bound:
    an [int64] comes back as the same integer, an unsigned value past
    [2^63 - 1] is bound as a double. *)
Theorem bindValue_to_string v :
  (- 2 ^ 63 <= v < 2 ^ 64)%Z ->
  bindValue (JNumber (zToString v)) =
  if (v <? 2 ^ 63)%Z then SqlInteger v else SqlReal (zToString v).
Proof.
  intros Hv; unfold bindValue.
  destruct (Z.ltb_spec v 0) as [Hneg|Hpos].
  - assert (Hr : (0 <= - v < 10 ^ Z.of_nat (S 19))%Z) by (change (10 ^ Z.of_nat (S 19))%Z with (10 ^ 20)%Z; lia).
    destruct (digitsOf_spec 19 (- v) Hr) as [A [B C]].
    unfold zToString; replace (v <? 0)%Z with true by (symmetry; apply Z.ltb_lt; lia).
    replace (v <? 2 ^ 63)%Z with true by (symmetry; apply Z.ltb_lt; lia).
    assert (Hf : hasFloatChar ("-" ++ digitsOf 20 (- v) "") = false).
    { cbn [append]; unfold hasFloatChar; cbn [list_ascii_of_string existsb].
      fold (hasFloatChar (digitsOf 20 (- v) "")); rewrite allDigits_noFloat by exact A; reflexivity. }
    rewrite Hf; cbn [append stoll].
    replace (isSpace "-"%char) with false by reflexivity.
    replace (Ascii.eqb "-"%char "-"%char) with true by reflexivity.
    rewrite digitsPrefix_all by assumption; cbn [option_map]; rewrite C.
    replace ((- 2 ^ 63 <=? - - v) && (- - v <? 2 ^ 63))%Z with true
      by (symmetry; apply andb_true_intro; split; [apply Z.leb_le | apply Z.ltb_lt]; lia).
    rewrite Z.opp_involutive; reflexivity.
  - assert (Hr : (0 <= v < 10 ^ Z.of_nat (S 19))%Z) by (change (10 ^ Z.of_nat (S 19))%Z with (10 ^ 20)%Z; lia).
    destruct (digitsOf_spec 19 v Hr) as [A [B C]].
    rewrite zToString_nonneg by (change (10 ^ Z.of_nat (S 19))%Z with (10 ^ 20)%Z; lia).
    rewrite allDigits_noFloat by exact A; rewrite stoll_digits by assumption; cbv zeta; rewrite C.
    replace (- 2 ^ 63 <=? v)%Z with true by (symmetry; apply Z.leb_le; lia).
    destruct (Z.ltb_spec v (2 ^ 63)); reflexivity.
Qed.

Lemma bindValue_to_string_witness :
  (- 2 ^ 63 <= 2 ^ 63 < 2 ^ 64)%Z /\
  bindValue (JNumber (zToString (2 ^ 63))) = SqlReal (zToString (2 ^ 63)).
Proof.
  split; [lia|].
  rewrite (bindValue_to_string (2 ^ 63) ltac:(lia)). reflexivity.
Defined.

End ApplyFormatFacts.

(** ** Sync apply: delete chunks and the schema cache *)

Module ApplyCacheFacts.

Import SyncApply ApplyFormats.
Local Open Scope string_scope.
Local Open Scope list_scope.

Lemma chunkLoop_nil f : chunkLoop f [] = [].
Proof. destruct f; reflexivity. Qed.

Lemma chunkLoop_shape f ids :
  (List.length ids <= f)%nat ->
  Forall (fun c => 1 <= List.length c <= 900)%nat (chunkLoop f ids) /\
  Forall (fun c => List.length c = 900)%nat (removelast (chunkLoop f ids)) /\
  List.length (chunkLoop f ids) = ((List.length ids + 899) / 900)%nat.
Proof.
  revert ids; induction f as [|f IH]; intros ids Hl.
  - destruct ids; [repeat constructor | cbn in Hl; lia].
  - destruct ids as [|x rest]; [repeat constructor|].
    change (chunkLoop (S f) (x :: rest))
      with (firstn chunkSize (x :: rest) :: chunkLoop f (skipn chunkSize (x :: rest))).
    set (n := List.length (x :: rest)) in *.
    assert (Hn : (1 <= n)%nat) by (unfold n; cbn; lia).
    assert (Hf : List.length (firstn chunkSize (x :: rest)) = Nat.min 900 n)
      by (rewrite length_firstn; reflexivity).
    assert (Hs : List.length (skipn chunkSize (x :: rest)) = (n - 900)%nat)
      by (rewrite length_skipn; reflexivity).
    destruct (IH (skipn chunkSize (x :: rest)) ltac:(rewrite Hs; unfold n in *; lia))
      as [A [B C]].
    destruct (Nat.le_gt_cases n 900) as [Hle|Hgt].
    + assert (Hsk : skipn chunkSize (x :: rest) = []).
      { apply length_zero_iff_nil; rewrite Hs; lia. }
      rewrite Hsk, chunkLoop_nil; cbn [removelast List.length]; split; [|split].
      * constructor; [rewrite Hf; lia | constructor].
      * constructor.
      * replace (n + 899)%nat with (1 * 900 + (n - 1))%nat by lia.
        rewrite Nat.div_add_l by lia. rewrite Nat.div_small by lia. reflexivity.
    + assert (Hne : chunkLoop f (skipn chunkSize (x :: rest)) <> []).
      { intros E; rewrite E in C; cbn [List.length] in C; rewrite Hs in C.
        assert (1 <= (n - 900 + 899) / 900)%nat by (apply Nat.div_le_lower_bound; lia). lia. }
      split; [|split].
      * constructor; [rewrite Hf; lia | exact A].
      * destruct (chunkLoop f (skipn chunkSize (x :: rest))) as [|c cs] eqn:E; [congruence|].
        change (removelast (firstn chunkSize (x :: rest) :: c :: cs))
          with (firstn chunkSize (x :: rest) :: removelast (c :: cs)).
        constructor; [rewrite Hf; lia | exact B].
      * cbn [List.length]; rewrite C, Hs.
        replace (n + 899)%nat with (1 * 900 + (n - 900 + 899))%nat by lia.
        rewrite Nat.div_add_l by lia; lia.
Qed.

(** [applyDeletes] deletes in chunks that, concatenated, give the ids in
    order; each chunk holds between 1 and 900 ids, every chunk but the last
    exactly 900, and there are [ceil(n / 900)] of them. *)
Theorem chunks_shape ids :
  List.concat (chunks ids) = ids /\
  Forall (fun c => 1 <= List.length c <= 900)%nat (chunks ids) /\
  Forall (fun c => List.length c = 900)%nat (removelast (chunks ids)) /\
  List.length (chunks ids) = ((List.length ids + 899) / 900)%nat.
Proof.
  split; [apply SyncApplyFacts.chunks_concat|].
  apply chunkLoop_shape; lia.
Qed.

(** *** The schema cache *)

Lemma assoc_assoc_set {A} k (v : A) l : assoc k (assoc_set k v l) = Some v.
Proof.
  induction l as [|[k' v'] l IH]; cbn.
  - rewrite String.eqb_refl; reflexivity.
  - destruct (String.eqb k' k) eqn:E; cbn; [rewrite String.eqb_refl; reflexivity|rewrite E; exact IH].
Qed.

Lemma prepare_nofault sql valid w :
  faults w = [] -> prepare sql valid w = (inr valid, logSql w sql).
Proof. intros Hf; unfold prepare, sqliteCall; cbn [logSql faults]; rewrite Hf, andb_true_r; reflexivity. Qed.

Lemma readTableInfo_keeps rows : forall w,
  exists names w', readTableInfo rows w = (inr names, w') /\
    schemaCache w' = schemaCache w /\ schemaVersion w' = schemaVersion w.
Proof.
  induction rows as [|c rest IH]; intros w; cbn [readTableInfo].
  - exists [], w; split; [reflexivity | split; reflexivity].
  - unfold bind, rowStep.
    destruct (rowReads w) as [|o os].
    + destruct (IH w) as (ns & w' & E & Hc & Hv); rewrite E.
      exists (c :: ns), w'; split; [reflexivity | split; assumption].
    + set (w1 := mkWorld (committed w) (txn w) (schemaVersion w) (schemaCache w) (faults w) (sqlLog w) os).
      destruct o.
      * destruct (IH w1) as (ns & w' & E & Hc & Hv); rewrite E.
        exists (c :: ns), w'; split; [reflexivity | split; assumption].
      * destruct (IH w1) as (ns & w' & E & Hc & Hv).
        exists ns, w'; split; [exact E | split; assumption].
      * exists [], w1; split; [reflexivity | split; reflexivity].
Qed.

Ltac read_info H :=
  match type of H with
  | context [readTableInfo ?rows ?w0] =>
      let ns := fresh "ns" in let wr := fresh "wr" in let E := fresh "E" in
      destruct (readTableInfo_keeps rows w0) as (ns & wr & E & _ & _);
      rewrite E in H; cbv beta iota in H; destruct ns; [discriminate H|]
  end.

Lemma loadTableColumns_caches t b w cols w' :
  faults w = [] -> loadTableColumns t b w = (inr cols, w') ->
  assoc t (schemaCache w') = Some (schemaVersion w, cols).
Proof.
  intros Hf H; unfold loadTableColumns, bind in H; cbv beta in H.
  rewrite prepare_nofault in H by exact Hf; cbn [negb get] in H.
  set (w1 := logSql w "PRAGMA schema_version") in H.
  assert (Hf1 : faults w1 = []) by exact Hf.
  destruct b.
  - cbn [ret] in H; rewrite prepare_nofault in H by exact Hf1; cbn [negb get] in H.
    read_info H.
    unfold modify, ret in H; injection H as <- <-; cbn; apply assoc_assoc_set.
  - cbn [schemaCache schemaVersion w1 logSql] in H.
    destruct (assoc t (schemaCache w)) as [[v cs]|] eqn:Ea.
    + destruct (Z.eqb v (schemaVersion w)) eqn:Ev.
      * unfold ret in H; injection H as <- <-; cbn; apply Z.eqb_eq in Ev; subst v; exact Ea.
      * cbn [ret] in H; rewrite prepare_nofault in H by exact Hf1; cbn [negb get] in H.
        read_info H.
        unfold modify, ret in H; injection H as <- <-; cbn; apply assoc_assoc_set.
    + cbn [ret] in H; rewrite prepare_nofault in H by exact Hf1; cbn [negb get] in H.
      read_info H.
      unfold modify, ret in H; injection H as <- <-; cbn; apply assoc_assoc_set.
Qed.

Lemma loadTableColumns_hit t w cols :
  faults w = [] -> assoc t (schemaCache w) = Some (schemaVersion w, cols) ->
  loadTableColumns t false w = (inr cols, logSql w "PRAGMA schema_version").
Proof.
  intros Hf Ha; unfold loadTableColumns, bind; cbv beta.
  rewrite prepare_nofault by exact Hf; cbn [negb get schemaCache schemaVersion logSql].
  rewrite Ha, Z.eqb_refl; reflexivity.
Qed.

(** The schema cache is keyed by the table name alone: once the columns of
    [t] are loaded, a later [loadTableColumns t] in any world that shares
    the cache and has the same [schema_version] returns those columns
    without a [table_info] query, whatever its own table [t] holds. *)
Theorem schema_cache_ignores_database t b w1 cols w1' w2 :
  faults w1 = [] -> loadTableColumns t b w1 = (inr cols, w1') ->
  faults w2 = [] -> schemaCache w2 = schemaCache w1' -> schemaVersion w2 = schemaVersion w1 ->
  loadTableColumns t false w2 = (inr cols, logSql w2 "PRAGMA schema_version").
Proof.
  intros Hf1 Hl Hf2 Hc Hv.
  pose proof (loadTableColumns_caches t b w1 cols w1' Hf1 Hl) as Ha.
  apply loadTableColumns_hit; [exact Hf2|]; rewrite Hc, Hv; exact Ha.
Qed.

Lemma schema_cache_ignores_database_witness :
  let w1' := snd (loadTableColumns "t" false worldA) in
  let w2 := mkWorld dbB None 7 (schemaCache w1') [] [] [] in
  tableColumns dbB "t" = ["id"; "b"] /\
  loadTableColumns "t" false w2 = (inr ["id"; "a"], logSql w2 "PRAGMA schema_version").
Proof.
  intros w1' w2; split; [reflexivity|].
  assert (Hl : loadTableColumns "t" false worldA = (inr ["id"; "a"], w1')) by (vm_compute; reflexivity).
  exact (schema_cache_ignores_database "t" false worldA ["id"; "a"] w1' w2 eq_refl Hl eq_refl eq_refl eq_refl).
Defined.

End ApplyCacheFacts.

(** ** Sync engine: URLs, retry timers, stale continuations *)

Module SyncEngineFacts.

Import SyncApply Sync SyncFacts SyncFormats.
Local Open Scope string_scope.
Local Open Scope list_scope.

Lemma percentDecode_plain c r :
  Ascii.eqb c "%" = false -> percentDecode (String c r) = option_map (String c) (percentDecode r).
Proof. intros H; cbn [percentDecode]; rewrite H; reflexivity. Qed.

Lemma percentDecode_escape h1 h2 r a b :
  hexValue h1 = Some a -> hexValue h2 = Some b ->
  percentDecode (String "%" (String h1 (String h2 r))) =
  option_map (String (ascii_of_nat (16 * a + b))) (percentDecode r).
Proof. intros H1 H2; cbn [percentDecode Ascii.eqb Bool.eqb]; rewrite H1, H2; destruct (percentDecode r); reflexivity. Qed.

Lemma charRoundTrips_all c : charRoundTrips c = true.
Proof. destruct c as [[] [] [] [] [] [] [] []]; vm_compute; reflexivity. Qed.

(** [urlEncode] output holds only unreserved characters and [%] escapes,
    and percent-decoding it gives back the original string. *)
Lemma urlEncode_roundtrip s :
  percentDecode (urlEncode s) = Some s /\ urlSafe (urlEncode s) = true.
Proof.
  induction s as [|c s [IH1 IH2]]; [split; reflexivity|].
  pose proof (charRoundTrips_all c) as Hc; unfold charRoundTrips in Hc.
  cbn [urlEncode]; destruct (isUnreservedUrlChar c) eqn:Hu.
  - apply negb_true_iff in Hc.
    rewrite percentDecode_plain, IH1 by exact Hc.
    unfold urlSafe in *; cbn [list_ascii_of_string forallb]; rewrite Hu, IH2; split; reflexivity.
  - destruct (hexValue (hexDigit (nat_of_ascii c / 16))) as [a|] eqn:Ha; [|discriminate].
    destruct (hexValue (hexDigit (nat_of_ascii c mod 16))) as [b|] eqn:Hb; [|discriminate].
    apply andb_prop in Hc as [Hc Hl]; apply andb_prop in Hc as [Hc Hh].
    apply Ascii.eqb_eq in Hc.
    rewrite (percentDecode_escape _ _ _ a b Ha Hb), IH1, Hc.
    unfold urlSafe in *; cbn [list_ascii_of_string forallb]; rewrite Hh, Hl, IH2; split; reflexivity.
Qed.

Lemma toInt64_small z : (- 2 ^ 63 <= z < 2 ^ 63)%Z -> toInt64 z = z.
Proof. intros H; unfold toInt64; rewrite Z.mod_small; lia. Qed.

Lemma toInt32_small z : (- 2 ^ 31 <= z < 2 ^ 31)%Z -> toInt32 z = z.
Proof. intros H; unfold toInt32; rewrite Z.mod_small; lia. Qed.

Lemma backoff_bounds x :
  (0 <= retryInitialMs x <= retryMaxMs x)%Z -> (1 <= retryCount x <= 32)%Z ->
  (retryMaxMs x < 2 ^ 31)%Z ->
  (retryInitialMs x <= computeBackoffMsLocked x <= retryMaxMs x)%Z.
Proof.
  intros [H0 H1] H2 H3; unfold computeBackoffMsLocked.
  replace (retryCount x <=? 0)%Z with false by (symmetry; apply Z.leb_gt; lia).
  cbv zeta; rewrite Z.mod_small by lia; rewrite Z.shiftl_mul_pow2 by lia.
  assert (1 <= 2 ^ (retryCount x - 1))%Z by (pose proof (Z.pow_pos_nonneg 2 (retryCount x - 1)); lia).
  assert (2 ^ (retryCount x - 1) <= 2 ^ 31)%Z by (apply Z.pow_le_mono_r; lia).
  rewrite toInt64_small by (split; [nia|]; replace (2 ^ 63)%Z with (2 ^ 31 * 2 ^ 32)%Z by reflexivity; nia).
  destruct (Z.ltb_spec (retryMaxMs x) (retryInitialMs x * 2 ^ (retryCount x - 1)));
    rewrite toInt32_small; nia.
Qed.

Lemma shouldRetry_count sc x : shouldRetryLocked sc x = true -> (retryCount x < maxRetries x)%Z.
Proof.
  unfold shouldRetryLocked; destruct (Z.leb_spec (maxRetries x) (retryCount x)); [discriminate | lia].
Qed.

Lemma TimersWithin_app lo hi o1 o2 :
  TimersWithin lo hi o1 -> TimersWithin lo hi o2 -> TimersWithin lo hi (o1 ++ o2).
Proof. intros H1 H2 s d Hin; apply in_app_iff in Hin as [Hin|Hin]; eauto. Qed.

Lemma keepsE_then (e e1 : Engine) o1 g :
  KeepsE g -> Pres e e1 -> Pres e (fst (let (e2, o2) := g e1 in (e2, o1 ++ o2))).
Proof.
  intros Hg [Hi [Ha [Hb [Hm Hc]]]].
  destruct (Hg e1 Hi) as [Hi2 [Ha2 [Hb2 [Hm2 Hc2]]]].
  destruct (g e1) as [e2 o2]; cbn [fst snd] in *.
  split; [exact Hi2|]; split; [congruence|]; split; [congruence|]; split; [congruence|]; lia.
Qed.

Lemma keepsT_then (e e1 : Engine) o1 g :
  KeepsT g -> RetryInv e1 -> Bounded e -> retryInitialMs e1 = retryInitialMs e ->
  retryMaxMs e1 = retryMaxMs e -> maxRetries e1 = maxRetries e ->
  TimersWithin (retryInitialMs e) (retryMaxMs e) o1 ->
  TimersWithin (retryInitialMs e) (retryMaxMs e) (snd (let (e2, o2) := g e1 in (e2, o1 ++ o2))).
Proof.
  intros Hg Hi [Hb1 Hb2] Ha Hb Hm Ht.
  assert (Hb' : Bounded e1) by (unfold Bounded; rewrite Hb, Hm; split; assumption).
  pose proof (Hg e1 Hi Hb') as Ht2.
  destruct (g e1) as [e2 o2]; cbn [fst snd] in *.
  apply TimersWithin_app; [exact Ht|]; rewrite <- Ha, <- Hb; exact Ht2.
Qed.

#[local] Arguments computeBackoffMsLocked : simpl never.

#[local] Arguments dispatchRequest : simpl never.

#[local] Arguments startWithCompletion : simpl never.

#[local] Arguments finishPull : simpl never.

#[local] Arguments buildUrlWithCursor : simpl never.

#[local] Arguments extractNextCursor : simpl never.

#[local] Arguments httpErrorMessage : simpl never.

Ltac pres_leaf :=
  unfold Pres, RetryInv in *; cbn [fst snd];
  split; [cbn; lia|]; split; [cbn; lia|]; split; [cbn; lia|]; split; [cbn; lia|]; cbn; lia.

Ltac timers_leaf :=
  unfold RetryInv, Bounded in *;
  let s := fresh "s" in let d := fresh "d" in let Hin := fresh "Hin" in
  unfold TimersWithin; intros s d Hin; cbn in Hin;
  repeat (rewrite in_app_iff in Hin; cbn in Hin);
  repeat match goal with
         | H : _ \/ _ |- _ => destruct H as [H|H]
         | H : False |- _ => destruct H
         | H : Timer _ _ = Timer _ _ |- _ => injection H as <- <-
         | H : _ = Timer _ _ |- _ => discriminate H
         end;
  repeat match goal with H : shouldRetryLocked _ _ = true |- _ => apply shouldRetry_count in H end;
  match goal with
  | |- context [computeBackoffMsLocked ?x] =>
      pose proof (backoff_bounds x); cbn in *; lia
  end.

(** [split_all], remembering whether [shouldRetryLocked] held. *)
Ltac split_retry :=
  repeat (cbn in *;
    match goal with
    | |- context [if negb (shouldRetryLocked ?sc ?x) || _ then _ else _] =>
        let H := fresh "Hsr" in destruct (shouldRetryLocked sc x) eqn:H
    | |- context [if ?c then _ else _] => destruct c
    | |- context [match ?x with Some _ => _ | None => _ end] => destruct x
    | |- context [match ?x with inl _ => _ | inr _ => _ end] => destruct x
    | |- context [match ?p with (_, _) => _ end] => destruct p
    end).

Lemma keepsE_dispatch sid isRetry : KeepsE (dispatchRequest sid isRetry).
Proof. intros e H; unfold dispatchRequest; unfold_locals; split_all; pres_leaf. Qed.

Lemma keepsT_dispatch sid isRetry : KeepsT (dispatchRequest sid isRetry).
Proof. intros e H HB; unfold dispatchRequest; unfold_locals; split_retry; timers_leaf. Qed.

Lemma keepsE_tail (e e1 : Engine) g : KeepsE g -> Pres e e1 -> Pres e (fst (g e1)).
Proof.
  intros Hg H; pose proof (keepsE_then e e1 [] g Hg H) as H'; destruct (g e1); exact H'.
Qed.

Lemma keepsT_tail (e e1 : Engine) g :
  KeepsT g -> RetryInv e1 -> Bounded e -> retryInitialMs e1 = retryInitialMs e ->
  retryMaxMs e1 = retryMaxMs e -> maxRetries e1 = maxRetries e ->
  TimersWithin (retryInitialMs e) (retryMaxMs e) (snd (g e1)).
Proof.
  intros Hg Hi HB Ha Hb Hm; pose proof (keepsT_then e e1 [] g Hg Hi HB Ha Hb Hm) as H'.
  destruct (g e1); apply H'; intros s d [].
Qed.

Ltac split_keeps dE dT sE sT fE fT :=
  repeat (cbn -[app] in *;
    match goal with
    | |- Pres _ (fst (match dispatchRequest ?s ?b ?x with (_, _) => _ end)) =>
        refine (keepsE_then _ x _ (dispatchRequest s b) (dE s b) _)
    | |- Pres _ (fst (match startWithCompletion ?rs ?c ?x with (_, _) => _ end)) =>
        refine (keepsE_then _ x _ (startWithCompletion rs c) (sE rs c) _)
    | |- Pres _ (fst (match finishPull ?s ?p ?x [] with (_, _) => _ end)) =>
        refine (keepsE_then _ x _ (fun e => finishPull s p e []) (fE s p) _)
    | |- Pres _ (fst (startWithCompletion ?rs ?c ?x)) =>
        refine (keepsE_tail _ x (startWithCompletion rs c) (sE rs c) _)
    | |- Pres _ (fst (dispatchRequest ?s ?b ?x)) =>
        refine (keepsE_tail _ x (dispatchRequest s b) (dE s b) _)
    | |- Pres _ (fst (finishPull ?s ?p ?x [])) =>
        refine (keepsE_tail _ x (fun e => finishPull s p e []) (fE s p) _)
    | |- TimersWithin _ _ (snd (match dispatchRequest ?s ?b ?x with (_, _) => _ end)) =>
        refine (keepsT_then _ x _ (dispatchRequest s b) (dT s b) _ _ _ _ _ _)
    | |- TimersWithin _ _ (snd (match startWithCompletion ?rs ?c ?x with (_, _) => _ end)) =>
        refine (keepsT_then _ x _ (startWithCompletion rs c) (sT rs c) _ _ _ _ _ _)
    | |- TimersWithin _ _ (snd (match finishPull ?s ?p ?x [] with (_, _) => _ end)) =>
        refine (keepsT_then _ x _ (fun e => finishPull s p e []) (fT s p) _ _ _ _ _ _)
    | |- TimersWithin _ _ (snd (startWithCompletion ?rs ?c ?x)) =>
        refine (keepsT_tail _ x (startWithCompletion rs c) (sT rs c) _ _ _ _ _)
    | |- TimersWithin _ _ (snd (dispatchRequest ?s ?b ?x)) =>
        refine (keepsT_tail _ x (dispatchRequest s b) (dT s b) _ _ _ _ _)
    | |- TimersWithin _ _ (snd (finishPull ?s ?p ?x [])) =>
        refine (keepsT_tail _ x (fun e => finishPull s p e []) (fT s p) _ _ _ _ _)
    | |- context [finishPull ?s ?p ?x ?o] =>
        lazymatch o with [] => fail | _ => rewrite (finishPull_nil s p x o) end
    | |- context [if negb (shouldRetryLocked ?sc ?x) || _ then _ else _] =>
        let H := fresh "Hsr" in destruct (shouldRetryLocked sc x) eqn:H
    | |- context [if ?c then _ else _] => destruct c
    | |- context [match ?x with Some _ => _ | None => _ end] => destruct x
    | |- context [match ?x with inl _ => _ | inr _ => _ end] => destruct x
    | |- context [match ?p with (_, _) => _ end] => destruct p
    end).

Ltac keeps_leaf :=
  first [ pres_leaf
        | timers_leaf
        | unfold RetryInv, Bounded in *; cbn; lia ].

Lemma keepsE_start reason c : KeepsE (startWithCompletion reason c).
Proof.
  intros e H; unfold startWithCompletion; unfold_locals.
  split_keeps keepsE_dispatch keepsT_dispatch keepsE_dispatch keepsT_dispatch keepsE_dispatch keepsT_dispatch;
  keeps_leaf.
Qed.

Lemma keepsT_start reason c : KeepsT (startWithCompletion reason c).
Proof.
  intros e H HB; unfold startWithCompletion; unfold_locals.
  split_keeps keepsE_dispatch keepsT_dispatch keepsE_dispatch keepsT_dispatch keepsE_dispatch keepsT_dispatch;
  keeps_leaf.
Qed.

Lemma keepsE_finish sid pushCb : KeepsE (fun e => finishPull sid pushCb e []).
Proof.
  intros e H; unfold finishPull; unfold_locals.
  split_keeps keepsE_dispatch keepsT_dispatch keepsE_start keepsT_start keepsE_dispatch keepsT_dispatch;
  keeps_leaf.
Qed.

Lemma keepsT_finish sid pushCb : KeepsT (fun e => finishPull sid pushCb e []).
Proof.
  intros e H HB; unfold finishPull; unfold_locals.
  split_keeps keepsE_dispatch keepsT_dispatch keepsE_start keepsT_start keepsE_dispatch keepsT_dispatch;
  keeps_leaf.
Qed.

Lemma keepsE_handle sid r a : KeepsE (handleHttpResponse sid r a).
Proof.
  intros e H; unfold handleHttpResponse; unfold_locals.
  split_keeps keepsE_dispatch keepsT_dispatch keepsE_start keepsT_start keepsE_finish keepsT_finish;
  keeps_leaf.
Qed.

Lemma keepsT_handle sid r a : KeepsT (handleHttpResponse sid r a).
Proof.
  intros e H HB; unfold handleHttpResponse; unfold_locals.
  split_keeps keepsE_dispatch keepsT_dispatch keepsE_start keepsT_start keepsE_finish keepsT_finish;
  keeps_leaf.
Qed.

Lemma keepsE_pushDone sid ok msg : KeepsE (pushDone sid ok msg).
Proof.
  intros e H; unfold pushDone; unfold_locals.
  split_keeps keepsE_dispatch keepsT_dispatch keepsE_start keepsT_start keepsE_finish keepsT_finish;
  keeps_leaf.
Qed.

Lemma keepsT_pushDone sid ok msg : KeepsT (pushDone sid ok msg).
Proof.
  intros e H HB; unfold pushDone; unfold_locals.
  split_keeps keepsE_dispatch keepsT_dispatch keepsE_start keepsT_start keepsE_finish keepsT_finish;
  keeps_leaf.
Qed.

Lemma keepsE_retry sid : KeepsE (retry sid).
Proof.
  intros e H; unfold retry; unfold_locals.
  split_keeps keepsE_dispatch keepsT_dispatch keepsE_start keepsT_start keepsE_finish keepsT_finish;
  keeps_leaf.
Qed.

Lemma keepsT_retry sid : KeepsT (retry sid).
Proof.
  intros e H HB; unfold retry; unfold_locals.
  split_keeps keepsE_dispatch keepsT_dispatch keepsE_start keepsT_start keepsE_finish keepsT_finish;
  keeps_leaf.
Qed.

Lemma keepsE_setAuthToken token : KeepsE (setAuthToken token).
Proof.
  intros e H; unfold setAuthToken; unfold_locals.
  split_keeps keepsE_dispatch keepsT_dispatch keepsE_start keepsT_start keepsE_finish keepsT_finish;
  keeps_leaf.
Qed.

Lemma keepsT_setAuthToken token : KeepsT (setAuthToken token).
Proof.
  intros e H HB; unfold setAuthToken; unfold_locals.
  split_keeps keepsE_dispatch keepsT_dispatch keepsE_start keepsT_start keepsE_finish keepsT_finish;
  keeps_leaf.
Qed.

(** Every step keeps the invariant, never moves the sync id back, and only
    schedules retry timers within the configured bounds. *)
Lemma step_keeps e op :
  RetryInv e ->
  RetryInv (fst (step e op)) /\ (syncId e <= syncId (fst (step e op)))%Z /\
  (Bounded e -> TimersWithin (retryInitialMs e) (retryMaxMs e) (snd (step e op))).
Proof.
  intros H.
  assert (Hk : forall f, KeepsE f -> KeepsT f -> RetryInv (fst (f e)) /\ (syncId e <= syncId (fst (f e)))%Z /\
            (Bounded e -> TimersWithin (retryInitialMs e) (retryMaxMs e) (snd (f e)))).
  { intros f HE HT; destruct (HE e H) as [A [_ [_ [_ B]]]]; exact (conj A (conj B (HT e H))). }
  destruct op; cbn [step].
  - apply Hk; intros x Hx; unfold unlessShutdown; destruct (isShutdown x); cbn; [pres_leaf | pres_leaf | intros _ ? ? [] | intros _ ? ? []].
  - apply Hk; intros x Hx; unfold unlessShutdown; destruct (isShutdown x); cbn; [pres_leaf | pres_leaf | intros _ ? ? [] | intros _ ? ? []].
  - apply Hk; intros x Hx; unfold unlessShutdown; destruct (isShutdown x); cbn; [pres_leaf | pres_leaf | intros _ ? ? [] | intros _ ? ? []].
  - apply Hk; intros x Hx; unfold unlessShutdown; destruct (isShutdown x); cbn; [pres_leaf | pres_leaf | intros _ ? ? [] | intros _ ? ? []].
  - unfold configure, emitLocked, RetryInv in *; destruct (isShutdown e); cbn;
      [split; [lia | split; [lia | intros _ ? ? []]] |].
    split; [lia | split; [lia |]]; destruct (hasEventCallback e); intros _ ? ? Hin; cbn in Hin;
      intuition discriminate.
  - apply Hk; intros x Hx; unfold unlessShutdown; destruct (isShutdown x); cbn; [pres_leaf | pres_leaf | intros _ ? ? [] | intros _ ? ? []].
  - apply Hk; [apply keepsE_setAuthToken | apply keepsT_setAuthToken].
  - apply Hk; intros x Hx; unfold clearAuthToken; destruct (isShutdown x); cbn; [pres_leaf | pres_leaf | intros _ ? ? [] | intros _ ? ? []].
  - apply Hk; intros x Hx; unfold requestAuthToken; destruct (isShutdown x || authRequestInFlight x); cbn;
      [pres_leaf | pres_leaf | intros _ ? ? [] | destruct (hasAuthTokenRequestCallback x); cbn; intros _ ? ? Hin; [destruct Hin as [Hin|[]]; discriminate Hin | destruct Hin]].
  - apply Hk; [apply keepsE_start | apply keepsT_start].
  - unfold shutdown, RetryInv in *; cbn; split; [lia | split; [lia | intros _ ? ? []]].
  - apply Hk; [apply keepsE_handle | apply keepsT_handle].
  - apply Hk; [apply keepsE_pushDone | apply keepsT_pushDone].
  - apply Hk; [apply keepsE_retry | apply keepsT_retry].
Qed.

Lemma run_keeps e ops :
  RetryInv e -> RetryInv (fst (run e ops)) /\ (syncId e <= syncId (fst (run e ops)))%Z.
Proof.
  revert e; induction ops as [|op rest IH]; intros e H; cbn [run]; [cbn; split; [exact H | lia]|].
  destruct (step_keeps e op H) as [H1 [H2 _]].
  destruct (step e op) as [e1 o1]; cbn [fst] in *.
  destruct (IH e1 H1) as [H3 H4]; destruct (run e1 rest) as [e2 o2]; cbn [fst] in *; split; [exact H3 | lia].
Qed.

Lemma run_app e a b :
  run e (a ++ b) = let (e1, o1) := run e a in let (e2, o2) := run e1 b in (e2, o1 ++ o2).
Proof.
  revert e; induction a as [|op rest IH]; intros e; cbn [run app].
  - destruct (run e b); reflexivity.
  - destruct (step e op) as [e1 o1]; rewrite IH.
    destruct (run e1 rest) as [e2 o2]; destruct (run e2 b) as [e3 o3]; rewrite app_assoc; reflexivity.
Qed.

Lemma initial_inv : RetryInv initialEngine.
Proof. unfold RetryInv; cbn; lia. Qed.

(** In every engine reached from the initial one,
    [0 <= retryInitialMs <= retryMaxMs] holds; when moreover [maxRetries]
    is at most 32 and [retryMaxMs] is an [int], every retry timer the next
    step starts waits between [retryInitialMs] and [retryMaxMs]. *)
Theorem retry_timer_within ops op :
  let e := fst (run initialEngine ops) in
  (0 <= retryInitialMs e <= retryMaxMs e)%Z /\
  ((maxRetries e <= 32)%Z -> (retryMaxMs e < 2 ^ 31)%Z ->
   forall sid d, In (Timer sid d) (snd (step e op)) ->
   (retryInitialMs e <= d <= retryMaxMs e)%Z).
Proof.
  intros e.
  destruct (run_keeps initialEngine ops initial_inv) as [Hi _]; fold e in Hi.
  destruct (step_keeps e op Hi) as [_ [_ Ht]].
  split; [unfold RetryInv in Hi; lia|].
  intros Hm Hx sid d Hin; exact (Ht (conj Hm Hx) sid d Hin).
Qed.

(** With [maxRetries] above 55, the 55th retry of a run is scheduled with
    a delay of 0 ms: [1000 << 54] wraps to a negative [int64_t] whose low
    32 bits are 0. *)
Lemma backoff_wraps_at_55 :
  computeBackoffMsLocked (set_retryCount 55 (fst (run initialEngine retryOps))) = 0%Z.
Proof. vm_compute; reflexivity. Qed.

(** Once the sync id has moved past [sid], the HTTP responses, push
    completions and retry timers of [sid] change nothing, whatever steps
    come after. *)
Theorem superseded_continuations_ignored ops1 ops2 sid :
  (sid < syncId (fst (run initialEngine ops1)))%Z ->
  let e := fst (run initialEngine (ops1 ++ ops2)) in
  forall r a ok msg,
    step e (OpHttpResponse sid r a) = (e, []) /\ step e (OpPushDone sid ok msg) = (e, []) /\
    step e (OpRetry sid) = (e, []).
Proof.
  intros Hlt e r a ok msg.
  assert (Hs : (sid < syncId e)%Z).
  { unfold e; rewrite run_app.
    destruct (run_keeps initialEngine ops1 initial_inv) as [Hi _].
    destruct (run initialEngine ops1) as [e1 o1]; cbn [fst] in *.
    destruct (run_keeps e1 ops2 Hi) as [_ Hm].
    destruct (run e1 ops2) as [e2 o2]; cbn [fst] in *; lia. }
  assert (Hne : sid <> syncId e) by lia.
  cbn [step]; split; [|split].
  - apply handleHttpResponse_stale; exact Hne.
  - apply pushDone_stale; exact Hne.
  - apply retry_stale; exact Hne.
Qed.

Lemma step_after_shutdown e op :
  isShutdown e = true -> snd (step e op) = [] /\ isShutdown (fst (step e op)) = true.
Proof.
  intros H; destruct op; cbn [step];
  unfold unlessShutdown, configure, setAuthToken, clearAuthToken, requestAuthToken,
    startWithCompletion, handleHttpResponse, pushDone, retry; try rewrite H; cbn; auto.
Qed.

(** After [shutdown], no step has any effect: no event, no request, no
    completion call, no timer; and the engine stays shut down. *)
Theorem shutdown_is_final e ops :
  let (e', out) := run (fst (shutdown e)) ops in out = [] /\ isShutdown e' = true.
Proof.
  assert (H : isShutdown (fst (shutdown e)) = true) by reflexivity.
  revert H; generalize (fst (shutdown e)) as e0.
  induction ops as [|op rest IH]; intros e0 H; cbn [run]; [auto|].
  destruct (step_after_shutdown e0 op H) as [H1 H2].
  destruct (step e0 op) as [e1 o1]; cbn in H1, H2; subst o1.
  specialize (IH e1 H2); destruct (run e1 rest) as [e2 o2]; cbn; exact IH.
Qed.

Ltac no_effect_leaf :=
  let Hin := fresh "Hin" in
  cbn; split; [reflexivity|]; split; [reflexivity|]; split;
  [ intros ? ? Hin | intros Hin ];
  repeat (rewrite in_app_iff in Hin; cbn in Hin);
  repeat match goal with
         | H : _ \/ _ |- _ => destruct H as [H|H]
         | H : False |- _ => destruct H
         | H : _ = HttpGet _ _ |- _ => discriminate H
         | H : _ = AuthRequest |- _ => discriminate H
         end.

(** When [dispatchRequest] gives up before sending a request (no pull URL,
    or no auth token with the auth retries used up), the run is over and no
    request or auth request is made, yet the state it leaves is [Syncing]. *)
Theorem dispatch_gives_up_in_syncing sid isRetry e :
  isShutdown e = false -> sid = syncId e ->
  let url := if currentPullUrl e =? "" then pullEndpointUrl e else currentPullUrl e in
  url = "" \/
  (authToken e = "" /\ hasAuthTokenRequestCallback e = true /\ (maxAuthRetries e <= authRetryCount e)%Z) ->
  let (e', out) := dispatchRequest sid isRetry e in
  state e' = Syncing /\ syncInFlight e' = false /\
  (forall s u, ~ In (HttpGet s u) out) /\ ~ In AuthRequest out.
Proof.
  intros Hs Hsid url Hc; subst sid; unfold dispatchRequest.
  rewrite Hs, Z.eqb_refl; cbn [negb].
  change (if currentPullUrl e =? "" then pullEndpointUrl e else currentPullUrl e) with url.
  clearbody url.
  destruct Hc as [Hu | [Ha [Hcb Hm]]].
  - subst url; cbn [String.eqb negb andb]; unfold_locals; split_all; no_effect_leaf.
  - destruct (url =? "") eqn:Hu.
    + unfold_locals; split_all; no_effect_leaf.
    + rewrite Ha, Hcb; cbn [String.eqb andb negb].
      replace (maxAuthRetries e <=? authRetryCount e)%Z with true by (symmetry; apply Z.leb_le; exact Hm).
      unfold_locals; split_all; no_effect_leaf.
Qed.

Lemma retry_timer_within_witness :
  In (Timer 1 1000) (snd (step (fst (run initialEngine retryOps)) (OpHttpResponse 1 r503 (true, "")))) /\
  (retryInitialMs (fst (run initialEngine retryOps)) <= 1000 <=
   retryMaxMs (fst (run initialEngine retryOps)))%Z.
Proof.
  assert (H : In (Timer 1 1000)
                (snd (step (fst (run initialEngine retryOps)) (OpHttpResponse 1 r503 (true, ""))))).
  { vm_compute; repeat (first [left; reflexivity | right]). }
  split; [exact H|].
  exact (proj2 (retry_timer_within retryOps (OpHttpResponse 1 r503 (true, "")))
           ltac:(vm_compute; intros; discriminate) ltac:(vm_compute; reflexivity) 1%Z 1000%Z H).
Defined.

Lemma superseded_continuations_ignored_witness :
  (1 < syncId (fst (run initialEngine [OpStart "a" None; OpStart "b" None])))%Z /\
  step (fst (run initialEngine ([OpStart "a" None; OpStart "b" None] ++ [OpStart "c" None])))
       (OpRetry 1) =
  (fst (run initialEngine ([OpStart "a" None; OpStart "b" None] ++ [OpStart "c" None])), []).
Proof.
  assert (H : (1 < syncId (fst (run initialEngine [OpStart "a" None; OpStart "b" None])))%Z)
    by (vm_compute; reflexivity).
  split; [exact H|].
  exact (proj2 (proj2 (superseded_continuations_ignored _ [OpStart "c" None] 1 H r503 (true, "") true ""))).
Defined.

Lemma dispatch_gives_up_in_syncing_witness :
  isShutdown initialEngine = false /\
  state (fst (dispatchRequest 0 false initialEngine)) = Syncing /\
  syncInFlight (fst (dispatchRequest 0 false initialEngine)) = false.
Proof.
  assert (H1 : isShutdown initialEngine = false) by reflexivity.
  assert (H2 : (0 = syncId initialEngine)%Z) by reflexivity.
  assert (H3 : (if currentPullUrl initialEngine =? "" then pullEndpointUrl initialEngine
                else currentPullUrl initialEngine) = "" \/
               (authToken initialEngine = "" /\ hasAuthTokenRequestCallback initialEngine = true /\
                (maxAuthRetries initialEngine <= authRetryCount initialEngine)%Z))
    by (left; reflexivity).
  pose proof (dispatch_gives_up_in_syncing 0 false initialEngine H1 H2 H3) as H.
  destruct (dispatchRequest 0 false initialEngine) as [e' out]; cbn [fst].
  split; [exact H1 | exact (conj (proj1 H) (proj1 (proj2 H)))].
Defined.

End SyncEngineFacts.


(** ** SQLite insert helper and batch flush *)

Module InsertHelperFacts.

Import SliceDecoder SyncApply InsertHelper SliceImport InsertFormats.
Local Open Scope string_scope.
Local Open Scope list_scope.

Lemma assoc_set_lookup {A} k k' (v : A) l :
  assoc k (assoc_set k' v l) = if String.eqb k' k then Some v else assoc k l.
Proof.
  induction l as [|[k0 v0] l IH]; cbn.
  - destruct (String.eqb k' k); reflexivity.
  - destruct (String.eqb k0 k') eqn:E0.
    + apply String.eqb_eq in E0; subst k0. cbn. destruct (String.eqb k' k); reflexivity.
    + cbn. destruct (String.eqb k0 k) eqn:E1; [|exact IH].
      apply String.eqb_eq in E1; subst k0. destruct (String.eqb k' k) eqn:E2; [|reflexivity].
      apply String.eqb_eq in E2; subst k'. rewrite String.eqb_refl in E0; discriminate.
Qed.

Lemma str_app_cancel_l (a b c : string) : (a ++ b)%string = (a ++ c)%string -> b = c.
Proof. induction a as [|x a IH]; cbn; [auto|]. intros H; injection H; exact IH. Qed.

Lemma zToString_nat_inj n m : (n <= 900)%nat -> (m <= 900)%nat ->
  Sync.zToString (Z.of_nat n) = Sync.zToString (Z.of_nat m) -> n = m.
Proof.
  intros Hn Hm H.
  assert (Bn : (0 <= Z.of_nat n < 10 ^ Z.of_nat (S 19))%Z)
    by (change (10 ^ Z.of_nat (S 19))%Z with (10 ^ 20)%Z; lia).
  assert (Bm : (0 <= Z.of_nat m < 10 ^ Z.of_nat (S 19))%Z)
    by (change (10 ^ Z.of_nat (S 19))%Z with (10 ^ 20)%Z; lia).
  rewrite !ApplyFormatFacts.zToString_nonneg in H
    by (change (10 ^ Z.of_nat (S 19))%Z with (10 ^ 20)%Z in *; lia).
  destruct (ApplyFormatFacts.digitsOf_spec 19 _ Bn) as [_ [_ Vn]].
  destruct (ApplyFormatFacts.digitsOf_spec 19 _ Bm) as [_ [_ Vm]].
  change (S 19) with 20%nat in Vn, Vm. rewrite H in Vn. lia.
Qed.

Lemma cacheKey_inj t s n m : (n <= 900)%nat -> (m <= 900)%nat ->
  cacheKey t s n = cacheKey t s m -> n = m.
Proof.
  unfold cacheKey. intros Hn Hm H.
  apply str_app_cancel_l in H. injection H as H. apply str_app_cancel_l in H.
  injection H as H. apply zToString_nat_inj; assumption.
Qed.

Lemma rowParams_length n r : List.length (rowParams n r) = n.
Proof. unfold rowParams. rewrite length_map, length_seq. reflexivity. Qed.

Lemma flat_map_rowParams_length n l : List.length (flat_map (rowParams n) l) = (List.length l * n)%nat.
Proof.
  induction l as [|r l IH]; cbn [flat_map]; [reflexivity|].
  rewrite length_app, rowParams_length, IH. cbn [List.length]. lia.
Qed.

Lemma getCached_spec P cache t cols k sc res cache' :
  CacheFor t cols cache -> (k <= 900)%nat ->
  getCachedMultiRowStatement P cache t cols (buildColumnsSignature cols) k sc = (res, cache') ->
  CacheFor t cols cache' /\ (forall stmt, res = Some stmt -> stmt = multiRowSql t cols k).
Proof.
  intros HC Hk. unfold getCachedMultiRowStatement.
  destruct sc.
  - destruct (assoc (cacheKey t (buildColumnsSignature cols) k) cache) as [stmt|] eqn:L.
    + intros E; injection E as <- <-. split; [exact HC|].
      intros stmt' E; injection E as <-. exact (HC k stmt Hk L).
    + destruct (P (multiRowSql t cols k)).
      * intros E; injection E as <- <-. split; [|intros stmt E; injection E as <-; reflexivity].
        intros n sql Hn L'. rewrite assoc_set_lookup in L'.
        destruct (String.eqb (cacheKey t (buildColumnsSignature cols) k)
                    (cacheKey t (buildColumnsSignature cols) n)) eqn:Ek.
        -- apply String.eqb_eq, cacheKey_inj in Ek; [|exact Hk|exact Hn]. subst n.
           injection L' as <-; reflexivity.
        -- exact (HC n sql Hn L').
      * intros E; injection E as <- <-. split; [exact HC|discriminate].
  - destruct (P (multiRowSql t cols k)).
    + intros E; injection E as <- <-. split; [exact HC|intros stmt E; injection E as <-; reflexivity].
    + intros E; injection E as <- <-. split; [exact HC|discriminate].
Qed.

Lemma insertChunks_spec P B S fuel : forall cache t cols maxRows rest ok cache' log,
  (1 <= maxRows <= 900)%nat -> (List.length rest <= fuel)%nat -> CacheFor t cols cache ->
  insertChunks P B S fuel cache t cols (buildColumnsSignature cols) maxRows rest = (ok, cache', log) ->
  CacheFor t cols cache' /\ Forall (StmtShape t cols maxRows) log /\
  (ok = true -> List.concat (map snd log) = map boundValue (flat_map (rowParams (List.length cols)) rest)).
Proof.
  induction fuel as [|fuel IH]; intros cache t cols maxRows rest ok cache' log Hm Hf HC E.
  - destruct rest; [|cbn in Hf; lia]. cbn in E. injection E as <- <- <-.
    split; [exact HC|split; [constructor|reflexivity]].
  - destruct rest as [|r rs].
    { cbn in E. injection E as <- <- <-. split; [exact HC|split; [constructor|reflexivity]]. }
    cbn [insertChunks] in E. remember (r :: rs) as rest eqn:Er.
    set (chunk := Nat.min maxRows (List.length rest)) in E.
    assert (Hc : (1 <= chunk <= maxRows)%nat /\ (chunk <= List.length rest)%nat)
      by (subst chunk rest; cbn [List.length]; lia).
    destruct (getCachedMultiRowStatement P cache t cols (buildColumnsSignature cols) chunk
                (Nat.eqb chunk maxRows)) as [[stmt|] cache1] eqn:G.
    2: { injection E as <- <- <-. apply getCached_spec in G; [|exact HC|lia].
         split; [exact (proj1 G)|split; [constructor|discriminate]]. }
    apply getCached_spec in G; [|exact HC|lia]. destruct G as [HC1 Hs].
    specialize (Hs stmt eq_refl).
    destruct (bindAll B stmt 1 (flat_map (rowParams (List.length cols)) (firstn chunk rest))
              && S stmt (map boundValue (flat_map (rowParams (List.length cols)) (firstn chunk rest)))).
    2: { injection E as <- <- <-. split; [exact HC1|split; [constructor|discriminate]]. }
    destruct (insertChunks P B S fuel cache1 t cols (buildColumnsSignature cols) maxRows
                (skipn chunk rest)) as [[ok1 cache2] log1] eqn:R.
    injection E as <- <- <-.
    apply IH in R; [|exact Hm| rewrite length_skipn; subst rest; cbn [List.length] in *; lia|exact HC1].
    destruct R as [HC2 [Hsh Hok]].
    split; [exact HC2|split].
    + constructor; [|exact Hsh].
      exists chunk. split; [lia|]. split; [exact Hs|].
      cbn [snd]. rewrite length_map, flat_map_rowParams_length, length_firstn. lia.
    + intros Ho. cbn [map List.concat snd]. rewrite (Hok Ho).
      rewrite <- map_app, <- flat_map_app, firstn_skipn. reflexivity.
Qed.

Lemma maxRows_bounds c : (1 <= Nat.max 1 (900 / c) <= 900)%nat.
Proof.
  split; [lia|]. apply Nat.max_lub; [lia|].
  destruct c; [cbn; lia|]. apply Nat.Div0.div_le_upper_bound; lia.
Qed.

Lemma chunk_params_bound k c : (k <= Nat.max 1 (900 / c))%nat -> (k * c <= Nat.max 900 c)%nat.
Proof.
  intros Hk. destruct (Nat.le_gt_cases 1 (900 / c)) as [H1|H1].
  - rewrite Nat.max_r in Hk by lia.
    destruct c as [|c']; [lia|].
    pose proof (Nat.Div0.mul_div_le 900 (S c')). nia.
  - rewrite Nat.max_l in Hk by lia. nia.
Qed.

(** [insertRowsMulti] binds the rows in order, each padded with NULL or cut
    to the column count and each value as [bindFieldValue] binds it (a
    text up to its first NUL byte), at most [max(900, columnCount)] values
    per statement, and runs each chunk with the statement built for this
    table and these columns, as long as the cache holds no other statement
    under this table's and columns' keys. *)
Theorem insertRowsMulti_statements P B S cache t cols rows ok cache' log :
  cols <> [] -> CacheFor t cols cache ->
  insertRowsMulti P B S cache t cols rows = (ok, cache', log) ->
  CacheFor t cols cache' /\
  Forall (fun e => StmtShape t cols (Nat.max 1 (900 / List.length cols)) e /\
                   (List.length (snd e) <= Nat.max 900 (List.length cols))%nat) log /\
  (ok = true -> List.concat (map snd log) = map boundValue (flat_map (rowParams (List.length cols)) rows)).
Proof.
  intros Hc HC E. unfold insertRowsMulti in E.
  destruct rows as [|r rs].
  { injection E as <- <- <-. split; [exact HC|split; [constructor|reflexivity]]. }
  destruct cols as [|c cs]; [congruence|].
  apply insertChunks_spec in E; [|apply maxRows_bounds|lia|exact HC].
  destruct E as [HC' [Hsh Hok]]. split; [exact HC'|split; [|exact Hok]].
  eapply Forall_impl; [|exact Hsh]. intros e He. split; [exact He|].
  destruct He as [k [Hk [_ Hl]]]. rewrite Hl. apply chunk_params_bound. lia.
Qed.

Lemma CacheFor_nil t cols : CacheFor t cols [].
Proof. intros n sql _ H; discriminate H. Qed.

Lemma insertRowsMulti_statements_witness :
  (["a"; "b"] <> [] /\ CacheFor "t" ["a"; "b"] [] /\
   insertRowsMulti sqliteAllOkPrepare sqliteAllOkBind sqliteAllOkStep [] "t" ["a"; "b"] rowsAB
   = (true, [], [(multiRowSql "t" ["a"; "b"] 2, [INT_VALUE 1; NULL_VALUE; INT_VALUE 2; INT_VALUE 3])])) /\
  (CacheFor "t" ["a"; "b"] [] /\
   Forall (fun e => StmtShape "t" ["a"; "b"] (Nat.max 1 (900 / List.length ["a"; "b"])) e /\
                    (List.length (snd e) <= Nat.max 900 (List.length ["a"; "b"]))%nat)
     [(multiRowSql "t" ["a"; "b"] 2, [INT_VALUE 1; NULL_VALUE; INT_VALUE 2; INT_VALUE 3])] /\
   (true = true -> List.concat (map snd [(multiRowSql "t" ["a"; "b"] 2, [INT_VALUE 1; NULL_VALUE; INT_VALUE 2; INT_VALUE 3])])
                   = map boundValue (flat_map (rowParams (List.length ["a"; "b"])) rowsAB))).
Proof.
  assert (E : insertRowsMulti sqliteAllOkPrepare sqliteAllOkBind sqliteAllOkStep [] "t" ["a"; "b"] rowsAB
   = (true, [], [(multiRowSql "t" ["a"; "b"] 2, [INT_VALUE 1; NULL_VALUE; INT_VALUE 2; INT_VALUE 3])]))
    by reflexivity.
  split; [split; [discriminate|split; [apply CacheFor_nil|exact E]]|].
  exact (insertRowsMulti_statements sqliteAllOkPrepare sqliteAllOkBind sqliteAllOkStep [] "t" ["a"; "b"] rowsAB _ _ _ ltac:(discriminate) (CacheFor_nil _ _) E).
Defined.

(** A text with an embedded NUL byte is stored cut at that byte. *)
Lemma text_bound_up_to_nul :
  insertRowsMulti sqliteAllOkPrepare sqliteAllOkBind sqliteAllOkStep [] "t" ["a"]
    [[TEXT_VALUE [97; 0; 98]%Z]]
  = (true, [], [(multiRowSql "t" ["a"] 1, [TEXT_VALUE [97]%Z])]).
Proof. vm_compute; reflexivity. Qed.

Lemma getCached_keeps P cache t cols sig k sc res cache' key v :
  getCachedMultiRowStatement P cache t cols sig k sc = (res, cache') ->
  assoc key cache = Some v -> assoc key cache' = Some v.
Proof.
  unfold getCachedMultiRowStatement. intros E H.
  destruct sc.
  - destruct (assoc (cacheKey t sig k) cache) eqn:L.
    + injection E as _ <-. exact H.
    + destruct (P (multiRowSql t cols k)); injection E as _ <-; [|exact H].
      rewrite assoc_set_lookup. destruct (String.eqb (cacheKey t sig k) key) eqn:Ek; [|exact H].
      apply String.eqb_eq in Ek; subst key. congruence.
  - destruct (P (multiRowSql t cols k)); injection E as _ <-; exact H.
Qed.

Lemma insertChunks_keeps P B S fuel : forall cache t cols sig maxRows rest key v,
  assoc key cache = Some v ->
  assoc key (snd (fst (insertChunks P B S fuel cache t cols sig maxRows rest))) = Some v.
Proof.
  induction fuel as [|fuel IH]; intros cache t cols sig maxRows rest key v H; [exact H|].
  destruct rest as [|r rs]; [exact H|].
  cbn [insertChunks].
  destruct (getCachedMultiRowStatement P cache t cols sig (Nat.min maxRows (List.length (r :: rs)))
              (Nat.eqb (Nat.min maxRows (List.length (r :: rs))) maxRows)) as [[stmt|] cache1] eqn:G;
    pose proof (getCached_keeps _ _ _ _ _ _ _ _ _ _ _ G H) as H1; [|exact H1].
  destruct (_ && _); [|exact H1].
  destruct (insertChunks P B S fuel cache1 t cols sig maxRows _) as [[ok1 cache2] log1] eqn:R.
  cbn [fst snd]. pose proof (IH cache1 t cols sig maxRows
    (skipn (Nat.min maxRows (List.length (r :: rs))) (r :: rs)) key v H1) as IH1.
  rewrite R in IH1. exact IH1.
Qed.

(** The statement cache key [table|signature|rows] does not identify the
    table and its columns: once [insertRowsMulti] has cached the full-chunk
    statement of [t1] and [c1], a call for another table or column list
    with the same key and column count runs that statement, with the table
    name and column names of [t1] and [c1]. *)
Theorem statement_cache_key_collision P B S t1 c1 rows1 t2 c2 rows2 :
  c1 <> [] -> List.length c2 = List.length c1 ->
  cacheKey t1 (buildColumnsSignature c1) (Nat.max 1 (900 / List.length c1)) =
  cacheKey t2 (buildColumnsSignature c2) (Nat.max 1 (900 / List.length c1)) ->
  (Nat.max 1 (900 / List.length c1) <= List.length rows1)%nat ->
  (Nat.max 1 (900 / List.length c1) <= List.length rows2)%nat ->
  P (multiRowSql t1 c1 (Nat.max 1 (900 / List.length c1))) = true ->
  forall stmt ps rest,
    snd (insertRowsMulti P B S (snd (fst (insertRowsMulti P B S [] t1 c1 rows1))) t2 c2 rows2)
      = (stmt, ps) :: rest ->
    stmt = multiRowSql t1 c1 (Nat.max 1 (900 / List.length c1)).
Proof.
  intros Hc1 Hl Hk H1 H2 HP stmt ps rest.
  set (n := Nat.max 1 (900 / List.length c1)) in *.
  assert (Hn : (1 <= n)%nat) by (subst n; lia).
  (* the first call caches the statement of t1 and c1 under the shared key *)
  assert (C1 : assoc (cacheKey t1 (buildColumnsSignature c1) n)
                 (snd (fst (insertRowsMulti P B S [] t1 c1 rows1))) = Some (multiRowSql t1 c1 n)).
  { unfold insertRowsMulti.
    destruct rows1 as [|r1 rs1]; [cbn [Datatypes.length] in H1; lia|].
    destruct c1 as [|x1 xs1]; [congruence|].
    fold n. change (Datatypes.length (r1 :: rs1)) with (Datatypes.S (Datatypes.length rs1)) in *.
    cbn [insertChunks].
    replace (Nat.min n (Datatypes.length (r1 :: rs1))) with n
      by (change (Datatypes.length (r1 :: rs1)) with (Datatypes.S (Datatypes.length rs1)); lia).
    rewrite Nat.eqb_refl. unfold getCachedMultiRowStatement at 1. cbn [assoc].
    rewrite HP.
    assert (A : assoc (cacheKey t1 (buildColumnsSignature (x1 :: xs1)) n)
                  (assoc_set (cacheKey t1 (buildColumnsSignature (x1 :: xs1)) n)
                     (multiRowSql t1 (x1 :: xs1) n) []) = Some (multiRowSql t1 (x1 :: xs1) n))
      by (rewrite assoc_set_lookup, String.eqb_refl; reflexivity).
    destruct (_ && _); [|exact A].
    destruct (insertChunks P B S _ _ t1 (x1 :: xs1) _ n _) as [[ok1 cache2] log1] eqn:R.
    cbn [fst snd]. pose proof (insertChunks_keeps P B S (List.length rs1)
      (assoc_set (cacheKey t1 (buildColumnsSignature (x1 :: xs1)) n)
         (multiRowSql t1 (x1 :: xs1) n) []) t1 (x1 :: xs1) (buildColumnsSignature (x1 :: xs1)) n
      (skipn n (r1 :: rs1)) _ _ A) as K.
    rewrite R in K. exact K. }
  set (cache1 := snd (fst (insertRowsMulti P B S [] t1 c1 rows1))) in *.
  rewrite Hk in C1.
  unfold insertRowsMulti.
  destruct rows2 as [|r2 rs2]; [cbn [Datatypes.length] in H2; lia|].
  destruct c2 as [|x2 xs2]; [destruct c1; cbn in Hl; congruence|].
  rewrite Hl. fold n. change (Datatypes.length (r2 :: rs2)) with (Datatypes.S (Datatypes.length rs2)) in *.
  cbn [insertChunks].
  replace (Nat.min n (Datatypes.length (r2 :: rs2))) with n
      by (change (Datatypes.length (r2 :: rs2)) with (Datatypes.S (Datatypes.length rs2)); lia).
  rewrite Nat.eqb_refl. unfold getCachedMultiRowStatement at 1. rewrite C1.
  destruct (_ && _); [|discriminate].
  destruct (insertChunks P B S _ _ t2 (x2 :: xs2) _ n _) as [[ok2 cache3] log2].
  cbn [snd]. intros E; injection E as <- _ _. reflexivity.
Qed.

Lemma statement_cache_key_collision_witness :
  (["a,b"; "c"] <> [] /\ List.length ["a"; "b,c"] = List.length ["a,b"; "c"] /\
   cacheKey "t" (buildColumnsSignature ["a,b"; "c"]) (Nat.max 1 (900 / List.length ["a,b"; "c"])) =
   cacheKey "t" (buildColumnsSignature ["a"; "b,c"]) (Nat.max 1 (900 / List.length ["a,b"; "c"])) /\
   (Nat.max 1 (900 / List.length ["a,b"; "c"]) <= List.length emptyRows450)%nat /\
   sqliteAllOkPrepare (multiRowSql "t" ["a,b"; "c"] (Nat.max 1 (900 / List.length ["a,b"; "c"]))) = true) /\
  (forall stmt ps rest,
    snd (insertRowsMulti sqliteAllOkPrepare sqliteAllOkBind sqliteAllOkStep
           (snd (fst (insertRowsMulti sqliteAllOkPrepare sqliteAllOkBind sqliteAllOkStep [] "t"
                        ["a,b"; "c"] emptyRows450))) "t" ["a"; "b,c"] emptyRows450)
      = (stmt, ps) :: rest ->
    stmt = multiRowSql "t" ["a,b"; "c"] (Nat.max 1 (900 / List.length ["a,b"; "c"]))).
Proof.
  assert (Hr : (Nat.max 1 (900 / List.length ["a,b"; "c"]) <= List.length emptyRows450)%nat)
    by (apply Nat.leb_le; vm_compute; reflexivity).
  split; [split; [discriminate|split; [reflexivity|split; [vm_compute; reflexivity|split; [exact Hr|reflexivity]]]]|].
  exact (statement_cache_key_collision sqliteAllOkPrepare sqliteAllOkBind sqliteAllOkStep
           "t" ["a,b"; "c"] emptyRows450 "t" ["a"; "b,c"] emptyRows450
           ltac:(discriminate) eq_refl ltac:(vm_compute; reflexivity) Hr Hr eq_refl).
Defined.

Lemma collision_runs_other_statement :
  match snd (insertRowsMulti sqliteAllOkPrepare sqliteAllOkBind sqliteAllOkStep
           (snd (fst (insertRowsMulti sqliteAllOkPrepare sqliteAllOkBind sqliteAllOkStep [] "t"
                        ["a,b"; "c"] emptyRows450))) "t" ["a"; "b,c"] emptyRows450) with
  | (stmt, _) :: _ => String.eqb stmt (multiRowSql "t" ["a"; "b,c"] 450) = false
  | [] => False
  end.
Proof. vm_compute. reflexivity. Qed.

Lemma firstCols_app t l x :
  firstCols t (l ++ [x]) =
  match firstCols t l with
  | Some c => Some c
  | None => let '(t', c, _) := x in if String.eqb t' t then Some c else None
  end.
Proof.
  induction l as [|[[t0 c0] r0] l IH]; cbn.
  - destruct x as [[t' c] r]. reflexivity.
  - destruct (String.eqb t0 t); [reflexivity|exact IH].
Qed.

Lemma rowsOf_app t l x :
  rowsOf t (l ++ [x]) = rowsOf t l ++ (let '(t', _, r) := x in if String.eqb t' t then [r] else []).
Proof.
  unfold rowsOf. rewrite filter_app, map_app. f_equal.
  destruct x as [[t' c] r]. cbn. destruct (String.eqb t' t); reflexivity.
Qed.

Lemma buildBatch_app l x :
  buildBatch (l ++ [x]) = let '(t, c, r) := x in addRow (buildBatch l) t c r.
Proof. unfold buildBatch. rewrite fold_left_app. destruct x as [[t c] r]. reflexivity. Qed.

Lemma assoc_in_keys {A} t (l : list (string * A)) : In t (map fst l) <-> assoc t l <> None.
Proof.
  induction l as [|[k v] l IH]; cbn.
  - split; [intros []|intros H; exact (H eq_refl)].
  - destruct (String.eqb k t) eqn:E.
    + apply String.eqb_eq in E. split; [discriminate|intros _; left; exact E].
    + apply String.eqb_neq in E. rewrite <- IH. split; [intros [H|H]; [congruence|exact H]|intros H; right; exact H].
Qed.

(** [BatchData::addRow] keeps every row of a table in arrival order and
    the column list of the first row added for it: the column lists given
    with later rows of the same table are dropped. *)
Theorem buildBatch_contents adds t :
  totalRows (buildBatch adds) = List.length adds /\
  assoc t (tables (buildBatch adds)) = nonEmpty (rowsOf t adds) /\
  assoc t (tableColumns (buildBatch adds)) = firstCols t adds.
Proof.
  induction adds as [|x l IH] using rev_ind; [split; [reflexivity|split; reflexivity]|].
  rewrite buildBatch_app, rowsOf_app, firstCols_app, length_app.
  destruct IH as [IT [IR IC]]. destruct x as [[t' c] r].
  unfold addRow; cbn [tables tableColumns totalRows]. split; [rewrite IT; cbn; lia|split].
  - rewrite assoc_set_lookup. destruct (String.eqb t' t) eqn:E.
    + apply String.eqb_eq in E; subst t'. rewrite IR.
      destruct (rowsOf t l); reflexivity.
    + rewrite IR, app_nil_r. reflexivity.
  - destruct (assoc t' (tableColumns (buildBatch l))) eqn:A.
    + rewrite IC. destruct (firstCols t l) eqn:F; [reflexivity|].
      destruct (String.eqb t' t) eqn:E; [|reflexivity].
      apply String.eqb_eq in E; subst t'. congruence.
    + rewrite assoc_set_lookup, IC. destruct (String.eqb t' t) eqn:E.
      * apply String.eqb_eq in E; subst t'. rewrite <- IC, A. reflexivity.
      * destruct (firstCols t l); reflexivity.
Qed.

Lemma getCached_allOk cache t cols sig k sc :
  exists stmt cache', getCachedMultiRowStatement sqliteAllOkPrepare cache t cols sig k sc = (Some stmt, cache').
Proof.
  unfold getCachedMultiRowStatement.
  destruct (if sc then assoc (cacheKey t sig k) cache else None); [eauto|].
  cbn [sqliteAllOkPrepare]. eauto.
Qed.

Lemma bindAll_allOk s i ps : bindAll sqliteAllOkBind s i ps = true.
Proof. revert i; induction ps as [|p ps IH]; intros i; [reflexivity|exact (IH (Datatypes.S i))]. Qed.

Lemma insertChunks_allOk fuel : forall cache t cols sig maxRows rest,
  (1 <= maxRows)%nat -> (List.length rest <= fuel)%nat ->
  fst (fst (insertChunks sqliteAllOkPrepare sqliteAllOkBind sqliteAllOkStep fuel cache t cols sig maxRows rest)) = true /\
  List.concat (map snd (snd (insertChunks sqliteAllOkPrepare sqliteAllOkBind sqliteAllOkStep fuel cache t cols sig maxRows rest)))
  = map boundValue (flat_map (rowParams (List.length cols)) rest).
Proof.
  induction fuel as [|fuel IH]; intros cache t cols sig maxRows rest Hm Hf.
  - destruct rest; [split; reflexivity|cbn in Hf; lia].
  - destruct rest as [|r rs]; [split; reflexivity|].
    cbn [insertChunks]. remember (r :: rs) as rest eqn:Er.
    set (chunk := Nat.min maxRows (List.length rest)).
    destruct (getCached_allOk cache t cols sig chunk (Nat.eqb chunk maxRows)) as [stmt [cache1 G]].
    rewrite G, bindAll_allOk. cbn [andb sqliteAllOkStep].
    destruct (IH cache1 t cols sig maxRows (skipn chunk rest) Hm) as [IO IP];
      [rewrite length_skipn; subst rest; cbn [List.length] in *; lia|].
    destruct (insertChunks _ _ _ fuel cache1 t cols sig maxRows (skipn chunk rest)) as [[ok1 c2] l1].
    cbn [fst snd] in *. split; [exact IO|].
    cbn [map List.concat snd]. rewrite IP, <- map_app, <- flat_map_app, firstn_skipn. reflexivity.
Qed.

Lemma insertRowsMulti_allOk cache t cols rows :
  fst (fst (insertRowsMulti sqliteAllOkPrepare sqliteAllOkBind sqliteAllOkStep cache t cols rows)) = true /\
  List.concat (map snd (snd (insertRowsMulti sqliteAllOkPrepare sqliteAllOkBind sqliteAllOkStep cache t cols rows)))
  = map boundValue (flat_map (rowParams (List.length cols)) rows).
Proof.
  unfold insertRowsMulti. destruct rows as [|r rs]; [split; reflexivity|].
  destruct cols as [|c cs].
  - split; [reflexivity|]. cbn. unfold rowParams. cbn.
    induction rs; [reflexivity|exact IHrs].
  - apply insertChunks_allOk; [lia|lia].
Qed.

Lemma insertSorted_in s l x : In x (insertSorted s l) <-> s = x \/ In x l.
Proof.
  induction l as [|y l IH]; cbn; [tauto|].
  destruct (String.compare s y); cbn; [tauto|tauto|]. rewrite IH. tauto.
Qed.

Lemma sortNames_in l x : In x (sortNames l) <-> In x l.
Proof.
  induction l as [|y l IH]; cbn; [tauto|]. unfold sortNames in *. cbn.
  rewrite insertSorted_in, IH. split; intros [H|H]; auto.
Qed.

Lemma insertTables_some P B S b names cache :
  (forall t, In t names -> assoc t (tables b) <> None /\ assoc t (tableColumns b) <> None) ->
  insertTables P B S b names cache <> None.
Proof.
  revert cache; induction names as [|t names IH]; intros cache H; [discriminate|].
  cbn [insertTables]. destruct (H t (or_introl eq_refl)) as [H1 H2].
  destruct (assoc t (tables b)) as [rows|]; [|congruence].
  destruct (assoc t (tableColumns b)) as [cols|]; [|congruence].
  destruct (insertRowsMulti P B S cache t cols rows) as [[ok cache'] done].
  destruct ok; [|discriminate].
  specialize (IH cache' (fun x Hx => H x (or_intror Hx))).
  destruct (insertTables P B S b names cache') as [[[ok' c''] d']|]; [discriminate|congruence].
Qed.

Lemma insertTables_allOk b names cache :
  (forall t, In t names -> assoc t (tables b) <> None /\ assoc t (tableColumns b) <> None) ->
  exists cache' log,
    insertTables sqliteAllOkPrepare sqliteAllOkBind sqliteAllOkStep b names cache = Some (true, cache', log) /\
    List.concat (map snd log) =
    flat_map (fun t => match assoc t (tables b), assoc t (tableColumns b) with
                       | Some rows, Some cols => map boundValue (flat_map (rowParams (List.length cols)) rows)
                       | _, _ => []
                       end) names.
Proof.
  revert cache; induction names as [|t names IH]; intros cache H; [exists cache, []; split; reflexivity|].
  cbn [insertTables flat_map]. destruct (H t (or_introl eq_refl)) as [H1 H2].
  destruct (assoc t (tables b)) as [rows|]; [|congruence].
  destruct (assoc t (tableColumns b)) as [cols|]; [|congruence].
  destruct (insertRowsMulti_allOk cache t cols rows) as [O Pm].
  destruct (insertRowsMulti _ _ _ cache t cols rows) as [[ok cache'] done].
  cbn [fst snd] in O, Pm. subst ok.
  destruct (IH cache' (fun x Hx => H x (or_intror Hx))) as [c'' [l' [E P']]].
  rewrite E. exists c'', (done ++ l'). split; [reflexivity|].
  rewrite map_app, concat_app, Pm, P'. reflexivity.
Qed.

Lemma buildBatch_names_present adds t :
  In t (sortNames (map fst (tables (buildBatch adds)))) ->
  assoc t (tables (buildBatch adds)) = Some (rowsOf t adds) /\
  assoc t (tableColumns (buildBatch adds)) = firstCols t adds /\
  firstCols t adds <> None.
Proof.
  rewrite sortNames_in, assoc_in_keys. intros H.
  destruct (buildBatch_contents adds t) as [_ [R C]].
  rewrite R in *. destruct (rowsOf t adds) as [|r rs] eqn:E; [cbn in H; congruence|].
  split; [reflexivity|split; [exact C|]].
  assert (In r (rowsOf t adds)) by (rewrite E; left; reflexivity).
  unfold rowsOf in H0. apply in_map_iff in H0. destruct H0 as [[[t' c] r'] [_ Hin]].
  apply filter_In in Hin. destruct Hin as [Hin Ht]. apply String.eqb_eq in Ht; subst t'.
  clear - Hin. induction adds as [|[[t0 c0] r0] l IH]; [destruct Hin|].
  cbn. destruct (String.eqb t0 t) eqn:Et; [discriminate|].
  destruct Hin as [Hin|Hin]; [injection Hin as -> _ _; rewrite String.eqb_refl in Et; discriminate|].
  exact (IH Hin).
Qed.

(** [insertBatch] on a batch filled by [BatchData::addRow] never throws
    [std::out_of_range] from [at]: every table it loops over has rows and
    a column list. *)
Theorem insertBatch_never_throws P B S adds cache :
  insertBatch P B S cache (buildBatch adds) <> None.
Proof.
  unfold insertBatch. destruct (Nat.eqb _ 0); [discriminate|].
  apply insertTables_some. intros t Ht.
  destruct (buildBatch_names_present adds t Ht) as [R [C F]].
  rewrite R, C. split; [discriminate|exact F].
Qed.

(** When SQLite accepts every statement, [insertBatch] of a batch filled
    by [BatchData::addRow] succeeds and binds, table by table in sorted
    name order, every row of the table in arrival order, padded with NULL
    or cut to the column list recorded with the table's first row, each
    value as [bindFieldValue] binds it (a text up to its first NUL byte). *)
Theorem insertBatch_binds_all_rows adds cache :
  exists cache' log,
    insertBatch sqliteAllOkPrepare sqliteAllOkBind sqliteAllOkStep cache (buildBatch adds)
      = Some (true, cache', log) /\
    List.concat (map snd log) =
    flat_map (fun t => match firstCols t adds with
                       | Some cols => map boundValue (flat_map (rowParams (List.length cols)) (rowsOf t adds))
                       | None => []
                       end) (sortNames (map fst (tables (buildBatch adds)))).
Proof.
  unfold insertBatch. destruct (Nat.eqb _ 0) eqn:Z0.
  - exists cache, []. split; [reflexivity|].
    apply Nat.eqb_eq in Z0. destruct (buildBatch_contents adds "") as [T _].
    rewrite T in Z0. apply length_zero_iff_nil in Z0. subst adds. reflexivity.
  - destruct (insertTables_allOk (buildBatch adds) (sortNames (map fst (tables (buildBatch adds)))) cache)
      as [c' [l [E Pm]]].
    { intros t Ht. destruct (buildBatch_names_present adds t Ht) as [R [C F]].
      rewrite R, C. split; [discriminate|exact F]. }
    exists c', l. split; [exact E|]. rewrite Pm.
    assert (Hin : forall t, In t (sortNames (map fst (tables (buildBatch adds)))) ->
                  assoc t (tables (buildBatch adds)) = Some (rowsOf t adds) /\
                  assoc t (tableColumns (buildBatch adds)) = firstCols t adds)
      by (intros t Ht; destruct (buildBatch_names_present adds t Ht) as [R [C _]]; split; assumption).
    revert Hin. generalize (sortNames (map fst (tables (buildBatch adds)))) as ns.
    induction ns as [|t ns IH]; intros Hin; [reflexivity|].
    cbn [flat_map]. destruct (Hin t (or_introl eq_refl)) as [R C]. rewrite R, C.
    rewrite IH by (intros x Hx; exact (Hin x (or_intror Hx))). reflexivity.
Qed.

Lemma cycleSavepoints_spec fuel : forall rs cyc,
  (N.to_nat rs <= fuel)%nat ->
  fst (cycleSavepoints fuel rs cyc) = (rs mod SAVEPOINT_INTERVAL)%N /\
  snd (cycleSavepoints fuel rs cyc) = (cyc + rs / SAVEPOINT_INTERVAL)%N.
Proof.
  unfold SAVEPOINT_INTERVAL.
  induction fuel as [|fuel IH]; intros rs cyc H.
  - assert (rs = 0%N) by lia. subst. cbn. split; [reflexivity|lia].
  - cbn [cycleSavepoints]. unfold SAVEPOINT_INTERVAL in *. destruct (N.leb 10000 rs) eqn:E.
    + apply N.leb_le in E. destruct (IH (rs - 10000)%N (N.succ cyc)) as [A B]; [lia|].
      rewrite A, B.
      replace rs with (rs - 10000 + 1 * 10000)%N at 2 4 by lia.
      rewrite N.Div0.mod_add, N.div_add by lia. split; [reflexivity|lia].
    + apply N.leb_gt in E. rewrite N.mod_small, N.div_small by lia. split; cbn; lia.
Qed.

(** [flushBatch] keeps the savepoint counter below [SAVEPOINT_INTERVAL]
    and [totalRowsInserted] equal to the rows the savepoints account for.
    An empty batch or a failed engine is left alone and reported as
    success; otherwise the result is the insert's, a failed insert leaves
    the batch and the counters as they were, and a successful one empties
    the batch, counts its rows, counts one flush and cycles one savepoint
    per [SAVEPOINT_INTERVAL] rows. *)
Theorem flushBatch_savepoint_cycles dbInsertBatch st ok st' :
  SavepointInv st -> flushBatch dbInsertBatch st = (ok, st') ->
  let n := N.of_nat (totalRows (currentBatch st)) in
  SavepointInv st' /\
  (totalRows (currentBatch st) = 0%nat \/ failed st = true -> ok = true /\ st' = st) /\
  (totalRows (currentBatch st) <> 0%nat -> failed st = false -> ok = dbInsertBatch (currentBatch st)) /\
  (ok = false -> st' = st) /\
  (totalRows (currentBatch st) <> 0%nat -> failed st = false -> ok = true ->
   currentBatch st' = emptyBatch /\ failed st' = false /\
   totalRowsInserted st' = (totalRowsInserted st + n)%N /\
   flushCount st' = N.succ (flushCount st) /\
   savepointCycles st' = (savepointCycles st + (rowsSinceSavepoint st + n) / SAVEPOINT_INTERVAL)%N /\
   rowsSinceSavepoint st' = ((rowsSinceSavepoint st + n) mod SAVEPOINT_INTERVAL)%N).
Proof.
  intros [H1 H2]. unfold flushBatch. intros E.
  set (n := N.of_nat (totalRows (currentBatch st))) in *.
  destruct (Nat.eqb (totalRows (currentBatch st)) 0) eqn:Z0.
  { apply Nat.eqb_eq in Z0. cbn [orb] in E. injection E as <- <-.
    split; [split; assumption|]. split; [intros _; split; reflexivity|].
    split; [intros C; contradiction|]. split; [reflexivity|]. intros C; contradiction. }
  apply Nat.eqb_neq in Z0. destruct (failed st) eqn:F; cbn [orb] in E.
  { injection E as <- <-.
    split; [split; assumption|]. split; [intros _; split; reflexivity|].
    split; [intros _ C; discriminate|]. split; [reflexivity|]. intros _ C; discriminate. }
  destruct (dbInsertBatch (currentBatch st)) eqn:D; cbn [negb] in E.
  2:{ injection E as <- <-.
      split; [split; assumption|]. split; [intros [C|C]; [contradiction|discriminate]|].
      split; [reflexivity|]. split; [reflexivity|]. intros _ _ C; discriminate. }
  pose proof (cycleSavepoints_spec (N.to_nat (rowsSinceSavepoint st + n)) (rowsSinceSavepoint st + n)
                (savepointCycles st) (le_n _)) as [A B].
  destruct (cycleSavepoints _ _ _) as [rs' cyc]. cbn [fst snd] in A, B. subst rs' cyc.
  injection E as <- <-.
  cbn [rowsSinceSavepoint totalRowsInserted savepointCycles currentBatch failed flushCount].
  split; [|split; [intros [C|C]; [contradiction|discriminate]|]].
  2:{ split; [reflexivity|]. split; [discriminate|].
      intros _ _ _; repeat split; reflexivity. }
  unfold SavepointInv, SAVEPOINT_INTERVAL in *.
  cbn [rowsSinceSavepoint totalRowsInserted savepointCycles]. split.
  - apply N.mod_upper_bound; discriminate.
  - pose proof (N.div_mod (rowsSinceSavepoint st + n) 10000 ltac:(discriminate)).
    set (q := ((rowsSinceSavepoint st + n) / 10000)%N) in *.
    set (r := ((rowsSinceSavepoint st + n) mod 10000)%N) in *. lia.
Qed.

Lemma flushBatch_savepoint_cycles_witness :
  (SavepointInv (countersWith 2500) /\
   flushBatch (fun _ => true) (countersWith 2500) = (true, countersAfter)) /\
  currentBatch countersAfter = emptyBatch /\
  totalRowsInserted countersAfter = 21500%N /\ savepointCycles countersAfter = 2%N /\
  rowsSinceSavepoint countersAfter = 1500%N.
Proof.
  assert (I : SavepointInv (countersWith 2500))
    by (unfold SavepointInv, SAVEPOINT_INTERVAL; cbn; split; [reflexivity|reflexivity]).
  assert (E : flushBatch (fun _ => true) (countersWith 2500) = (true, countersAfter))
    by (vm_compute; reflexivity).
  split; [split; [exact I|exact E]|].
  destruct (flushBatch_savepoint_cycles (fun _ => true) (countersWith 2500) true _ I E)
    as [_ [_ [_ [_ H]]]].
  destruct (H ltac:(discriminate) eq_refl eq_refl) as [B [_ [T [_ [C R]]]]].
  split; [exact B|]. split; [exact T|]. split; [exact C|exact R].
Defined.

End InsertHelperFacts.
